(** * iot-cli: the device data plane, verified against its Go sources

    A shallow embedding of the binary message codec
    ([internal/terminal]: [ParseMessage], [BuildMessage]), of the
    rate-limited stream adapters, the bandwidth parser and the cancellable copy
    loop ([internal/file/throttle.go]), of the progress bar
    ([internal/file/progress.go]) and of the transfer orchestrator
    ([internal/file/transfer.go], [cmd/put.go]); with them the remote-path
    functions ([internal/file/parse.go]), the [get] command ([cmd/get.go])
    and the version comparison of the update checker.

    Conventions.  Go's [int] and [int64] are 64-bit two's complement integers,
    carried as [Z] with the conversions written out; [[]byte] is [list byte];
    a Go [string] is a Rocq [string] (both are byte sequences); [float64] is
    [spec_float] at precision 53 and maximal exponent 1024, with the IEEE
    operations of [SpecFloat].  Counts of bytes and of tokens are sums of
    lengths of data held in memory and are not reduced modulo 2^64.  Of
    the case tables of package [unicode] only the part that matters to the
    callers is modelled (see [GoStrings.ToUpper]); what is stated of the
    upper case of arbitrary strings assumes [isASCII].
    Everything the Go code obtains from its environment (clock readings,
    random bytes, the remote device, the local file system, the terminal) is
    an explicit argument. *)

From Stdlib Require Import ZArith NArith String Ascii Bool Lia List.
From Stdlib Require Import Strings.Byte.
From Stdlib Require Import Floats.SpecFloat.
Import ListNotations.
Open Scope Z_scope.

(** ** Go errors *)

(** An [error] value.  The sentinel errors the code compares against or passes
    through are constructors of their own; [ErrNew] is [errors.New] and
    [fmt.Errorf] without [%w]; [ErrWrap p e] is [fmt.Errorf(p + ": %w", e)].
    A run-time panic is carried as [Panic], which every caller passes on. *)
Inductive error : Type :=
| EOF
| ErrShortWrite
| Canceled
| DeadlineExceeded
| ErrNew (msg : string)
| ErrWrap (prefix : string) (e : error)
| Panic (msg : string).

(** [err.Error()] *)
Fixpoint Error (e : error) : string :=
  match e with
  | EOF => "EOF"
  | ErrShortWrite => "short write"
  | Canceled => "context canceled"
  | DeadlineExceeded => "context deadline exceeded"
  | ErrNew msg => msg
  | ErrWrap p e' => p ++ ": " ++ Error e'
  | Panic msg => "panic: " ++ msg
  end%string.

(** The errors a cancelled or expired [context.Context] reports. *)
Definition is_cancellation (e : error) : bool :=
  match e with
  | Canceled | DeadlineExceeded => true
  | _ => false
  end.

Inductive result (A : Type) : Type :=
| Ok (a : A)
| Err (e : error).
Arguments Ok {A} a.
Arguments Err {A} e.

Definition is_err {A} (r : result A) : bool :=
  match r with Ok _ => false | Err _ => true end.

(** ** Integer conversions of Go *)

Module GoInt.

Definition uint32 (x : Z) : Z := x mod 2 ^ 32.
Definition uint64 (x : Z) : Z := x mod 2 ^ 64.

(** [int64(u)] for an unsigned 64-bit [u]: reinterpretation of the bits. *)
Definition int64 (u : Z) : Z :=
  let r := u mod 2 ^ 64 in
  if r <? 2 ^ 63 then r else r - 2 ^ 64.

Definition in_int64 (x : Z) : Prop := - 2 ^ 63 <= x < 2 ^ 63.
Definition in_uint32 (x : Z) : Prop := 0 <= x < 2 ^ 32.

Lemma int64_uint64 x : in_int64 x -> int64 (uint64 x) = x.
Proof.
  unfold in_int64, int64, uint64. intros H.
  rewrite Z.mod_mod by lia.
  destruct (Z.ltb_spec (x mod 2 ^ 64) (2 ^ 63)) as [L | L].
  - destruct (Z_lt_le_dec x 0) as [N | N].
    + exfalso. replace x with ((x + 2 ^ 64) + (-1) * 2 ^ 64) in L by lia.
      rewrite Z.mod_add in L by lia. rewrite Z.mod_small in L; lia.
    + apply Z.mod_small. lia.
  - destruct (Z_lt_le_dec x 0) as [N | N].
    + replace x with ((x + 2 ^ 64) + (-1) * 2 ^ 64) at 1 by lia.
      rewrite Z.mod_add by lia. rewrite Z.mod_small; lia.
    + rewrite Z.mod_small in L; lia.
Qed.

Lemma uint32_small x : in_uint32 x -> uint32 x = x.
Proof. unfold in_uint32, uint32. intros. apply Z.mod_small. lia. Qed.

End GoInt.

(** ** Bytes and the big-endian integer encoding of [encoding/binary] *)

Module Bytes.

Definition byte_to_Z (b : byte) : Z := Z.of_N (Byte.to_N b).

Definition byte_of_Z (z : Z) : byte :=
  match Byte.of_N (Z.to_N (z mod 256)) with
  | Some b => b
  | None => x00
  end.

Lemma byte_to_Z_range b : 0 <= byte_to_Z b < 256.
Proof.
  unfold byte_to_Z. pose proof (Byte.to_N_bounded b). lia.
Qed.

Lemma byte_of_to_Z b : byte_of_Z (byte_to_Z b) = b.
Proof.
  unfold byte_of_Z. pose proof (byte_to_Z_range b) as R.
  rewrite Z.mod_small by lia. unfold byte_to_Z.
  rewrite N2Z.id, Byte.of_to_N. reflexivity.
Qed.

Lemma byte_to_of_Z z : byte_to_Z (byte_of_Z z) = z mod 256.
Proof.
  unfold byte_of_Z, byte_to_Z.
  assert (R : 0 <= z mod 256 < 256) by (apply Z.mod_pos_bound; lia).
  destruct (Byte.of_N (Z.to_N (z mod 256))) as [b |] eqn:E.
  - apply Byte.to_of_N in E. rewrite E. rewrite Z2N.id; lia.
  - apply Byte.of_N_None_iff in E. lia.
Qed.

(** [n] bytes of [v], most significant first: what [PutUint32] (n = 4) and
    [PutUint64] (n = 8) store. *)
Fixpoint be_encode (n : nat) (v : Z) : list byte :=
  match n with
  | O => []
  | S n' => byte_of_Z (v / 256 ^ Z.of_nat n') :: be_encode n' v
  end.

(** The unsigned value of a big-endian byte string: what [Uint32] and
    [Uint64] read from their first 4 and 8 bytes. *)
Definition be_decode (bs : list byte) : Z :=
  fold_left (fun acc b => acc * 256 + byte_to_Z b) bs 0.

Definition PutUint32 (v : Z) : list byte := be_encode 4 v.
Definition PutUint64 (v : Z) : list byte := be_encode 8 v.
Definition Uint32 (b : list byte) : Z := be_decode (firstn 4 b).
Definition Uint64 (b : list byte) : Z := be_decode (firstn 8 b).

Lemma be_encode_length n v : length (be_encode n v) = n.
Proof. induction n; simpl; congruence. Qed.

Lemma be_decode_acc bs : forall a,
  fold_left (fun acc b => acc * 256 + byte_to_Z b) bs a
  = a * 256 ^ Z.of_nat (length bs) + be_decode bs.
Proof.
  unfold be_decode. induction bs as [| b bs IH]; intros a.
  - simpl. lia.
  - cbn [fold_left length]. rewrite IH. rewrite (IH (0 * 256 + _)).
    rewrite Nat2Z.inj_succ, Z.pow_succ_r by lia. lia.
Qed.

Lemma be_decode_encode n v : be_decode (be_encode n v) = v mod 256 ^ Z.of_nat n.
Proof.
  induction n as [| n IH].
  - simpl. rewrite Z.mod_1_r. reflexivity.
  - cbn [be_encode]. unfold be_decode. cbn [fold_left].
    rewrite be_decode_acc, be_encode_length, IH, byte_to_of_Z.
    rewrite Nat2Z.inj_succ, Z.pow_succ_r by lia.
    set (p := 256 ^ Z.of_nat n). assert (0 < p) by (apply Z.pow_pos_nonneg; lia).
    rewrite (Z.mul_comm 256 p). rewrite Z.rem_mul_r by lia. lia.
Qed.

Lemma Uint32_PutUint32 v rest : Uint32 (PutUint32 v ++ rest) = GoInt.uint32 v.
Proof.
  unfold Uint32, PutUint32.
  rewrite firstn_app, be_encode_length, Nat.sub_diag, firstn_O, app_nil_r.
  rewrite firstn_all2 by (rewrite be_encode_length; lia).
  rewrite be_decode_encode. reflexivity.
Qed.

Lemma Uint64_PutUint64 v rest : Uint64 (PutUint64 v ++ rest) = GoInt.uint64 v.
Proof.
  unfold Uint64, PutUint64.
  rewrite firstn_app, be_encode_length, Nat.sub_diag, firstn_O, app_nil_r.
  rewrite firstn_all2 by (rewrite be_encode_length; lia).
  rewrite be_decode_encode. reflexivity.
Qed.

(** [make([]byte, n)] *)
Definition make (n : nat) : list byte := repeat x00 n.

(** [copy(buf[a:b], src)]: the first [min (b - a) (len src)] bytes of [src]
    overwrite [buf] from index [a]; the call is only made with
    [a <= b <= len buf]. *)
Definition copy_into (a b : nat) (src buf : list byte) : list byte :=
  let chunk := firstn (b - a) src in
  firstn a buf ++ chunk ++ skipn (a + length chunk) buf.

(** A field of width [w] holding [src], cut to [w] bytes and zero-padded. *)
Definition padded (w : nat) (src : list byte) : list byte :=
  firstn w src ++ repeat x00 (w - length src).

Lemma padded_length w src : length (padded w src) = w.
Proof.
  unfold padded. rewrite length_app, length_firstn, repeat_length. lia.
Qed.

Lemma padded_exact w src : length src = w -> padded w src = src.
Proof.
  intros <-. unfold padded. rewrite firstn_all, Nat.sub_diag. apply app_nil_r.
Qed.

Lemma skipn_make k n : skipn k (make n) = make (n - k).
Proof.
  unfold make. revert n. induction k as [| k IH]; intros n.
  - rewrite Nat.sub_0_r. reflexivity.
  - destruct n as [| n]; [reflexivity |]. cbn [repeat skipn]. rewrite IH.
    reflexivity.
Qed.

(** Writing a field into the still-zero tail of a buffer under construction. *)
Lemma copy_into_zeros pre src a w n :
  length pre = a -> (w <= n)%nat ->
  copy_into a (a + w) src (pre ++ make n) = (pre ++ padded w src) ++ make (n - w).
Proof.
  intros La Hw. unfold copy_into, padded, make.
  replace (a + w - a)%nat with w by lia.
  rewrite firstn_app, La, Nat.sub_diag, firstn_O, app_nil_r.
  rewrite firstn_all2 by lia.
  rewrite skipn_app, La.
  rewrite skipn_all2 by lia. cbn [app].
  replace (a + length (firstn w src) - a)%nat with (length (firstn w src)) by lia.
  fold (make n). rewrite skipn_make. unfold make.
  rewrite <- !app_assoc. f_equal. f_equal.
  rewrite length_firstn.
  replace (n - Nat.min w (length src))%nat
    with ((w - length src) + (n - w))%nat by lia.
  apply repeat_app.
Qed.

End Bytes.

(** ** SHA-256, as computed by [crypto/sha256.Sum256] (FIPS 180-4) *)

Module Sha256.
Import Bytes.

Definition w32 (x : Z) : Z := x mod 2 ^ 32.
Definition rotr (x n : Z) : Z := w32 (Z.lor (Z.shiftr x n) (Z.shiftl x (32 - n))).
Definition add32 (xs : list Z) : Z := w32 (fold_left Z.add xs 0).
Definition not32 (x : Z) : Z := 2 ^ 32 - 1 - x.

(** The first 64 primes; FIPS 180-4 derives its constants from their square
    and cube roots. *)
Definition primes64 : list Z :=
  [ 2; 3; 5; 7; 11; 13; 17; 19; 23; 29; 31; 37; 41; 43; 47; 53; 59; 61; 67;
    71; 73; 79; 83; 89; 97; 101; 103; 107; 109; 113; 127; 131; 137; 139; 149;
    151; 157; 163; 167; 173; 179; 181; 191; 193; 197; 199; 211; 223; 227; 229;
    233; 239; 241; 251; 257; 263; 269; 271; 277; 281; 283; 293; 307; 311 ].

(** The integer cube root below 2^n, by bisection on its bits. *)
Fixpoint cbrt_bits (n : nat) (x r : Z) : Z :=
  match n with
  | O => r
  | S n' =>
      let c := r + 2 ^ Z.of_nat n' in
      if c * c * c <=? x then cbrt_bits n' x c else cbrt_bits n' x r
  end.

(** The first 32 bits of the fractional part of the cube root of [p]. *)
Definition frac_cbrt (p : Z) : Z := w32 (cbrt_bits 40 (p * 2 ^ 96) 0).

(** The first 32 bits of the fractional part of the square root of [p]. *)
Definition frac_sqrt (p : Z) : Z := w32 (Z.sqrt (p * 2 ^ 64)).

Definition K : list Z := Eval vm_compute in map frac_cbrt primes64.

Record state := mkState { ha : Z; hb : Z; hc : Z; hd : Z; he : Z; hf : Z; hg : Z; hh : Z }.

Definition init : state :=
  Eval vm_compute in
    match map frac_sqrt (firstn 8 primes64) with
    | [a; b; c; d; e; f; g; h] => mkState a b c d e f g h
    | _ => mkState 0 0 0 0 0 0 0 0
    end.

Example K_ends : nth 0 K 0 = 0x428a2f98 /\ nth 63 K 0 = 0xc67178f2.
Proof. split; reflexivity. Qed.

Example init_ends : ha init = 0x6a09e667 /\ hh init = 0x5be0cd19.
Proof. split; reflexivity. Qed.

(** The message followed by the bit 1, zeros up to 56 modulo 64 bytes, and the
    bit length as a 64-bit big-endian integer. *)
Definition pad (msg : list byte) : list byte :=
  let l := length msg in
  let z := ((64 - (l + 9) mod 64) mod 64)%nat in
  msg ++ x80 :: repeat x00 z ++ be_encode 8 (8 * Z.of_nat l).

Fixpoint words (n : nat) (block : list byte) : list Z :=
  match n with
  | O => []
  | S n' => be_decode (firstn 4 block) :: words n' (skipn 4 block)
  end.

(** The message schedule, newest word first. *)
Fixpoint extend (n : nat) (w : list Z) : list Z :=
  match n with
  | O => w
  | S n' =>
      let w2 := nth 1 w 0 in
      let w7 := nth 6 w 0 in
      let w15 := nth 14 w 0 in
      let w16 := nth 15 w 0 in
      let s0 := Z.lxor (Z.lxor (rotr w15 7) (rotr w15 18)) (Z.shiftr w15 3) in
      let s1 := Z.lxor (Z.lxor (rotr w2 17) (rotr w2 19)) (Z.shiftr w2 10) in
      extend n' (add32 [w16; s0; w7; s1] :: w)
  end.

Definition round (s : state) (kw : Z * Z) : state :=
  let '(k, w) := kw in
  let S1 := Z.lxor (Z.lxor (rotr (he s) 6) (rotr (he s) 11)) (rotr (he s) 25) in
  let ch := Z.lxor (Z.land (he s) (hf s)) (Z.land (not32 (he s)) (hg s)) in
  let t1 := add32 [hh s; S1; ch; k; w] in
  let S0 := Z.lxor (Z.lxor (rotr (ha s) 2) (rotr (ha s) 13)) (rotr (ha s) 22) in
  let maj := Z.lxor (Z.lxor (Z.land (ha s) (hb s)) (Z.land (ha s) (hc s)))
                    (Z.land (hb s) (hc s)) in
  let t2 := add32 [S0; maj] in
  mkState (add32 [t1; t2]) (ha s) (hb s) (hc s) (add32 [hd s; t1]) (he s) (hf s) (hg s).

Definition compress (h : state) (block : list byte) : state :=
  let w := rev (extend 48 (rev (words 16 block))) in
  let s := fold_left round (combine K w) h in
  mkState (add32 [ha h; ha s]) (add32 [hb h; hb s]) (add32 [hc h; hc s])
          (add32 [hd h; hd s]) (add32 [he h; he s]) (add32 [hf h; hf s])
          (add32 [hg h; hg s]) (add32 [hh h; hh s]).

Fixpoint blocks (n : nat) (bytes : list byte) (h : state) : state :=
  match n with
  | O => h
  | S n' => blocks n' (skipn 64 bytes) (compress h (firstn 64 bytes))
  end.

Definition Sum256 (data : list byte) : list byte :=
  let p := pad data in
  let h := blocks (length p / 64) p init in
  be_encode 4 (ha h) ++ be_encode 4 (hb h) ++ be_encode 4 (hc h) ++
  be_encode 4 (hd h) ++ be_encode 4 (he h) ++ be_encode 4 (hf h) ++
  be_encode 4 (hg h) ++ be_encode 4 (hh h).

Lemma Sum256_length data : length (Sum256 data) = 32%nat.
Proof.
  unfold Sum256. rewrite !length_app, !be_encode_length. reflexivity.
Qed.

Definition hex_digit (n : Z) : string :=
  String.substring (Z.to_nat n) 1 "0123456789abcdef".

Definition hex (bs : list byte) : string :=
  fold_right (fun b acc => hex_digit (byte_to_Z b / 16) ++ hex_digit (byte_to_Z b mod 16) ++ acc)%string
             EmptyString bs.

(** The standard test vectors. *)
Example Sum256_empty :
  hex (Sum256 []) = "e3b0c44298fc1c149afbf4c8996fb92427ae41e4649b934ca495991b7852b855"%string.
Proof. vm_compute. reflexivity. Qed.

Example Sum256_abc :
  hex (Sum256 (list_byte_of_string "abc"))
  = "ba7816bf8f01cfea414140de5dae2223b00361a396177a9cb410ff61f20015ad"%string.
Proof. vm_compute. reflexivity. Qed.

(** A message of 56 bytes, which takes two blocks. *)
Example Sum256_two_blocks :
  hex (Sum256 (list_byte_of_string
                 "abcdbcdecdefdefgefghfghighijhijkijkljklmklmnlmnomnopnopq"))
  = "248d6a61d20638b8e5c026930c3e6039a33ce45964ff2167f6ecedd419db06c1"%string.
Proof. vm_compute. reflexivity. Qed.

End Sha256.

(** ** The verb [%d] of [fmt] *)

Module Fmt.

Definition digit (d : Z) : ascii := ascii_of_N (Z.to_N (48 + d)).

(** The decimal digits of [n >= 0], most significant first, put in front of
    [acc]; [fuel] bounds their number. *)
Fixpoint digits (fuel : nat) (n : Z) (acc : list ascii) : list ascii :=
  match fuel with
  | O => acc
  | S fuel' =>
      let acc' := digit (n mod 10) :: acc in
      if n <? 10 then acc' else digits fuel' (n / 10) acc'
  end.

(** [fmt.Sprintf("%d", n)] for a 64-bit [n]: at most nineteen digits, after
    a minus sign when [n] is negative. *)
Definition Sprint_d (n : Z) : string :=
  if n <? 0 then String "-" (string_of_list_ascii (digits 20 (- n) []))
  else string_of_list_ascii (digits 20 n []).

(** The double quote. *)
Definition dquote : string := String (ascii_of_nat 34) EmptyString.

Example Sprint_d_values :
  map Sprint_d [0; 7; 80; 1024; -1; -250; 2 ^ 63 - 1; - 2 ^ 63]
  = ["0"; "7"; "80"; "1024"; "-1"; "-250"; "9223372036854775807";
     "-9223372036854775808"]%string.
Proof. vm_compute. reflexivity. Qed.

Lemma digits_length fuel : forall n acc,
  (length (digits fuel n acc) <= fuel + length acc)%nat.
Proof.
  induction fuel as [| fuel IH]; intros n acc; cbn [digits]; [lia |].
  destruct (n <? 10).
  - cbn [length]. lia.
  - specialize (IH (n / 10) (digit (n mod 10) :: acc)). cbn [length] in IH. lia.
Qed.

Lemma string_of_list_ascii_length l :
  String.length (string_of_list_ascii l) = length l.
Proof. induction l as [| c l IH]; cbn; congruence. Qed.

Lemma length_append (a b : string) :
  String.length (a ++ b) = (String.length a + String.length b)%nat.
Proof. induction a as [| c a IH]; cbn; congruence. Qed.

Lemma Sprint_d_length n : (String.length (Sprint_d n) <= 21)%nat.
Proof.
  unfold Sprint_d. destruct (n <? 0); cbn [String.length];
    rewrite string_of_list_ascii_length.
  - pose proof (digits_length 20 (- n) []) as H. cbn [length] in H. lia.
  - pose proof (digits_length 20 n []) as H. cbn [length] in H. lia.
Qed.

End Fmt.

(** ** The binary message codec ([internal/terminal], protocol file) *)

Module Terminal.
Import Bytes GoInt.

Definition HeaderLength : nat := 120.
Definition MessageTypeLength : nat := 32.
Definition MessageIDLength : nat := 16.
Definition PayloadDigestLength : nat := 32.
Definition SchemaVersion : Z := 1.

Definition MessageTypeOutputStream : string := "output_stream_data".

Definition PayloadTypeOutput : Z := 1.
Definition PayloadTypeError : Z := 2.
Definition PayloadTypeSize : Z := 3.
Definition PayloadTypeParameter : Z := 4.
Definition PayloadTypeHandshakeRequest : Z := 5.
Definition PayloadTypeHandshakeResp : Z := 6.
Definition PayloadTypeHandshakeComplete : Z := 7.
Definition PayloadTypeExitCode : Z := 12.

(** The struct [AgentMessage]; its fields live in a module of their own
    because [HeaderLength] and [SchemaVersion] also name constants. *)
Module AgentMessage.
Record t : Type := mk {
  HeaderLength : Z;
  MessageType : string;
  SchemaVersion : Z;
  CreatedDate : Z;
  SequenceNumber : Z;
  Flags : Z;
  MessageID : list byte;
  PayloadDigest : list byte;
  PayloadType : Z;
  PayloadLength : Z;
  Payload : list byte
}.
End AgentMessage.

(** [data[a:b]] *)
Definition slice (a b : nat) (data : list byte) : list byte :=
  firstn (b - a) (skipn a data).

(** The bytes before the first null byte. *)
Fixpoint until_null (b : list byte) : list byte :=
  match b with
  | [] => []
  | c :: rest => if Byte.eqb c x00 then [] else c :: until_null rest
  end.

Definition trimNullBytes (b : list byte) : string :=
  string_of_list_byte (until_null b).

Definition ParseMessage (data : list byte) : result AgentMessage.t :=
  if (length data <? HeaderLength)%nat then Err (ErrNew "message too short")
  else
    let offset := 0%nat in
    let headerLength := Uint32 (skipn offset data) in
    let offset := (offset + 4)%nat in
    let msgTypeBytes := slice offset (offset + MessageTypeLength) data in
    let messageType := trimNullBytes msgTypeBytes in
    let offset := (offset + MessageTypeLength)%nat in
    let schemaVersion := Uint32 (skipn offset data) in
    let offset := (offset + 4)%nat in
    let createdDate := int64 (Uint64 (skipn offset data)) in
    let offset := (offset + 8)%nat in
    let sequenceNumber := int64 (Uint64 (skipn offset data)) in
    let offset := (offset + 8)%nat in
    let flags := int64 (Uint64 (skipn offset data)) in
    let offset := (offset + 8)%nat in
    let messageID := copy_into 0 MessageIDLength
                       (slice offset (offset + MessageIDLength) data)
                       (make MessageIDLength) in
    let offset := (offset + MessageIDLength)%nat in
    let payloadDigest := copy_into 0 PayloadDigestLength
                           (slice offset (offset + PayloadDigestLength) data)
                           (make PayloadDigestLength) in
    let offset := (offset + PayloadDigestLength)%nat in
    let payloadType := Uint32 (skipn offset data) in
    let offset := (offset + 4)%nat in
    let payloadLength := Uint32 (skipn offset data) in
    let offset := (offset + 4)%nat in
    let payload :=
      if Z.of_nat offset + payloadLength <=? Z.of_nat (length data) then
        let n := Z.to_nat payloadLength in
        copy_into 0 n (slice offset (offset + n) data) (make n)
      else [] in
    Ok (AgentMessage.mk headerLength messageType schemaVersion createdDate
          sequenceNumber flags messageID payloadDigest payloadType
          payloadLength payload).

Definition IsOutput (m : AgentMessage.t) : bool :=
  AgentMessage.PayloadType m =? PayloadTypeOutput.
Definition IsHandshakeComplete (m : AgentMessage.t) : bool :=
  AgentMessage.PayloadType m =? PayloadTypeHandshakeComplete.
Definition IsExitCode (m : AgentMessage.t) : bool :=
  AgentMessage.PayloadType m =? PayloadTypeExitCode.

(** [PutUint32(buf[offset:], v)] and [PutUint64(buf[offset:], v)]. *)
Definition put_at (offset : nat) (bs buf : list byte) : list byte :=
  copy_into offset (offset + length bs) bs buf.

(** [BuildMessage].  Besides its four Go arguments it takes what the Go body
    reads from the environment: [now] is [time.Now().UnixMilli()] and [rnd]
    the bytes delivered by [rand.Read] (whose error is discarded, so fewer
    than sixteen bytes leave the rest of the field zero). *)
Definition BuildMessage (messageType : string) (payloadType : Z)
    (payload : list byte) (sequenceNumber : Z) (now : Z) (rnd : list byte)
    : list byte :=
  let buf := make (HeaderLength + length payload) in
  let offset := 0%nat in
  let buf := put_at offset (PutUint32 (uint32 (Z.of_nat HeaderLength))) buf in
  let offset := (offset + 4)%nat in
  let buf := copy_into offset (offset + MessageTypeLength)
               (list_byte_of_string messageType) buf in
  let offset := (offset + MessageTypeLength)%nat in
  let buf := put_at offset (PutUint32 (uint32 SchemaVersion)) buf in
  let offset := (offset + 4)%nat in
  let buf := put_at offset (PutUint64 (uint64 now)) buf in
  let offset := (offset + 8)%nat in
  let buf := put_at offset (PutUint64 (uint64 sequenceNumber)) buf in
  let offset := (offset + 8)%nat in
  let buf := put_at offset (PutUint64 0) buf in
  let offset := (offset + 8)%nat in
  let buf := copy_into offset (offset + MessageIDLength) rnd buf in
  let offset := (offset + MessageIDLength)%nat in
  let digest := Sha256.Sum256 payload in
  let buf := copy_into offset (offset + PayloadDigestLength) digest buf in
  let offset := (offset + PayloadDigestLength)%nat in
  let buf := put_at offset (PutUint32 (uint32 payloadType)) buf in
  let offset := (offset + 4)%nat in
  let buf := put_at offset (PutUint32 (uint32 (Z.of_nat (length payload)))) buf in
  let offset := (offset + 4)%nat in
  copy_into offset (length buf) payload buf.

Definition BuildInputMessage (input : list byte) (sequenceNumber now : Z)
    (rnd : list byte) : list byte :=
  BuildMessage MessageTypeOutputStream PayloadTypeOutput input sequenceNumber now rnd.

(** The text [fmt.Sprintf] makes of the format of [BuildResizeMessage], a
    JSON object with the members [cols] and [rows]. *)
Definition resize_payload (cols rows : Z) : string :=
  ("{" ++ Fmt.dquote ++ "cols" ++ Fmt.dquote ++ ":" ++ Fmt.Sprint_d cols ++
   "," ++ Fmt.dquote ++ "rows" ++ Fmt.dquote ++ ":" ++ Fmt.Sprint_d rows ++
   "}")%string.

Definition BuildResizeMessage (cols rows sequenceNumber now : Z)
    (rnd : list byte) : list byte :=
  let payload := list_byte_of_string (resize_payload cols rows) in
  BuildMessage MessageTypeOutputStream PayloadTypeSize payload sequenceNumber
    now rnd.

Example resize_payload_80_24 :
  map byte_to_Z (list_byte_of_string (resize_payload 80 24))
  = [123; 34; 99; 111; 108; 115; 34; 58; 56; 48; 44;
     34; 114; 111; 119; 115; 34; 58; 50; 52; 125].
Proof. vm_compute. reflexivity. Qed.

(** A frame built and parsed back, on small inputs. *)
Example build_parse_hi :
  let frame := BuildMessage MessageTypeOutputStream PayloadTypeOutput
                 (list_byte_of_string "hi") 7 1700000000000 [] in
  length frame = 122%nat /\
  match ParseMessage frame with
  | Ok m => AgentMessage.MessageType m = "output_stream_data"%string
            /\ AgentMessage.SequenceNumber m = 7
            /\ AgentMessage.PayloadType m = 1
            /\ AgentMessage.HeaderLength m = 120
            /\ AgentMessage.CreatedDate m = 1700000000000
            /\ AgentMessage.Payload m = list_byte_of_string "hi"
  | Err _ => False
  end.
Proof. vm_compute. repeat split. Qed.

Example parse_short : is_err (ParseMessage (make 119)) = true.
Proof. reflexivity. Qed.

(** *** The layout of a built frame *)

(** The 120 header bytes [BuildMessage] produces, field after field. *)
Definition header (messageType : string) (payloadType : Z)
    (payload : list byte) (sequenceNumber now : Z) (rnd : list byte)
    : list byte :=
  PutUint32 (uint32 (Z.of_nat HeaderLength)) ++
  padded MessageTypeLength (list_byte_of_string messageType) ++
  PutUint32 (uint32 SchemaVersion) ++
  PutUint64 (uint64 now) ++
  PutUint64 (uint64 sequenceNumber) ++
  PutUint64 0 ++
  padded MessageIDLength rnd ++
  padded PayloadDigestLength (Sha256.Sum256 payload) ++
  PutUint32 (uint32 payloadType) ++
  PutUint32 (uint32 (Z.of_nat (length payload))).

Lemma copy_into_field pre src a b k m :
  length pre = a -> (a <= b)%nat -> (b - a <= k)%nat ->
  copy_into a b src (pre ++ make (k + m))
  = (pre ++ padded (b - a) src) ++ make ((k - (b - a)) + m).
Proof.
  intros La Hab Hk.
  replace b with (a + (b - a))%nat at 1 by lia.
  rewrite copy_into_zeros by lia.
  f_equal. f_equal. lia.
Qed.

Lemma put_at_field pre bs a k m :
  length pre = a -> (length bs <= k)%nat ->
  put_at a bs (pre ++ make (k + m))
  = (pre ++ bs) ++ make ((k - length bs) + m).
Proof.
  intros La Hk. unfold put_at.
  rewrite copy_into_field by lia.
  replace (a + length bs - a)%nat with (length bs) by lia.
  rewrite padded_exact by reflexivity. reflexivity.
Qed.

Lemma copy_into_tail h payload a :
  length h = a ->
  copy_into a (length (h ++ make (length payload))) payload
    (h ++ make (length payload))
  = h ++ payload.
Proof.
  intros La. unfold copy_into, make.
  rewrite length_app, repeat_length, La.
  replace (a + length payload - a)%nat with (length payload) by lia.
  rewrite firstn_all.
  rewrite firstn_app, La, Nat.sub_diag, firstn_O, app_nil_r.
  rewrite firstn_all2 by lia.
  rewrite skipn_all2 by (rewrite length_app, repeat_length; lia).
  rewrite app_nil_r. reflexivity.
Qed.

Lemma PutUint32_length v : length (PutUint32 v) = 4%nat.
Proof. apply be_encode_length. Qed.

Lemma PutUint64_length v : length (PutUint64 v) = 8%nat.
Proof. apply be_encode_length. Qed.

Create Rewrite HintDb frame_len.
#[export] Hint Rewrite length_app PutUint32_length PutUint64_length
  padded_length Sha256.Sum256_length : frame_len.

Ltac frame_len := autorewrite with frame_len; cbn [length Nat.add]; try lia.

Lemma header_length mt pt payload seq now rnd :
  length (header mt pt payload seq now rnd) = HeaderLength.
Proof. unfold header. frame_len. reflexivity. Qed.

Theorem BuildMessage_layout mt pt payload seq now rnd :
  BuildMessage mt pt payload seq now rnd
  = header mt pt payload seq now rnd ++ payload.
Proof.
  unfold BuildMessage, header, HeaderLength, MessageTypeLength,
    MessageIDLength, PayloadDigestLength.
  remember (120 + length payload)%nat as total eqn:Etotal.
  cbn [Nat.add]. subst total.
  change (make (120 + length payload)) with ([] ++ make (120 + length payload)).
  rewrite (put_at_field [] _ 0 120) by (frame_len; reflexivity).
  rewrite PutUint32_length. cbn [Nat.sub app].
  rewrite (copy_into_field _ _ 4 36 116) by frame_len.
  cbn [Nat.sub].
  rewrite (put_at_field _ _ 36 84) by frame_len.
  rewrite PutUint32_length. cbn [Nat.sub].
  rewrite (put_at_field _ _ 40 80) by frame_len.
  rewrite PutUint64_length. cbn [Nat.sub].
  rewrite (put_at_field _ _ 48 72) by frame_len.
  rewrite PutUint64_length. cbn [Nat.sub].
  rewrite (put_at_field _ _ 56 64) by frame_len.
  rewrite PutUint64_length. cbn [Nat.sub].
  rewrite (copy_into_field _ _ 64 80 56) by frame_len.
  cbn [Nat.sub].
  rewrite (copy_into_field _ _ 80 112 40) by frame_len.
  cbn [Nat.sub].
  rewrite (put_at_field _ _ 112 8) by frame_len.
  rewrite PutUint32_length. cbn [Nat.sub].
  rewrite (put_at_field _ _ 116 4) by frame_len.
  rewrite PutUint32_length. cbn [Nat.sub Nat.add].
  rewrite copy_into_tail by frame_len.
  rewrite <- !app_assoc. reflexivity.
Qed.

(** *** Parsing a frame given field by field *)

Lemma skipn_app_exact {A} (a b : list A) n :
  length a = n -> skipn n (a ++ b) = b.
Proof.
  intros <-. rewrite skipn_app, skipn_all, Nat.sub_diag. reflexivity.
Qed.

Lemma firstn_app_exact {A} (a b : list A) n :
  length a = n -> firstn n (a ++ b) = a.
Proof.
  intros <-. rewrite firstn_app, firstn_all, Nat.sub_diag, firstn_O.
  apply app_nil_r.
Qed.

Lemma slice_add a n data : slice a (a + n) data = firstn n (skipn a data).
Proof. unfold slice. f_equal. lia. Qed.

Lemma copy_into_fresh n src :
  length src = n -> copy_into 0 n src (make n) = src.
Proof.
  intros L. unfold copy_into, make. rewrite Nat.sub_0_r.
  cbn [firstn app Nat.add].
  rewrite (firstn_all2 src) by lia.
  rewrite skipn_all2 by (rewrite repeat_length; lia).
  apply app_nil_r.
Qed.

Lemma Uint32_field f rest : length f = 4%nat -> Uint32 (f ++ rest) = be_decode f.
Proof. intros L. unfold Uint32. rewrite firstn_app_exact by exact L. reflexivity. Qed.

Lemma Uint64_field f rest : length f = 8%nat -> Uint64 (f ++ rest) = be_decode f.
Proof. intros L. unfold Uint64. rewrite firstn_app_exact by exact L. reflexivity. Qed.

(** What [ParseMessage] extracts from a buffer of at least 120 bytes: every
    field is read at its fixed offset, nothing is compared with anything. *)
Definition parsed (fLen fType fVer fDate fSeq fFlags fID fDigest fPType fPLen
    rest : list byte) : AgentMessage.t :=
  AgentMessage.mk (be_decode fLen) (trimNullBytes fType) (be_decode fVer)
    (int64 (be_decode fDate)) (int64 (be_decode fSeq)) (int64 (be_decode fFlags))
    fID fDigest (be_decode fPType) (be_decode fPLen)
    (if be_decode fPLen <=? Z.of_nat (length rest)
     then firstn (Z.to_nat (be_decode fPLen)) rest else []).

Lemma be_decode_nonneg bs : 0 <= be_decode bs.
Proof.
  unfold be_decode.
  assert (G : forall a, 0 <= a ->
            0 <= fold_left (fun acc b => acc * 256 + byte_to_Z b) bs a).
  { induction bs as [| b bs IH]; intros a Ha; cbn [fold_left]; [exact Ha |].
    apply IH. pose proof (byte_to_Z_range b). lia. }
  apply G. lia.
Qed.

Theorem ParseMessage_fields
    fLen fType fVer fDate fSeq fFlags fID fDigest fPType fPLen rest :
  length fLen = 4%nat -> length fType = 32%nat -> length fVer = 4%nat ->
  length fDate = 8%nat -> length fSeq = 8%nat -> length fFlags = 8%nat ->
  length fID = 16%nat -> length fDigest = 32%nat ->
  length fPType = 4%nat -> length fPLen = 4%nat ->
  ParseMessage (fLen ++ fType ++ fVer ++ fDate ++ fSeq ++ fFlags ++ fID ++
                fDigest ++ fPType ++ fPLen ++ rest)
  = Ok (parsed fLen fType fVer fDate fSeq fFlags fID fDigest fPType fPLen rest).
Proof.
  intros L1 L2 L3 L4 L5 L6 L7 L8 L9 L10.
  set (D := fLen ++ _).
  assert (LD : length D = (120 + length rest)%nat).
  { unfold D. rewrite !length_app, L1, L2, L3, L4, L5, L6, L7, L8, L9, L10. lia. }
  assert (S4 : skipn 4 D = fType ++ fVer ++ fDate ++ fSeq ++ fFlags ++ fID ++
                           fDigest ++ fPType ++ fPLen ++ rest)
    by (apply skipn_app_exact; exact L1).
  assert (S36 : skipn 36 D = fVer ++ fDate ++ fSeq ++ fFlags ++ fID ++
                             fDigest ++ fPType ++ fPLen ++ rest).
  { change 36%nat with (32 + 4)%nat. rewrite <- skipn_skipn, S4.
    apply skipn_app_exact; exact L2. }
  assert (S40 : skipn 40 D = fDate ++ fSeq ++ fFlags ++ fID ++
                             fDigest ++ fPType ++ fPLen ++ rest).
  { change 40%nat with (4 + 36)%nat. rewrite <- skipn_skipn, S36.
    apply skipn_app_exact; exact L3. }
  assert (S48 : skipn 48 D = fSeq ++ fFlags ++ fID ++
                             fDigest ++ fPType ++ fPLen ++ rest).
  { change 48%nat with (8 + 40)%nat. rewrite <- skipn_skipn, S40.
    apply skipn_app_exact; exact L4. }
  assert (S56 : skipn 56 D = fFlags ++ fID ++ fDigest ++ fPType ++ fPLen ++ rest).
  { change 56%nat with (8 + 48)%nat. rewrite <- skipn_skipn, S48.
    apply skipn_app_exact; exact L5. }
  assert (S64 : skipn 64 D = fID ++ fDigest ++ fPType ++ fPLen ++ rest).
  { change 64%nat with (8 + 56)%nat. rewrite <- skipn_skipn, S56.
    apply skipn_app_exact; exact L6. }
  assert (S80 : skipn 80 D = fDigest ++ fPType ++ fPLen ++ rest).
  { change 80%nat with (16 + 64)%nat. rewrite <- skipn_skipn, S64.
    apply skipn_app_exact; exact L7. }
  assert (S112 : skipn 112 D = fPType ++ fPLen ++ rest).
  { change 112%nat with (32 + 80)%nat. rewrite <- skipn_skipn, S80.
    apply skipn_app_exact; exact L8. }
  assert (S116 : skipn 116 D = fPLen ++ rest).
  { change 116%nat with (4 + 112)%nat. rewrite <- skipn_skipn, S112.
    apply skipn_app_exact; exact L9. }
  assert (S120 : skipn 120 D = rest).
  { change 120%nat with (4 + 116)%nat. rewrite <- skipn_skipn, S116.
    apply skipn_app_exact; exact L10. }
  unfold ParseMessage. cbv zeta. rewrite !slice_add.
  unfold HeaderLength, MessageTypeLength, MessageIDLength, PayloadDigestLength.
  cbn [Nat.add].
  replace (length D <? 120)%nat with false
    by (symmetry; apply Nat.ltb_ge; lia).
  rewrite S4, S36, S40, S48, S56, S64, S80, S112, S116, S120.
  change (skipn 0 D) with D. unfold D at 1.
  rewrite !Uint32_field, !Uint64_field by assumption.
  rewrite (firstn_app_exact fType) by exact L2.
  rewrite (firstn_app_exact fID) by exact L7.
  rewrite (firstn_app_exact fDigest) by exact L8.
  rewrite !copy_into_fresh by assumption.
  unfold parsed. f_equal. f_equal.
  rewrite LD. pose proof (be_decode_nonneg fPLen) as Hn.
  destruct (Z.leb_spec (be_decode fPLen) (Z.of_nat (length rest))) as [Hle | Hgt].
  - replace (Z.of_nat 120 + be_decode fPLen <=? Z.of_nat (120 + length rest))
      with true by (symmetry; apply Z.leb_le; lia).
    apply copy_into_fresh. rewrite length_firstn. lia.
  - replace (Z.of_nat 120 + be_decode fPLen <=? Z.of_nat (120 + length rest))
      with false by (symmetry; apply Z.leb_gt; lia).
    reflexivity.
Qed.

(** *** Building, then parsing *)

Theorem ParseMessage_BuildMessage mt pt payload seq now rnd :
  ParseMessage (BuildMessage mt pt payload seq now rnd)
  = Ok (parsed (PutUint32 (uint32 (Z.of_nat HeaderLength)))
          (padded MessageTypeLength (list_byte_of_string mt))
          (PutUint32 (uint32 SchemaVersion))
          (PutUint64 (uint64 now))
          (PutUint64 (uint64 seq))
          (PutUint64 0)
          (padded MessageIDLength rnd)
          (padded PayloadDigestLength (Sha256.Sum256 payload))
          (PutUint32 (uint32 pt))
          (PutUint32 (uint32 (Z.of_nat (length payload))))
          payload).
Proof.
  rewrite BuildMessage_layout. unfold header. rewrite <- !app_assoc.
  apply ParseMessage_fields; frame_len; reflexivity.
Qed.

Lemma be_decode_PutUint32 v : be_decode (PutUint32 v) = uint32 v.
Proof. unfold PutUint32. rewrite be_decode_encode. reflexivity. Qed.

Lemma be_decode_PutUint64 v : be_decode (PutUint64 v) = uint64 v.
Proof. unfold PutUint64. rewrite be_decode_encode. reflexivity. Qed.

Lemma uint32_idem v : uint32 (uint32 v) = uint32 v.
Proof. unfold uint32. apply Z.mod_mod. lia. Qed.

Lemma uint64_idem v : uint64 (uint64 v) = uint64 v.
Proof. unfold uint64. apply Z.mod_mod. lia. Qed.

(** The payload [ParseMessage] returns for a built frame: the first
    [len mod 2^32] bytes of what was given to [BuildMessage]. *)
Lemma parsed_payload_of_built (payload : list byte) :
  let n := uint32 (Z.of_nat (length payload)) in
  (if n <=? Z.of_nat (length payload) then firstn (Z.to_nat n) payload else [])
  = firstn (Z.to_nat n) payload.
Proof.
  cbv zeta. unfold uint32.
  assert (0 <= Z.of_nat (length payload) mod 2 ^ 32 <= Z.of_nat (length payload)).
  { split; [apply Z.mod_pos_bound; lia | apply Z.mod_le; lia]. }
  destruct (Z.leb_spec (Z.of_nat (length payload) mod 2 ^ 32)
              (Z.of_nat (length payload))); [reflexivity | lia].
Qed.

(** *** Null bytes and the message-type field *)

Definition no_null (b : list byte) : Prop := ~ In x00 b.

Lemma until_null_no_null b : no_null (until_null b).
Proof.
  unfold no_null. induction b as [| c b IH]; cbn [until_null]; [tauto |].
  destruct (Byte.eqb c x00) eqn:E; [cbn; tauto |].
  intros [H | H]; [| exact (IH H)].
  subst c. cbn in E. discriminate.
Qed.

Lemma until_null_length b : (length (until_null b) <= length b)%nat.
Proof.
  induction b as [| c b IH]; cbn [until_null]; [lia |].
  destruct (Byte.eqb c x00); cbn [length]; lia.
Qed.

Lemma until_null_id b : no_null b -> until_null b = b.
Proof.
  unfold no_null. induction b as [| c b IH]; intros H; cbn [until_null]; [reflexivity |].
  destruct (Byte.eqb c x00) eqn:E.
  - exfalso. apply H. left. symmetry. apply Byte.byte_dec_bl. exact E.
  - f_equal. apply IH. intros Hin. apply H. right. exact Hin.
Qed.

Lemma until_null_zeros b k : until_null (b ++ repeat x00 k) = until_null b.
Proof.
  induction b as [| c b IH]; cbn [until_null app].
  - destruct k; reflexivity.
  - destruct (Byte.eqb c x00); [reflexivity | f_equal; exact IH].
Qed.

Lemma until_null_padded w b : until_null (padded w b) = until_null (firstn w b).
Proof. unfold padded. apply until_null_zeros. Qed.

(** The field survives trimming exactly when nothing was cut and nothing is
    null. *)
Lemma until_null_padded_id w b :
  until_null (padded w b) = b <-> (length b <= w)%nat /\ no_null b.
Proof.
  rewrite until_null_padded. split.
  - intros E. split.
    + rewrite <- E at 1.
      pose proof (until_null_length (firstn w b)) as L.
      rewrite length_firstn in L. lia.
    + rewrite <- E. apply until_null_no_null.
  - intros [L N]. rewrite firstn_all2 by exact L. apply until_null_id, N.
Qed.

Lemma list_byte_of_string_length s :
  length (list_byte_of_string s) = String.length s.
Proof.
  unfold list_byte_of_string. rewrite length_map.
  induction s as [| c s IH]; cbn; congruence.
Qed.

Lemma trimNullBytes_padded_id w (s : string) :
  trimNullBytes (padded w (list_byte_of_string s)) = s
  <-> (String.length s <= w)%nat /\ no_null (list_byte_of_string s).
Proof.
  unfold trimNullBytes. rewrite <- list_byte_of_string_length.
  rewrite <- until_null_padded_id. split.
  - intros E. apply (f_equal list_byte_of_string) in E.
    rewrite list_byte_of_string_of_list_byte in E. exact E.
  - intros E. rewrite E. apply string_of_list_byte_of_string.
Qed.

(** *** Overwriting the digest field of a frame *)

Lemma copy_into_middle pre old new post a b :
  length pre = a -> length old = (b - a)%nat -> length new = (b - a)%nat ->
  copy_into a b new (pre ++ old ++ post) = pre ++ new ++ post.
Proof.
  intros La Lo Ln. unfold copy_into.
  rewrite (firstn_all2 new) by lia.
  rewrite firstn_app_exact by exact La.
  replace (a + length new)%nat with (length (pre ++ old))
    by (rewrite length_app; lia).
  rewrite (app_assoc pre old post).
  rewrite skipn_app_exact by reflexivity. reflexivity.
Qed.

(** The 80 bytes in front of the digest field, and a built frame split
    around that field. *)
Definition before_digest (messageType : string) (sequenceNumber now : Z)
    (rnd : list byte) : list byte :=
  PutUint32 (uint32 (Z.of_nat HeaderLength)) ++
  padded MessageTypeLength (list_byte_of_string messageType) ++
  PutUint32 (uint32 SchemaVersion) ++
  PutUint64 (uint64 now) ++
  PutUint64 (uint64 sequenceNumber) ++
  PutUint64 0 ++
  padded MessageIDLength rnd.

Lemma before_digest_length mt seq now rnd :
  length (before_digest mt seq now rnd) = 80%nat.
Proof. unfold before_digest. frame_len. reflexivity. Qed.

Lemma BuildMessage_around_digest mt pt payload seq now rnd :
  BuildMessage mt pt payload seq now rnd
  = before_digest mt seq now rnd ++
    padded PayloadDigestLength (Sha256.Sum256 payload) ++
    (PutUint32 (uint32 pt) ++
     PutUint32 (uint32 (Z.of_nat (length payload))) ++ payload).
Proof.
  rewrite BuildMessage_layout. unfold header, before_digest.
  rewrite <- !app_assoc. reflexivity.
Qed.

(** Field projections of a parse result. *)
Definition field {A} (f : AgentMessage.t -> A) (r : result AgentMessage.t)
    : option A :=
  match r with Ok m => Some (f m) | Err _ => None end.

(** *** Lengths *)

Lemma BuildMessage_length mt pt payload seq now rnd :
  length (BuildMessage mt pt payload seq now rnd)
  = (HeaderLength + length payload)%nat.
Proof.
  rewrite BuildMessage_layout, length_app, header_length. reflexivity.
Qed.

Lemma resize_payload_length cols rows :
  (String.length (resize_payload cols rows) <= 59)%nat.
Proof.
  unfold resize_payload. rewrite !Fmt.length_append.
  pose proof (Fmt.Sprint_d_length cols). pose proof (Fmt.Sprint_d_length rows).
  cbn [String.length Fmt.dquote]. lia.
Qed.

(** The payload of a frame whose length field fits 32 bits comes back
    whole. *)
Lemma parsed_payload_whole (payload : list byte) :
  Z.of_nat (length payload) < 2 ^ 32 ->
  (if be_decode (PutUint32 (uint32 (Z.of_nat (length payload))))
      <=? Z.of_nat (length payload)
   then firstn (Z.to_nat (be_decode (PutUint32 (uint32 (Z.of_nat (length payload))))))
          payload
   else [])
  = payload.
Proof.
  intros H. rewrite be_decode_PutUint32, uint32_idem.
  rewrite (parsed_payload_of_built payload).
  rewrite uint32_small by (unfold in_uint32; lia).
  rewrite Nat2Z.id. apply firstn_all.
Qed.

End Terminal.

(** ** [float64] *)

Module Float64.

Definition float64 : Type := spec_float.
Definition prec : Z := 53.
Definition emax : Z := 1024.

(** [float64(i)] for an integer [i]: the nearest double, ties to even. *)
Definition of_int (i : Z) : float64 := binary_normalize prec emax i 0 false.

Definition mul : float64 -> float64 -> float64 := SFmul prec emax.
Definition div : float64 -> float64 -> float64 := SFdiv prec emax.
Definition add : float64 -> float64 -> float64 := SFadd prec emax.

(** [x < y], [x <= y], [x > y]; all false when an operand is NaN. *)
Definition lt (x y : float64) : bool := SFltb x y.
Definition le (x y : float64) : bool := SFleb x y.
Definition gt (x y : float64) : bool := SFltb y x.

(** The integer part of a float, rounding toward zero; [None] for NaN and
    the infinities. *)
Definition trunc (x : float64) : option Z :=
  match x with
  | S754_zero _ => Some 0
  | S754_finite s m e =>
      let a := if 0 <=? e then Zpos m * 2 ^ e else Zpos m / 2 ^ (- e) in
      Some (if s then - a else a)
  | S754_infinity _ | S754_nan => None
  end.

(** [int64(x)].  Go leaves the result implementation-dependent when the
    value is not representable; amd64 and arm64 differ, and the model takes
    amd64's answer, the most negative integer. *)
Definition to_int64 (x : float64) : Z :=
  match trunc x with
  | Some z => if (- 2 ^ 63 <=? z) && (z <? 2 ^ 63) then z else - 2 ^ 63
  | None => - 2 ^ 63
  end.

(** The double nearest to the rational [num / den] ([num >= 0], [den > 0]),
    ties to even. *)
Definition of_ratio (neg : bool) (num den : Z) : float64 :=
  if num =? 0 then S754_zero neg
  else
    let '(q, e, l) := SFdiv_core_binary prec emax num 0 den 0 in
    binary_round_aux prec emax neg q e l.

(** The double nearest to [m * 2^e]. *)
Definition of_scaled (neg : bool) (m e : Z) : float64 :=
  binary_normalize prec emax (if neg then - m else m) e neg.

Definition is_inf (x : float64) : bool :=
  match x with S754_infinity _ => true | _ => false end.

Example of_int_1024 : of_int 1024 = S754_finite false (2 ^ 52) (-42).
Proof. reflexivity. Qed.

Example one_tenth : of_ratio false 1 10 = S754_finite false 0x1999999999999a (-56).
Proof. reflexivity. Qed.

Example to_int64_1_5M :
  to_int64 (mul (of_ratio false 15 10) (of_int (1024 * 1024))) = 1572864.
Proof. reflexivity. Qed.

End Float64.

(** ** [strings] and [strconv.ParseFloat] *)

Module GoStrings.

(** ASCII codes of the bytes of a string. *)
Definition codes (s : string) : list Z :=
  map (fun a => Z.of_N (N_of_ascii a)) (list_ascii_of_string s).

Definition code (c : ascii) : Z := Z.of_N (N_of_ascii c).

Definition chars (s : string) : list ascii := list_ascii_of_string s.

(** Strings every byte of which satisfies a test. *)
Definition all_chars (f : ascii -> bool) (s : string) : bool :=
  forallb f (chars s).

(** The strings of bytes below [utf8.RuneSelf]. *)
Definition isASCII (s : string) : bool := all_chars (fun c => code c <? 128) s.

(** *** UTF-8, as [strings] reads it *)

Definition between (lo hi : Z) (c : ascii) : bool :=
  (lo <=? code c) && (code c <=? hi).

(** The second byte of an encoding of three or of four bytes, whose range
    depends on the first (no overlong forms, no surrogates, nothing above
    U+10FFFF). *)
Definition second_of_three (c1 c2 : ascii) : bool :=
  if code c1 =? 224 then between 160 191 c2
  else if code c1 =? 237 then between 128 159 c2
  else between 128 191 c2.

Definition second_of_four (c1 c2 : ascii) : bool :=
  if code c1 =? 240 then between 144 191 c2
  else if code c1 =? 244 then between 128 143 c2
  else between 128 191 c2.

(** The number of bytes of the rune encoded at the head of [l]; 0 when the
    first byte starts no valid encoding, which [utf8.DecodeRuneInString]
    reads as [RuneError] of width 1. *)
Definition rune_len (l : list ascii) : nat :=
  match l with
  | [] => O
  | c1 :: r =>
      if code c1 <? 128 then 1%nat
      else
        match r with
        | [] => O
        | c2 :: r2 =>
            if between 194 223 c1 then
              (if between 128 191 c2 then 2%nat else O)
            else
              match r2 with
              | [] => O
              | c3 :: r3 =>
                  if between 224 239 c1 then
                    (if second_of_three c1 c2 && between 128 191 c3
                     then 3%nat else O)
                  else
                    match r3 with
                    | [] => O
                    | c4 :: _ =>
                        if between 240 244 c1 && second_of_four c1 c2
                           && between 128 191 c3 && between 128 191 c4
                        then 4%nat else O
                    end
              end
        end
  end.

(** U+FFFD, [utf8.RuneError], in UTF-8. *)
Definition replacement : list ascii :=
  [ascii_of_nat 239; ascii_of_nat 191; ascii_of_nat 189].

(** The white space above U+007F ([unicode.IsSpace], and [isSpace] of
    package [fmt]) in UTF-8: U+0085 and U+00A0 take two bytes; U+1680,
    U+2000 to U+200A, U+2028, U+2029, U+202F, U+205F and U+3000 take
    three. *)
Definition wide_space2 (c1 c2 : ascii) : bool :=
  (code c1 =? 194) && ((code c2 =? 133) || (code c2 =? 160)).

Definition wide_space3 (c1 c2 c3 : ascii) : bool :=
  ((code c1 =? 225) && (code c2 =? 154) && (code c3 =? 128))
  || ((code c1 =? 226) && (code c2 =? 128)
      && (((128 <=? code c3) && (code c3 <=? 138))
          || (code c3 =? 168) || (code c3 =? 169) || (code c3 =? 175)))
  || ((code c1 =? 226) && (code c2 =? 129) && (code c3 =? 159))
  || ((code c1 =? 227) && (code c2 =? 128) && (code c3 =? 128)).

(** *** [strings.ToUpper] *)

(** On a string of ASCII bytes the letters a..z are mapped to A..Z and every
    other byte is kept. *)
Definition upper_ascii (c : ascii) : ascii :=
  if (97 <=? code c) && (code c <=? 122)
  then ascii_of_N (Z.to_N (code c - 32)) else c.

Fixpoint upper_bytes (s : string) : string :=
  match s with
  | EmptyString => EmptyString
  | String c r => String (upper_ascii c) (upper_bytes r)
  end.

(** [unicode.ToUpper] on a rune of two bytes.  Of the case tables the model
    holds the two entries that lead into ASCII, dotless i (U+0131) to I and
    long s (U+017F) to S; every other rune above U+007F is kept, which is
    what the library does for a rune without an upper case, and leaves out
    the mapping of the letters whose upper case is itself above U+007F. *)
Definition upper_rune (c1 c2 : ascii) : list ascii :=
  if (code c1 =? 196) && (code c2 =? 177) then ["I"%char]
  else if (code c1 =? 197) && (code c2 =? 191) then ["S"%char]
  else [c1; c2].

(** Any other string goes rune by rune through [strings.Map]; a byte that
    starts no rune is written as U+FFFD. *)
Fixpoint upper_runes (l : list ascii) : list ascii :=
  match l with
  | [] => []
  | c1 :: r =>
      match rune_len l, r with
      | 1%nat, _ => upper_ascii c1 :: upper_runes r
      | 2%nat, c2 :: r2 => upper_rune c1 c2 ++ upper_runes r2
      | 3%nat, c2 :: c3 :: r3 => c1 :: c2 :: c3 :: upper_runes r3
      | 4%nat, c2 :: c3 :: c4 :: r4 => c1 :: c2 :: c3 :: c4 :: upper_runes r4
      | _, _ => replacement ++ upper_runes r
      end
  end.

Definition ToUpper (s : string) : string :=
  if isASCII s then upper_bytes s
  else string_of_list_ascii (upper_runes (chars s)).

(** *** [strings.TrimSpace] *)

(** [asciiSpace], the white space below 128. *)
Definition is_space (c : ascii) : bool :=
  ((9 <=? code c) && (code c <=? 13)) || (code c =? 32).

(** The white space at the front is dropped rune by rune. *)
Fixpoint trim_left (l : list ascii) : list ascii :=
  match l with
  | [] => []
  | c :: r =>
      if is_space c then trim_left r
      else
        match r with
        | c2 :: r2 =>
            if wide_space2 c c2 then trim_left r2
            else
              match r2 with
              | c3 :: r3 => if wide_space3 c c2 c3 then trim_left r3 else l
              | [] => l
              end
        | [] => l
        end
  end.

(** The same at the end, on the bytes in reverse order: the last rune is
    white space when the bytes end with the encoding of one. *)
Fixpoint trim_reversed (l : list ascii) : list ascii :=
  match l with
  | [] => []
  | c :: r =>
      if is_space c then trim_reversed r
      else
        match r with
        | c2 :: r2 =>
            if wide_space2 c2 c then trim_reversed r2
            else
              match r2 with
              | c3 :: r3 =>
                  if wide_space3 c3 c2 c then trim_reversed r3 else l
              | [] => l
              end
        | [] => l
        end
  end.

Definition TrimSpace (s : string) : string :=
  string_of_list_ascii (rev (trim_reversed (rev (trim_left (chars s))))).

Example ToUpper_samples :
  map ToUpper
    ["1.5mb"; "Kb "; "";
     String (ascii_of_nat 196) (String (ascii_of_nat 177) "nf");
     String (ascii_of_nat 195) (String (ascii_of_nat 169) "k");
     String (ascii_of_nat 255) "k"]%string
  = ["1.5MB"; "KB "; ""; "INF";
     String (ascii_of_nat 195) (String (ascii_of_nat 169) "K");
     String (ascii_of_nat 239)
       (String (ascii_of_nat 191) (String (ascii_of_nat 189) "K"))]%string.
Proof. vm_compute. reflexivity. Qed.

Example TrimSpace_samples :
  map TrimSpace
    ["  500K  "; "1 K"; "   ";
     String (ascii_of_nat 9) "1K" ++ String (ascii_of_nat 10) "";
     "1K" ++ String (ascii_of_nat 194) (String (ascii_of_nat 160) "");
     String (ascii_of_nat 226)
       (String (ascii_of_nat 128) (String (ascii_of_nat 131) "1K"));
     "1K" ++ String (ascii_of_nat 160) ""]%string
  = ["500K"; "1 K"; ""; "1K"; "1K"; "1K";
     "1K" ++ String (ascii_of_nat 160) ""]%string.
Proof. vm_compute. reflexivity. Qed.


Fixpoint starts_with (p l : list ascii) {struct l} : bool :=
  match p with
  | [] => true
  | c :: p' =>
      match l with
      | [] => false
      | d :: l' => Ascii.eqb c d && starts_with p' l'
      end
  end.

(** [strings.HasSuffix] and [strings.TrimSuffix], read from the end of the
    string. *)
Definition HasSuffix (s suffix : string) : bool :=
  starts_with (rev (chars suffix)) (rev (chars s)).

Definition TrimSuffix (s suffix : string) : string :=
  if HasSuffix s suffix
  then string_of_list_ascii
         (rev (skipn (length (chars suffix)) (rev (chars s))))
  else s.

Definition HasPrefix (s p : string) : bool := String.prefix p s.

(** [strings.Contains] *)
Fixpoint Contains (s sub : string) : bool :=
  String.prefix sub s ||
  match s with
  | EmptyString => false
  | String _ r => Contains r sub
  end.

(** [strings.Index(s, ":")] for a single-byte separator. *)
Fixpoint IndexByte (s : string) (c : ascii) : option nat :=
  match s with
  | EmptyString => None
  | String d r =>
      if Ascii.eqb d c then Some O
      else match IndexByte r c with Some i => Some (S i) | None => None end
  end.

(** A value between double quotes, standing for the verb [%q]. *)
Definition quote (s : string) : string :=
  String (ascii_of_nat 34) (s ++ String (ascii_of_nat 34) EmptyString).

(** *** Facts about these functions *)

Lemma chars_app a b : chars (a ++ b) = chars a ++ chars b.
Proof.
  unfold chars. induction a as [| c a IH]; cbn; [reflexivity |].
  f_equal. exact IH.
Qed.

Lemma string_of_chars s : string_of_list_ascii (chars s) = s.
Proof. apply string_of_list_ascii_of_string. Qed.

Lemma all_chars_app f a b :
  all_chars f (a ++ b) = all_chars f a && all_chars f b.
Proof. unfold all_chars. rewrite chars_app. apply forallb_app. Qed.

Lemma upper_runes_not_empty c l : upper_runes (c :: l) <> [].
Proof.
  cbn [upper_runes]. unfold upper_rune, replacement.
  destruct (rune_len (c :: l)) as [| [| [| [| [| n]]]]];
    destruct l as [| c2 [| c3 [| c4 r4]]]; try discriminate;
    destruct ((code c =? 196) && (code c2 =? 177));
    try discriminate;
    destruct ((code c =? 197) && (code c2 =? 191)); discriminate.
Qed.

Lemma ToUpper_empty s : ToUpper s = EmptyString <-> s = EmptyString.
Proof.
  split; [| intros ->; reflexivity].
  unfold ToUpper. destruct s as [| c s]; [reflexivity |].
  destruct (isASCII (String c s)); [discriminate |].
  cbn [chars list_ascii_of_string].
  pose proof (upper_runes_not_empty c (list_ascii_of_string s)) as H.
  destruct (upper_runes (c :: list_ascii_of_string s)); [contradiction |].
  discriminate.
Qed.

(** A string of ASCII bytes none of which is a small letter is its own
    upper case. *)
Lemma ToUpper_fixed s :
  isASCII s = true ->
  all_chars (fun c => Ascii.eqb (upper_ascii c) c) s = true -> ToUpper s = s.
Proof.
  intros Ha. unfold ToUpper. rewrite Ha. clear Ha.
  unfold all_chars, chars.
  induction s as [| c s IH]; cbn [upper_bytes list_ascii_of_string forallb];
    [reflexivity |].
  intros H. apply andb_prop in H. destruct H as [Hc Hs].
  apply Ascii.eqb_eq in Hc. rewrite Hc, IH by exact Hs. reflexivity.
Qed.

(** The bytes that are neither white space nor part of a rune above
    U+007F. *)
Definition plain (c : ascii) : bool := (code c <? 128) && negb (is_space c).

Lemma trim_left_plain c l : plain c = true -> trim_left (c :: l) = c :: l.
Proof.
  unfold plain. intros H. apply andb_prop in H. destruct H as [Ha Hs].
  apply negb_true_iff in Hs. apply Z.ltb_lt in Ha.
  assert (W2 : forall c2, wide_space2 c c2 = false)
    by (intros c2; unfold wide_space2; lia).
  assert (W3 : forall c2 c3, wide_space3 c c2 c3 = false)
    by (intros c2 c3; unfold wide_space3; lia).
  cbn [trim_left]. rewrite Hs.
  destruct l as [| c2 [| c3 r3]]; rewrite ?W2, ?W3; reflexivity.
Qed.

Lemma trim_reversed_plain c l :
  plain c = true -> trim_reversed (c :: l) = c :: l.
Proof.
  unfold plain. intros H. apply andb_prop in H. destruct H as [Ha Hs].
  apply negb_true_iff in Hs. apply Z.ltb_lt in Ha.
  assert (W2 : forall c2, wide_space2 c2 c = false)
    by (intros c2; unfold wide_space2; lia).
  assert (W3 : forall c2 c3, wide_space3 c3 c2 c = false)
    by (intros c2 c3; unfold wide_space3; lia).
  cbn [trim_reversed]. rewrite Hs.
  destruct l as [| c2 [| c3 r3]]; rewrite ?W2, ?W3; reflexivity.
Qed.

(** A string that begins and ends with such a byte has nothing to trim. *)
Lemma TrimSpace_fixed s : all_chars plain s = true -> TrimSpace s = s.
Proof.
  unfold all_chars, TrimSpace. intros H.
  destruct (chars s) as [| c l] eqn:E.
  - cbn. rewrite <- (string_of_chars s), E. reflexivity.
  - cbn [forallb] in H. apply andb_prop in H. destruct H as [Hc Hl].
    rewrite (trim_left_plain c l Hc).
    assert (R : trim_reversed (rev (c :: l)) = rev (c :: l)).
    { destruct (rev (c :: l)) as [| d m] eqn:Er; [reflexivity |].
      apply trim_reversed_plain.
      assert (Hin : In d (c :: l))
        by (apply in_rev; rewrite Er; left; reflexivity).
      destruct Hin as [<- | Hin]; [exact Hc |].
      rewrite forallb_forall in Hl. apply Hl, Hin. }
    rewrite R, rev_involutive, <- E. apply string_of_chars.
Qed.

Lemma rev_chars_app a b : rev (chars (a ++ b)) = rev (chars b) ++ rev (chars a).
Proof. rewrite chars_app. apply rev_app_distr. Qed.

Lemma starts_with_app p l : starts_with p (p ++ l) = true.
Proof.
  induction p as [| c p IH]; cbn [starts_with app].
  - destruct l; reflexivity.
  - rewrite Ascii.eqb_refl, IH. reflexivity.
Qed.

Lemma HasSuffix_app a b : HasSuffix (a ++ b) b = true.
Proof. unfold HasSuffix. rewrite rev_chars_app. apply starts_with_app. Qed.

Lemma TrimSuffix_app a b : TrimSuffix (a ++ b) b = a.
Proof.
  unfold TrimSuffix. rewrite HasSuffix_app, rev_chars_app.
  rewrite <- (length_rev (chars b)).
  rewrite skipn_app, skipn_all, Nat.sub_diag. cbn [skipn app].
  rewrite rev_involutive. apply string_of_chars.
Qed.

End GoStrings.

(** [strconv.ParseFloat(s, 64)], after the scanner of the Go library
    ([special], [readFloat], [underscoreOK]): an optional sign, then
    [inf], [infinity] or (unsigned) [nan] in any case, or decimal digits with
    at most one point and an optional exponent, or a [0x] mantissa with a
    mandatory binary exponent; underscores only between digits.  The value is
    the double nearest to the number written; a number too large for a double
    is a range error. *)

Module Strconv.
Import GoStrings Float64.

Definition ErrSyntax : error := ErrNew "invalid syntax".
Definition ErrRange : error := ErrNew "value out of range".

Definition NumError (num : string) (e : error) : error :=
  ErrWrap ("strconv.ParseFloat: parsing " ++ quote num) e.

(** [lower(c)] is [c | ('x' - 'X')]. *)
Definition lower (c : Z) : Z := Z.lor c 32.

Definition is_digit (c : Z) : bool := (48 <=? c) && (c <=? 57).

Fixpoint commonPrefixLenIgnoreCase (s prefix : list Z) : nat :=
  match s, prefix with
  | c :: s', p :: prefix' =>
      let c := if (65 <=? c) && (c <=? 90) then c + 32 else c in
      if c =? p then S (commonPrefixLenIgnoreCase s' prefix') else O
  | _, _ => O
  end.

(** [special]: the value and the number of bytes consumed. *)
Definition special (s : list Z) : option (float64 * nat) :=
  let infinity (sign : bool) (nsign : nat) (s : list Z) :=
    let n := commonPrefixLenIgnoreCase s (codes "infinity") in
    let n := if (3 <? n)%nat && (n <? 8)%nat then 3%nat else n in
    if (n =? 3)%nat || (n =? 8)%nat
    then Some (S754_infinity sign, (nsign + n)%nat) else None in
  match s with
  | [] => None
  | c :: rest =>
      if c =? 43 then infinity false 1%nat rest
      else if c =? 45 then infinity true 1%nat rest
      else if (c =? 105) || (c =? 73) then infinity false 0%nat s
      else if (c =? 110) || (c =? 78) then
        if (commonPrefixLenIgnoreCase s (codes "nan") =? 3)%nat
        then Some (S754_nan, 3%nat) else None
      else None
  end.

(** The mantissa as the scanner accumulates it: the integer written by its
    digits and the number of digits after the point. *)
Record mantissa : Type := mkMantissa {
  sawdot : bool;
  sawdigits : bool;
  underscores : bool;
  digits : Z;
  fraction : Z
}.

Definition push (base d : Z) (m : mantissa) : mantissa :=
  mkMantissa (sawdot m) true (underscores m) (digits m * base + d)
    (if sawdot m then fraction m + 1 else fraction m).

Fixpoint scan_mantissa (hex : bool) (s : list Z) (m : mantissa)
    : mantissa * list Z :=
  match s with
  | [] => (m, [])
  | c :: rest =>
      if c =? 95 then
        scan_mantissa hex rest
          (mkMantissa (sawdot m) (sawdigits m) true (digits m) (fraction m))
      else if c =? 46 then
        if sawdot m then (m, s)
        else scan_mantissa hex rest
               (mkMantissa true (sawdigits m) (underscores m) (digits m)
                  (fraction m))
      else if is_digit c then
        scan_mantissa hex rest (push (if hex then 16 else 10) (c - 48) m)
      else if hex && (97 <=? lower c) && (lower c <=? 102) then
        scan_mantissa hex rest (push 16 (lower c - 97 + 10) m)
      else (m, s)
  end.

(** The digits of an exponent, underscores skipped; the value stops growing
    at 10000 as in the library. *)
Fixpoint scan_exponent (s : list Z) (e : Z) (us : bool) : Z * bool * list Z :=
  match s with
  | c :: rest =>
      if c =? 95 then scan_exponent rest e true
      else if is_digit c then
        scan_exponent rest (if e <? 10000 then e * 10 + (c - 48) else e) us
      else (e, us, s)
  | [] => (e, us, [])
  end.

(** [underscoreOK] *)
Fixpoint underscore_scan (hex : bool) (s : list Z) (saw : Z) : bool :=
  match s with
  | [] => negb (saw =? 95)
  | c :: rest =>
      if is_digit c || (hex && (97 <=? lower c) && (lower c <=? 102)) then
        underscore_scan hex rest 48
      else if c =? 95 then
        if saw =? 48 then underscore_scan hex rest 95 else false
      else if saw =? 95 then false
      else underscore_scan hex rest 33
  end.

Definition underscoreOK (s : list Z) : bool :=
  let s := match s with
           | c :: rest => if (c =? 45) || (c =? 43) then rest else s
           | [] => s
           end in
  match s with
  | c0 :: c1 :: rest =>
      if (c0 =? 48) &&
         ((lower c1 =? 98) || (lower c1 =? 111) || (lower c1 =? 120))
      then underscore_scan (lower c1 =? 120) rest 48
      else underscore_scan false s 94
  | _ => underscore_scan false s 94
  end.

(** What [readFloat] extracts: sign, base, mantissa digits, the power of
    the base (10, or 2 for a hexadecimal mantissa) and what is left over. *)
Definition readFloat (s : list Z)
    : option (bool * bool * Z * Z * bool * list Z) :=
  match s with
  | [] => None
  | c :: rest =>
      let '(neg, s1) := if c =? 43 then (false, rest)
                        else if c =? 45 then (true, rest) else (false, s) in
      let '(hex, s2) :=
        match s1 with
        | c0 :: c1 :: (_ :: _) as tail =>
            if (c0 =? 48) && (lower c1 =? 120) then (true, tail) else (false, s1)
        | _ => (false, s1)
        end in
      let '(m, s3) := scan_mantissa hex s2 (mkMantissa false false false 0 0) in
      if negb (sawdigits m) then None
      else
        let point := if hex then 4 * fraction m else fraction m in
        match s3 with
        | c :: s4 =>
            if lower c =? (if hex then 112 else 101) then
              match s4 with
              | [] => None
              | d :: s5 =>
                  let '(esign, s6) := if d =? 43 then (1, s5)
                                      else if d =? 45 then (-1, s5) else (1, s4) in
                  match s6 with
                  | d0 :: _ =>
                      if is_digit d0 then
                        let '(e, us, s7) := scan_exponent s6 0 (underscores m) in
                        Some (neg, hex, digits m, e * esign - point, us, s7)
                      else None
                  | [] => None
                  end
              end
            else if hex then None
            else Some (neg, hex, digits m, - point, underscores m, s3)
        | [] =>
            if hex then None
            else Some (neg, hex, digits m, - point, underscores m, [])
        end
  end.

(** The double nearest to [digits * base^power]. *)
Definition value (neg hex : bool) (digits power : Z) : float64 :=
  if digits =? 0 then S754_zero neg
  else if hex then of_scaled neg digits power
  else if 0 <=? power then of_scaled neg (digits * 10 ^ power) 0
  else of_ratio neg digits (10 ^ (- power)).

Definition ParseFloat (str : string) : result float64 :=
  let s := codes str in
  match special s with
  | Some (f, n) =>
      if (n =? length s)%nat then Ok f else Err (NumError str ErrSyntax)
  | None =>
      match readFloat s with
      | Some (neg, hex, digits, power, us, []) =>
          if us && negb (underscoreOK s) then Err (NumError str ErrSyntax)
          else
            let f := value neg hex digits power in
            if is_inf f then Err (NumError str ErrRange) else Ok f
      | _ => Err (NumError str ErrSyntax)
      end
  end.

Definition parses_to (str : string) (f : float64) : bool :=
  match ParseFloat str with
  | Ok g => match SFcompare g f with Some Eq => true | _ => false end
  | Err _ => false
  end.

Example ParseFloat_samples :
  parses_to "1024" (of_int 1024) = true /\
  parses_to "1.5" (of_ratio false 3 2) = true /\
  parses_to "-100" (of_int (-100)) = true /\
  parses_to "1e3" (of_int 1000) = true /\
  parses_to "0x1p-2" (of_ratio false 1 4) = true /\
  parses_to "1_000" (of_int 1000) = true /\
  parses_to ".5" (of_ratio false 1 2) = true /\
  parses_to "5." (of_int 5) = true /\
  ParseFloat "+Inf" = Ok (S754_infinity false) /\
  ParseFloat "nan" = Ok S754_nan /\
  ParseFloat "0.1" = Ok (S754_finite false 0x1999999999999a (-56)) /\
  ParseFloat "0" = Ok (S754_zero false) /\
  ParseFloat "-0" = Ok (S754_zero true).
Proof. vm_compute. repeat split. Qed.

Example ParseFloat_rejects :
  map (fun s => is_err (ParseFloat s))
    [""; "abc"; "."; "1e"; "1e+"; "1.2.3"; "0x1"; "1_"; "_1"; "1__0"; " 1";
     "1 "; "+nan"; "infi"; "1e400"; "--1"; "0x"; "e5"]%string
  = repeat true 18.
Proof. vm_compute. reflexivity. Qed.

End Strconv.

(** ** Streams: [io.Reader], [io.Writer] and two standard implementations *)

Module IO.

(** [Read(p)] with [len(p) = n]: the bytes stored into [p], the error, and the
    reader afterwards. *)
Definition read_fn (R : Type) : Type := R -> nat -> list byte * option error * R.

(** [Write(p)]: the count returned, the error, and the writer afterwards. *)
Definition write_fn (W : Type) : Type := W -> list byte -> Z * option error * W.

(** [strings.Reader], [bytes.Reader]: the state is what is left to read. *)
Definition slice_read : read_fn (list byte) :=
  fun rest n =>
    match rest with
    | [] => ([], Some EOF, [])
    | _ => (firstn n rest, None, skipn n rest)
    end.

(** [bytes.Buffer]: the state is what has been written. *)
Definition buffer_write : write_fn (list byte) :=
  fun buf p => (Z.of_nat (length p), None, buf ++ p).

End IO.

(** ** Rate limiting, the bandwidth parser and the cancellable copy loop
       ([internal/file/throttle.go]) *)

Module Throttle.
Import IO GoStrings Float64.

(** [d.Seconds()] for a [time.Duration] of [d] nanoseconds. *)
Definition Seconds (d : Z) : float64 :=
  add (of_int (Z.quot d 1000000000))
      (div (of_int (Z.rem d 1000000000)) (of_int 1000000000)).

(** The tokens added for [elapsed] nanoseconds:
    [int64(elapsed.Seconds() * float64(bytesPerSec))]. *)
Definition refill (elapsed bytesPerSec : Z) : Z :=
  to_int64 (mul (Seconds elapsed) (of_int bytesPerSec)).

Section Reader.
Variable R : Type.
Variable inner : read_fn R.
(** [clock k] is what [time.Now()] returns in the [k]-th call of [Read], in
    nanoseconds. *)
Variable clock : nat -> Z.

Record ThrottledReader : Type := mkThrottledReader {
  reader : R;
  r_bytesPerSec : Z;
  r_bucket : Z;
  r_lastTime : Z;
  r_calls : nat
}.

(** [NewThrottledReader]: the reader itself for a non-positive limit,
    otherwise a wrapper with a full bucket; [now] is [time.Now()]. *)
Definition NewThrottledReader (r : R) (bytesPerSec now : Z)
    : R + ThrottledReader :=
  if bytesPerSec <=? 0 then inl r
  else inr (mkThrottledReader r bytesPerSec bytesPerSec now O).

Definition Read : read_fn ThrottledReader :=
  fun t n =>
    let now := clock (r_calls t) in
    let elapsed := now - r_lastTime t in
    let bucket := r_bucket t + refill elapsed (r_bytesPerSec t) in
    let bucket := if r_bytesPerSec t <? bucket then r_bytesPerSec t else bucket in
    let toRead := Z.of_nat n in
    let toRead := if bucket <? toRead then bucket else toRead in
    let t' := mkThrottledReader (reader t) (r_bytesPerSec t) bucket now
                (S (r_calls t)) in
    if toRead =? 0 then
      (* time.Sleep(10 * time.Millisecond) *)
      ([], None, t')
    else if toRead <? 0 then
      ([], Some (Panic "slice bounds out of range"), t')
    else
      let '(data, err, r') := inner (reader t) (Z.to_nat toRead) in
      (data, err,
       mkThrottledReader r' (r_bytesPerSec t) (bucket - Z.of_nat (length data))
         now (S (r_calls t))).

End Reader.

Arguments reader {R} _.
Arguments r_bytesPerSec {R} _.
Arguments r_bucket {R} _.
Arguments r_lastTime {R} _.
Arguments r_calls {R} _.
Arguments mkThrottledReader {R} _ _ _ _ _.

Section Writer.
Variable W : Type.
Variable inner : write_fn W.
(** [clock k] is what [time.Now()] returns in the [k]-th turn of the loops of
    [Write], counted over the life of the writer. *)
Variable clock : nat -> Z.

Record ThrottledWriter : Type := mkThrottledWriter {
  writer : W;
  w_bytesPerSec : Z;
  w_bucket : Z;
  w_lastTime : Z;
  w_turns : nat
}.

Definition NewThrottledWriter (w : W) (bytesPerSec now : Z)
    : W + ThrottledWriter :=
  if bytesPerSec <=? 0 then inl w
  else inr (mkThrottledWriter w bytesPerSec bytesPerSec now O).

(** The loop of [Write] given [fuel] turns; [None] when it is still turning
    after them. *)
Fixpoint Write_loop (fuel : nat) (t : ThrottledWriter) (p : list byte)
    (written : Z) : option (Z * option error * ThrottledWriter) :=
  if written <? Z.of_nat (length p) then
    match fuel with
    | O => None
    | S fuel' =>
        let now := clock (w_turns t) in
        let elapsed := now - w_lastTime t in
        let bucket := w_bucket t + refill elapsed (w_bytesPerSec t) in
        let bucket :=
          if w_bytesPerSec t <? bucket then w_bytesPerSec t else bucket in
        let remaining := Z.of_nat (length p) - written in
        let toWrite := remaining in
        let toWrite := if bucket <? toWrite then bucket else toWrite in
        let t' := mkThrottledWriter (writer t) (w_bytesPerSec t) bucket now
                    (S (w_turns t)) in
        if toWrite =? 0 then
          (* time.Sleep(10 * time.Millisecond); continue *)
          Write_loop fuel' t' p written
        else if (toWrite <? 0) || (written <? 0) then
          Some (written, Some (Panic "slice bounds out of range"), t')
        else
          let '(n, err, w') :=
            inner (writer t)
              (firstn (Z.to_nat toWrite) (skipn (Z.to_nat written) p)) in
          let t'' := mkThrottledWriter w' (w_bytesPerSec t) (bucket - n) now
                       (S (w_turns t)) in
          match err with
          | Some e => Some (written + n, Some e, t'')
          | None => Write_loop fuel' t'' p (written + n)
          end
    end
  else Some (written, None, t).

Definition Write (fuel : nat) (t : ThrottledWriter) (p : list byte)
    : option (Z * option error * ThrottledWriter) :=
  Write_loop fuel t p 0.

End Writer.

Arguments writer {W} _.
Arguments w_bytesPerSec {W} _.
Arguments w_bucket {W} _.
Arguments w_lastTime {W} _.
Arguments w_turns {W} _.
Arguments mkThrottledWriter {W} _ _ _ _ _.

(** [ParseBandwidthLimit] *)
Definition suffix_switch (s : string) : Z * string :=
  if HasSuffix s "G" then (1024 * 1024 * 1024, TrimSuffix s "G")
  else if HasSuffix s "GB" then (1024 * 1024 * 1024, TrimSuffix s "GB")
  else if HasSuffix s "M" then (1024 * 1024, TrimSuffix s "M")
  else if HasSuffix s "MB" then (1024 * 1024, TrimSuffix s "MB")
  else if HasSuffix s "K" then (1024, TrimSuffix s "K")
  else if HasSuffix s "KB" then (1024, TrimSuffix s "KB")
  else if HasSuffix s "B" then (1, TrimSuffix s "B")
  else (1, s).

Definition ParseBandwidthLimit (s : string) : result Z :=
  if String.eqb s "" then Ok 0
  else
    let s := TrimSpace (ToUpper s) in
    let '(multiplier, numStr) := suffix_switch s in
    match Strconv.ParseFloat numStr with
    | Err err => Err (ErrWrap ("invalid bandwidth limit " ++ quote s) err)
    | Ok num =>
        if le num (S754_zero false) then
          Err (ErrNew ("bandwidth limit must be positive, got " ++ quote s))
        else Ok (to_int64 (mul num (of_int multiplier)))
    end.

Example ParseBandwidthLimit_tests :
  map ParseBandwidthLimit
    ["1024B"; "1KB"; "1MB"; "10M"; "1GB"; "1m"; "  500K  "]%string
  = map Ok [1024; 1024; 1048576; 10485760; 1073741824; 1048576; 512000].
Proof. vm_compute. reflexivity. Qed.

(** Beyond ASCII: a no-break space (U+00A0) after the unit is trimmed, and
    a dotless i (U+0131) becomes the I of INF, an infinity that passes the
    test [num <= 0] and is converted to the most negative integer. *)
Example ParseBandwidthLimit_beyond_ascii :
  map ParseBandwidthLimit
    [("1K" ++ String (ascii_of_nat 194) (String (ascii_of_nat 160) ""))%string;
     String (ascii_of_nat 196) (String (ascii_of_nat 177) "nf")]
  = map Ok [1024; - 2 ^ 63].
Proof. vm_compute. reflexivity. Qed.

(** [CopyWithContext] *)

(** How a [context.Context] ends: cancelled, or past its deadline. *)
Inductive done : Type := DoneCanceled | DoneDeadlineExceeded.

(** [ctx.Err()] once [ctx.Done()] is closed. *)
Definition ctx_Err (d : done) : error :=
  match d with
  | DoneCanceled => Canceled
  | DoneDeadlineExceeded => DeadlineExceeded
  end.

(** How a run of the copy loop stands after a number of turns: it returned
    [(written, err)], or it is still turning. *)
Inductive copied (R W : Type) : Type :=
| Returned (written : Z) (err : option error) (src : R) (dst : W)
| Turning (written : Z) (src : R) (dst : W).
Arguments Returned {R W} _ _ _ _.
Arguments Turning {R W} _ _ _.

Definition chunk : nat := 32 * 1024.

Section Copy.
Variables R W : Type.
Variable read : read_fn R.
Variable write : write_fn W.
(** [ctx i] is [Some d] when the [select] of the [i]-th turn of the loop finds
    [ctx.Done()] closed, [d] telling why. *)
Variable ctx : nat -> option done.

Fixpoint copy_loop (fuel i : nat) (written : Z) (src : R) (dst : W)
    : copied R W :=
  match fuel with
  | O => Turning written src dst
  | S fuel' =>
      match ctx i with
      | Some d => Returned written (Some (ctx_Err d)) src dst
      | None =>
          let '(data, rerr, src') := read src chunk in
          let nr := Z.of_nat (length data) in
          let after_write :=
            if 0 <? nr then
              let '(nw, werr, dst') := write dst data in
              let written' := if 0 <? nw then written + nw else written in
              match werr with
              | Some e => inl (Returned written' (Some e) src' dst')
              | None =>
                  if negb (nr =? nw)
                  then inl (Returned written' (Some ErrShortWrite) src' dst')
                  else inr (written', dst')
              end
            else inr (written, dst) in
          match after_write with
          | inl r => r
          | inr (written', dst') =>
              match rerr with
              | Some EOF => Returned written' None src' dst'
              | Some e => Returned written' (Some e) src' dst'
              | None => copy_loop fuel' (S i) written' src' dst'
              end
          end
      end
  end.

Definition CopyWithContext (fuel : nat) (dst : W) (src : R) : copied R W :=
  copy_loop fuel O 0 src dst.

End Copy.

Arguments copy_loop {R W} _ _ _ _ _ _ _ _.
Arguments CopyWithContext {R W} _ _ _ _ _ _.

(** A context that is never cancelled ([context.Background()]). *)
Definition Background : nat -> option done := fun _ => None.

Example CopyWithContext_Success :
  CopyWithContext slice_read buffer_write Background 3 []
    (list_byte_of_string "test data for copy")
  = Returned 18 None [] (list_byte_of_string "test data for copy").
Proof. vm_compute. reflexivity. Qed.

Example CopyWithContext_Cancelled :
  CopyWithContext slice_read buffer_write (fun _ => Some DoneCanceled) 1 []
    (list_byte_of_string "xxxx")
  = Returned 0 (Some Canceled) (list_byte_of_string "xxxx") [].
Proof. vm_compute. reflexivity. Qed.

(** *** The copy loop on an in-memory source and destination *)

Lemma firstn_plus {A} (l : list A) a b :
  firstn (a + b) l = firstn a l ++ firstn b (skipn a l).
Proof.
  revert l. induction a as [| a IH]; intros l; [reflexivity |].
  destruct l as [| x l]; cbn [Nat.add firstn skipn app].
  - rewrite firstn_nil. reflexivity.
  - f_equal. apply IH.
Qed.

Lemma chunk_pos : (0 < chunk)%nat.
Proof. unfold chunk. lia. Qed.

(** One turn of the loop on a source that is not exhausted: the next chunk
    goes to the destination. *)
Lemma copy_loop_step ctx fuel i written b src dst :
  ctx i = None ->
  copy_loop slice_read buffer_write ctx (S fuel) i written (b :: src) dst
  = copy_loop slice_read buffer_write ctx fuel (S i)
      (written + Z.of_nat (length (firstn chunk (b :: src))))
      (skipn chunk (b :: src)) (dst ++ firstn chunk (b :: src)).
Proof.
  intros Hc. cbn [copy_loop]. rewrite Hc.
  unfold slice_read, buffer_write.
  pose proof chunk_pos as Hp.
  set (data := firstn chunk (b :: src)).
  assert (Hd : 0 < Z.of_nat (length data)).
  { unfold data. rewrite length_firstn. cbn [length]. lia. }
  destruct (Z.ltb_spec 0 (Z.of_nat (length data))) as [_ | Hn]; [| lia].
  rewrite Z.eqb_refl. cbn [negb]. reflexivity.
Qed.

(** The loop stops at the first turn whose check finds the context done,
    having copied the chunks of the turns before it and nothing else. *)
Lemma copy_loop_cancelled ctx d k :
  forall fuel i written src dst,
    (k < fuel)%nat ->
    (forall j, (j < k)%nat -> ctx (i + j)%nat = None) ->
    ctx (i + k)%nat = Some d ->
    (k * chunk < length src + chunk)%nat ->
    copy_loop slice_read buffer_write ctx fuel i written src dst
    = Returned (written + Z.of_nat (Nat.min (k * chunk) (length src)))
        (Some (ctx_Err d)) (skipn (k * chunk) src)
        (dst ++ firstn (k * chunk) src).
Proof.
  pose proof chunk_pos as Hp.
  induction k as [| k IH]; intros fuel i written src dst Hf Hnone He Hlen.
  - destruct fuel as [| fuel]; [lia |].
    rewrite Nat.add_0_r in He. cbn [copy_loop]. rewrite He.
    cbn [Nat.mul Nat.min skipn firstn]. rewrite app_nil_r.
    f_equal. cbn. lia.
  - destruct fuel as [| fuel]; [lia |].
    destruct src as [| b src].
    + cbn [length] in Hlen. nia.
    + rewrite copy_loop_step
        by (specialize (Hnone O ltac:(lia)); rewrite Nat.add_0_r in Hnone; exact Hnone).
      rewrite IH.
      * change (S k * chunk)%nat with (chunk + k * chunk)%nat.
        rewrite (firstn_plus (b :: src) chunk (k * chunk)).
        rewrite skipn_skipn, (Nat.add_comm (k * chunk) chunk).
        rewrite <- app_assoc. f_equal.
        rewrite length_firstn, length_skipn. lia.
      * lia.
      * intros j Hj. replace (S i + j)%nat with (i + S j)%nat by lia.
        apply Hnone. lia.
      * replace (S i + k)%nat with (i + S k)%nat by lia. exact He.
      * rewrite length_skipn.
        change (S k * chunk)%nat with (chunk + k * chunk)%nat in Hlen. lia.
Qed.

(** *** A throttled copy at 50 bytes per second *)

(** Clock readings 10.1 ms apart, the spacing the 10 ms sleep of an empty
    bucket produces. *)
Definition steady_clock (k : nat) : Z := Z.of_nat (S k) * 10100000.

Lemma refill_steady_50 : refill 10100000 50 = 0.
Proof. vm_compute. reflexivity. Qed.

Lemma steady_clock_gap k : steady_clock (S k) - steady_clock k = 10100000.
Proof. unfold steady_clock. lia. Qed.

(** Once the bucket is empty it stays empty: each [Read] adds
    [int64(0.0101 * 50) = 0] tokens, restarts the measurement and returns no
    bytes, so the loop turns without end. *)
Lemma stalled_reader_turns (rest dst : list byte) :
  forall fuel i,
    exists t,
      copy_loop (Read (list byte) slice_read steady_clock) buffer_write
        Background fuel (S i) 50
        (mkThrottledReader rest 50 0 (steady_clock i) (S i)) dst
      = Turning 50 t dst.
Proof.
  induction fuel as [| fuel IH]; intros i.
  - eexists. reflexivity.
  - cbn [copy_loop]. unfold Background at 1. unfold Read.
    cbn [r_calls r_lastTime r_bucket r_bytesPerSec reader].
    rewrite steady_clock_gap, refill_steady_50.
    cbn [Z.add Z.ltb Z.compare Z.eqb length Z.of_nat].
    change (0 <? Z.of_nat chunk) with true. cbn iota.
    change (0 =? 0) with true. cbn iota.
    cbn [length Z.of_nat Z.ltb Z.compare].
    apply IH.
Qed.

Lemma stalled_writer_turns (W : Type) (inner : write_fn W) (p : list byte) :
  50 < Z.of_nat (length p) ->
  forall fuel i w,
    Write_loop W inner steady_clock fuel
      (mkThrottledWriter w 50 0 (steady_clock i) (S i)) p 50 = None.
Proof.
  intros Hp. induction fuel as [| fuel IH]; intros i w.
  - cbn [Write_loop].
    destruct (Z.ltb_spec 50 (Z.of_nat (length p))); [reflexivity | lia].
  - cbn [Write_loop].
    destruct (Z.ltb_spec 50 (Z.of_nat (length p))) as [_ | ?]; [| lia].
    cbn [w_turns w_lastTime w_bucket w_bytesPerSec writer].
    rewrite steady_clock_gap, refill_steady_50.
    cbn [Z.add]. change (50 <? 0) with false. cbn iota.
    destruct (Z.ltb_spec 0 (Z.of_nat (length p) - 50)) as [_ | ?]; [| lia].
    change (0 =? 0) with true. cbn iota.
    apply IH.
Qed.

Lemma fifty_below_chunk : (50 <? Z.of_nat chunk) = true.
Proof. apply Z.ltb_lt. unfold chunk. lia. Qed.

(** The first turn spends the initial bucket of 50 tokens. *)
Lemma first_turn_reader (src : list byte) fuel :
  (50 <= length src)%nat ->
  copy_loop (Read (list byte) slice_read steady_clock) buffer_write
    Background (S fuel) 0 0 (mkThrottledReader src 50 50 0 0) []
  = copy_loop (Read (list byte) slice_read steady_clock) buffer_write
      Background fuel 1 50
      (mkThrottledReader (skipn 50 src) 50 0 (steady_clock 0) 1)
      (firstn 50 src).
Proof.
  intros Hlen. cbn [copy_loop]. unfold Background at 1. unfold Read.
  cbn [r_calls r_lastTime r_bucket r_bytesPerSec reader].
  change (steady_clock 0 - 0) with 10100000.
  rewrite refill_steady_50.
  change (50 + 0) with 50. change (50 <? 50) with false. cbn iota.
  rewrite fifty_below_chunk.
  change (50 =? 0) with false. change (50 <? 0) with false. cbn iota.
  change (Z.to_nat 50) with 50%nat.
  unfold slice_read. destruct src as [| b src]; [cbn [length] in Hlen; lia |].
  set (data := firstn 50 (b :: src)).
  assert (Ld : Z.of_nat (length data) = 50)
    by (unfold data; rewrite length_firstn; lia).
  rewrite Ld. change (0 <? 50) with true. cbn iota.
  unfold buffer_write. rewrite Ld.
  change (0 <? 50) with true. change (50 =? 50) with true.
  cbn [negb app Z.add Z.sub Z.pos_sub Z.opp]. reflexivity.
Qed.

Lemma first_turn_writer (p : list byte) fuel :
  (50 < length p)%nat ->
  Write_loop (list byte) buffer_write steady_clock (S fuel)
    (mkThrottledWriter [] 50 50 0 0) p 0
  = Write_loop (list byte) buffer_write steady_clock fuel
      (mkThrottledWriter (firstn 50 p) 50 0 (steady_clock 0) 1) p 50.
Proof.
  intros Hlen. cbn [Write_loop].
  destruct (Z.ltb_spec 0 (Z.of_nat (length p))) as [_ | ?]; [| lia].
  cbn [w_turns w_lastTime w_bucket w_bytesPerSec writer].
  change (steady_clock 0 - 0) with 10100000.
  rewrite refill_steady_50.
  change (50 + 0) with 50. change (50 <? 50) with false. cbn iota.
  rewrite Z.sub_0_r.
  destruct (Z.ltb_spec 50 (Z.of_nat (length p))) as [_ | ?]; [| lia].
  change (50 =? 0) with false. change (50 <? 0) with false.
  change (0 <? 0) with false. cbn [orb]. cbn iota.
  change (Z.to_nat 50) with 50%nat. change (Z.to_nat 0) with 0%nat.
  cbn [skipn]. unfold buffer_write.
  rewrite length_firstn.
  replace (Z.of_nat (Nat.min 50 (length p))) with 50 by lia.
  cbn [app Z.add Z.sub Z.pos_sub Z.opp]. reflexivity.
Qed.

(** *** What a throttled copy does deliver *)

(** Whatever the clock and the rate, a [Read] of the throttled reader takes
    the bytes it returns from the front of the source, and reports the end of
    the source only when nothing is left. *)
Lemma throttled_Read_front clock (t : ThrottledReader (list byte)) n :
  let '(data, err, t') := Read (list byte) slice_read clock t n in
  reader t = data ++ reader t'
  /\ (err = None
      \/ (err = Some EOF /\ data = [] /\ reader t = [])
      \/ exists m, err = Some (Panic m) /\ data = []).
Proof.
  unfold Read.
  set (bucket := if r_bytesPerSec t <? _ then _ else _).
  set (toRead := if bucket <? Z.of_nat n then bucket else Z.of_nat n).
  destruct (toRead =? 0).
  - cbn [reader app]. split; [reflexivity | left; reflexivity].
  - destruct (toRead <? 0).
    + cbn [reader app]. split; [reflexivity |].
      right. right. eexists. split; reflexivity.
    + unfold slice_read. destruct (reader t) as [| b rest] eqn:E.
      * cbn [reader app]. split; [reflexivity |].
        right. left. repeat split.
      * cbn [reader]. split; [| left; reflexivity].
        symmetry. apply firstn_skipn.
Qed.

(** At every moment of a copy through a throttled reader into a buffer, the
    buffer followed by what is left of the source is the buffer and the source
    of the start; and when the copy returns without an error, nothing is left:
    the destination has received exactly the source's bytes, in order. *)
Lemma throttled_copy_prefix clock ctx :
  forall fuel i written (t : ThrottledReader (list byte)) (dst : list byte),
    match copy_loop (Read (list byte) slice_read clock) buffer_write ctx
            fuel i written t dst with
    | Returned n err t' dst' =>
        dst' ++ reader t' = dst ++ reader t
        /\ n - written = Z.of_nat (length dst') - Z.of_nat (length dst)
        /\ (err = None -> reader t' = [])
    | Turning n t' dst' =>
        dst' ++ reader t' = dst ++ reader t
        /\ n - written = Z.of_nat (length dst') - Z.of_nat (length dst)
    end.
Proof.
  induction fuel as [| fuel IH]; intros i written t dst.
  - cbn [copy_loop]. split; [reflexivity | lia].
  - cbn [copy_loop]. destruct (ctx i) as [d |].
    { split; [reflexivity | split; [lia | destruct d; discriminate]]. }
    pose proof (throttled_Read_front clock t chunk) as H.
    destruct (Read (list byte) slice_read clock t chunk) as [[data rerr] t'].
    destruct H as [Hsplit Herr].
    unfold buffer_write.
    destruct (Z.ltb_spec 0 (Z.of_nat (length data))) as [Hpos | Hzero].
    + rewrite Z.eqb_refl. cbn [negb].
      destruct (Z.ltb_spec 0 (Z.of_nat (length data))) as [_ | ?]; [| lia].
      destruct Herr as [-> | [[_ [-> _]] | [m [_ ->]]]];
        try (cbn [length] in Hpos; lia).
      specialize (IH (S i) (written + Z.of_nat (length data)) t' (dst ++ data)).
      destruct (copy_loop _ _ _ fuel (S i) _ t' (dst ++ data))
        as [n err t'' dst'' | n t'' dst''].
      * destruct IH as [Hcat [Hn Hnone]].
        rewrite Hcat, Hsplit, <- app_assoc, length_app in *.
        repeat split; [lia | exact Hnone].
      * destruct IH as [Hcat Hn].
        rewrite Hcat, Hsplit, <- app_assoc, length_app in *.
        split; [reflexivity | lia].
    + assert (data = []) as -> by (destruct data; [reflexivity | cbn [length] in Hzero; lia]).
      cbn [app] in Hsplit.
      destruct Herr as [-> | [[-> [_ Hempty]] | [m [-> _]]]].
      * specialize (IH (S i) written t' dst).
        destruct (copy_loop _ _ _ fuel (S i) written t' dst)
          as [n err t'' dst'' | n t'' dst''].
        -- destruct IH as [Hcat [Hn Hnone]]. rewrite Hcat, Hsplit.
           repeat split; assumption.
        -- destruct IH as [Hcat Hn]. rewrite Hcat, Hsplit.
           split; [reflexivity | exact Hn].
      * rewrite Hsplit. split; [reflexivity |]. split; [lia |].
        intros _. rewrite <- Hsplit. exact Hempty.
      * rewrite Hsplit. split; [reflexivity |]. split; [lia | discriminate].
Qed.

(** When [Write] of the throttled writer returns without an error, it has
    handed the whole buffer to the underlying writer, in order, and returns
    its full length. *)
Lemma throttled_Write_all clock :
  forall fuel (t : ThrottledWriter (list byte)) p written n t',
    0 <= written <= Z.of_nat (length p) ->
    Write_loop (list byte) buffer_write clock fuel t p written
    = Some (n, None, t') ->
    n = Z.of_nat (length p)
    /\ writer t' = writer t ++ skipn (Z.to_nat written) p.
Proof.
  induction fuel as [| fuel IH]; intros t p written n t' Hw Hrun;
    cbn [Write_loop] in Hrun;
    destruct (Z.ltb_spec written (Z.of_nat (length p))) as [Hlt | Hge].
  - discriminate Hrun.
  - injection Hrun as <- <-. split; [lia |].
    rewrite skipn_all2 by lia. rewrite app_nil_r. reflexivity.
  - revert Hrun.
    set (bucket := if w_bytesPerSec t <? _ then _ else _).
    set (toWrite := if bucket <? Z.of_nat (length p) - written
                    then bucket else Z.of_nat (length p) - written).
    assert (Hto : toWrite <= Z.of_nat (length p) - written).
    { unfold toWrite.
      destruct (Z.ltb_spec bucket (Z.of_nat (length p) - written)); lia. }
    destruct (Z.eqb_spec toWrite 0) as [Hz | Hnz].
    + intros Hrun. apply IH in Hrun; [| exact Hw]. exact Hrun.
    + destruct (Z.ltb_spec toWrite 0) as [Hneg | Hpos];
        [cbn [orb]; discriminate |].
      destruct (Z.ltb_spec written 0) as [? | _]; [lia |]. cbn [orb].
      unfold buffer_write.
      set (piece := firstn (Z.to_nat toWrite) (skipn (Z.to_nat written) p)).
      assert (Lp : Z.of_nat (length piece) = toWrite).
      { unfold piece. rewrite length_firstn, length_skipn. lia. }
      intros Hrun. apply IH in Hrun; [| lia].
      destruct Hrun as [Hn Hwr]. split; [exact Hn |].
      rewrite Hwr. cbn [writer]. rewrite <- app_assoc. f_equal.
      rewrite Lp. replace (Z.to_nat (written + toWrite))
        with (Z.to_nat toWrite + Z.to_nat written)%nat by lia.
      rewrite <- skipn_skipn. unfold piece. apply firstn_skipn.
  - injection Hrun as <- <-. split; [lia |].
    rewrite skipn_all2 by lia. rewrite app_nil_r. reflexivity.
Qed.

(** *** The bandwidth parser: letter case, unit suffixes, rejections *)

Lemma ParseBandwidthLimit_case s1 s2 :
  ToUpper s1 = ToUpper s2 -> ParseBandwidthLimit s1 = ParseBandwidthLimit s2.
Proof.
  intros H. unfold ParseBandwidthLimit.
  destruct (String.eqb_spec s1 "") as [E1 | N1];
    destruct (String.eqb_spec s2 "") as [E2 | N2].
  - reflexivity.
  - exfalso. apply N2. apply ToUpper_empty. rewrite <- H, E1. reflexivity.
  - exfalso. apply N1. apply ToUpper_empty. rewrite H, E2. reflexivity.
  - rewrite H. reflexivity.
Qed.

(** A decimal magnitude with its sign, if any: a non-empty string of
    digits, points, [+] and [-]. *)
Definition is_magnitude_char (c : ascii) : bool :=
  ((48 <=? code c) && (code c <=? 57)) || (code c =? 46)
  || (code c =? 43) || (code c =? 45).

Definition is_magnitude (s : string) : bool :=
  negb (String.eqb s "") && all_chars is_magnitude_char s.

(** The unit suffixes and their multipliers; the empty suffix is plain
    bytes. *)
Definition units : list (string * Z) :=
  [ ("", 1); ("B", 1); ("K", 1024); ("KB", 1024);
    ("M", 1024 * 1024); ("MB", 1024 * 1024);
    ("G", 1024 * 1024 * 1024); ("GB", 1024 * 1024 * 1024) ]%string.

Definition value_of (r : result Z) : option Z :=
  match r with Ok z => Some z | Err _ => None end.

Lemma all_chars_impl (f g : ascii -> bool) s :
  (forall c, f c = true -> g c = true) ->
  all_chars f s = true -> all_chars g s = true.
Proof.
  intros Hfg. unfold all_chars. rewrite !forallb_forall.
  intros H c Hin. apply Hfg, H, Hin.
Qed.

Lemma code_range c : 0 <= code c < 256.
Proof.
  unfold code. pose proof (N_ascii_bounded c) as B. lia.
Qed.

Lemma magnitude_char_upper c :
  is_magnitude_char c = true -> Ascii.eqb (upper_ascii c) c = true.
Proof.
  unfold is_magnitude_char, upper_ascii. intros H.
  destruct ((97 <=? code c) && (code c <=? 122)) eqn:E.
  - exfalso. lia.
  - apply Ascii.eqb_refl.
Qed.

Lemma magnitude_char_plain c : is_magnitude_char c = true -> plain c = true.
Proof.
  unfold is_magnitude_char, plain, is_space. intros H.
  apply andb_true_intro. split; [| apply negb_true_iff]; lia.
Qed.

Lemma plain_ascii c : plain c = true -> (code c <? 128) = true.
Proof. unfold plain. intros H. apply andb_prop in H. apply H. Qed.

(** A magnitude does not end with a letter. *)
Lemma magnitude_end c p num :
  all_chars is_magnitude_char num = true ->
  is_magnitude_char c = false ->
  starts_with (c :: p) (rev (chars num)) = false.
Proof.
  intros Hm Hc. unfold all_chars in Hm. rewrite forallb_forall in Hm.
  destruct (rev (chars num)) as [| d l] eqn:E; [reflexivity |].
  cbn [starts_with].
  destruct (Ascii.eqb_spec c d) as [-> | _]; [| reflexivity].
  exfalso. assert (Hin : In d (chars num)).
  { apply in_rev. rewrite E. left. reflexivity. }
  rewrite (Hm d Hin) in Hc. discriminate.
Qed.

Ltac suffix_test Hm :=
  unfold HasSuffix; rewrite ?rev_chars_app;
  cbn [chars list_ascii_of_string rev app starts_with];
  repeat match goal with
         | |- context [Ascii.eqb ?a ?b] =>
             let v := eval vm_compute in (Ascii.eqb a b) in
             change (Ascii.eqb a b) with v
         end;
  cbn [andb];
  try reflexivity;
  try (apply (magnitude_end _ _ _ Hm); reflexivity).

Lemma append_empty_r s : (s ++ "")%string = s.
Proof. induction s as [| c s IH]; cbn; [reflexivity | rewrite IH; reflexivity]. Qed.

Lemma suffix_switch_unit num u m :
  all_chars is_magnitude_char num = true ->
  In (u, m) units ->
  suffix_switch (num ++ u) = (m, num).
Proof.
  intros Hm Hin. unfold units in Hin. cbn [In] in Hin.
  destruct Hin as [E | [E | [E | [E | [E | [E | [E | [E | []]]]]]]]];
    injection E as <- <-; unfold suffix_switch.
  - rewrite append_empty_r.
    replace (HasSuffix num "G") with false by (symmetry; suffix_test Hm).
    replace (HasSuffix num "GB") with false by (symmetry; suffix_test Hm).
    replace (HasSuffix num "M") with false by (symmetry; suffix_test Hm).
    replace (HasSuffix num "MB") with false by (symmetry; suffix_test Hm).
    replace (HasSuffix num "K") with false by (symmetry; suffix_test Hm).
    replace (HasSuffix num "KB") with false by (symmetry; suffix_test Hm).
    replace (HasSuffix num "B") with false by (symmetry; suffix_test Hm).
    reflexivity.
  - replace (HasSuffix (num ++ "B") "G") with false by (symmetry; suffix_test Hm).
    replace (HasSuffix (num ++ "B") "GB") with false by (symmetry; suffix_test Hm).
    replace (HasSuffix (num ++ "B") "M") with false by (symmetry; suffix_test Hm).
    replace (HasSuffix (num ++ "B") "MB") with false by (symmetry; suffix_test Hm).
    replace (HasSuffix (num ++ "B") "K") with false by (symmetry; suffix_test Hm).
    replace (HasSuffix (num ++ "B") "KB") with false by (symmetry; suffix_test Hm).
    rewrite HasSuffix_app, TrimSuffix_app. reflexivity.
  - replace (HasSuffix (num ++ "K") "G") with false by (symmetry; suffix_test Hm).
    replace (HasSuffix (num ++ "K") "GB") with false by (symmetry; suffix_test Hm).
    replace (HasSuffix (num ++ "K") "M") with false by (symmetry; suffix_test Hm).
    replace (HasSuffix (num ++ "K") "MB") with false by (symmetry; suffix_test Hm).
    rewrite HasSuffix_app, TrimSuffix_app. reflexivity.
  - replace (HasSuffix (num ++ "KB") "G") with false by (symmetry; suffix_test Hm).
    replace (HasSuffix (num ++ "KB") "GB") with false by (symmetry; suffix_test Hm).
    replace (HasSuffix (num ++ "KB") "M") with false by (symmetry; suffix_test Hm).
    replace (HasSuffix (num ++ "KB") "MB") with false by (symmetry; suffix_test Hm).
    replace (HasSuffix (num ++ "KB") "K") with false by (symmetry; suffix_test Hm).
    rewrite HasSuffix_app, TrimSuffix_app. reflexivity.
  - replace (HasSuffix (num ++ "M") "G") with false by (symmetry; suffix_test Hm).
    replace (HasSuffix (num ++ "M") "GB") with false by (symmetry; suffix_test Hm).
    rewrite HasSuffix_app, TrimSuffix_app. reflexivity.
  - replace (HasSuffix (num ++ "MB") "G") with false by (symmetry; suffix_test Hm).
    replace (HasSuffix (num ++ "MB") "GB") with false by (symmetry; suffix_test Hm).
    replace (HasSuffix (num ++ "MB") "M") with false by (symmetry; suffix_test Hm).
    rewrite HasSuffix_app, TrimSuffix_app. reflexivity.
  - rewrite HasSuffix_app, TrimSuffix_app. reflexivity.
  - replace (HasSuffix (num ++ "GB") "G") with false by (symmetry; suffix_test Hm).
    rewrite HasSuffix_app, TrimSuffix_app. reflexivity.
Qed.

(** With a magnitude in front of a unit suffix, the numeric portion is the
    magnitude and the multiplier the one of the suffix. *)
Lemma ParseBandwidthLimit_unit num u m :
  is_magnitude num = true ->
  In (u, m) units ->
  match Strconv.ParseFloat num with
  | Err _ => is_err (ParseBandwidthLimit (num ++ u)) = true
  | Ok v =>
      if le v (S754_zero false)
      then is_err (ParseBandwidthLimit (num ++ u)) = true
      else ParseBandwidthLimit (num ++ u)
           = Ok (to_int64 (mul v (of_int m)))
  end.
Proof.
  intros Hmag Hin. unfold is_magnitude in Hmag.
  apply andb_prop in Hmag. destruct Hmag as [Hne Hm].
  assert (Hu : all_chars (fun c => Ascii.eqb (upper_ascii c) c) u = true
               /\ all_chars plain u = true).
  { unfold units in Hin. cbn [In] in Hin.
    destruct Hin as [E | [E | [E | [E | [E | [E | [E | [E | []]]]]]]]];
      injection E as <- <-; split; reflexivity. }
  destruct Hu as [Hup Hsp].
  assert (Hplain : all_chars plain (num ++ u) = true).
  { rewrite all_chars_app, Hsp, andb_true_r.
    apply (all_chars_impl is_magnitude_char); [| exact Hm].
    apply magnitude_char_plain. }
  unfold ParseBandwidthLimit.
  destruct (String.eqb_spec (num ++ u) "") as [E | _].
  { destruct num; [discriminate Hne | discriminate E]. }
  rewrite ToUpper_fixed.
  2:{ apply (all_chars_impl plain); [apply plain_ascii | exact Hplain]. }
  2:{ rewrite all_chars_app, Hup, andb_true_r.
      apply (all_chars_impl is_magnitude_char); [| exact Hm].
      apply magnitude_char_upper. }
  rewrite TrimSpace_fixed by exact Hplain.
  rewrite (suffix_switch_unit num u m Hm Hin).
  destruct (Strconv.ParseFloat num) as [v | e]; [| reflexivity].
  destruct (le v (S754_zero false)); reflexivity.
Qed.

(** Whether a magnitude is accepted does not depend on the unit that
    follows it, and two units with the same multiplier give the same value. *)
Lemma ParseBandwidthLimit_units num u1 m1 u2 m2 :
  is_magnitude num = true ->
  In (u1, m1) units ->
  In (u2, m2) units ->
  is_err (ParseBandwidthLimit (num ++ u1))
  = is_err (ParseBandwidthLimit (num ++ u2))
  /\ (m1 = m2 ->
      value_of (ParseBandwidthLimit (num ++ u1))
      = value_of (ParseBandwidthLimit (num ++ u2))).
Proof.
  intros Hmag H1 H2.
  pose proof (ParseBandwidthLimit_unit num u1 m1 Hmag H1) as P1.
  pose proof (ParseBandwidthLimit_unit num u2 m2 Hmag H2) as P2.
  destruct (Strconv.ParseFloat num) as [v | e].
  - destruct (le v (S754_zero false)).
    + rewrite P1, P2. split; [reflexivity |]. intros _.
      destruct (ParseBandwidthLimit (num ++ u1)); [discriminate P1 |].
      destruct (ParseBandwidthLimit (num ++ u2)); [discriminate P2 |].
      reflexivity.
    + rewrite P1, P2. split; [reflexivity |]. intros ->. reflexivity.
  - rewrite P1, P2. split; [reflexivity |]. intros _.
    destruct (ParseBandwidthLimit (num ++ u1)); [discriminate P1 |].
    destruct (ParseBandwidthLimit (num ++ u2)); [discriminate P2 |].
    reflexivity.
Qed.

(** A numeric portion that does not parse, or parses to a value that is not
    above zero, makes the whole input an error. *)
Lemma ParseBandwidthLimit_rejects s :
  s <> ""%string ->
  match Strconv.ParseFloat (snd (suffix_switch (TrimSpace (ToUpper s)))) with
  | Err _ => True
  | Ok num => le num (S754_zero false) = true
  end ->
  is_err (ParseBandwidthLimit s) = true.
Proof.
  intros Hne H. unfold ParseBandwidthLimit.
  destruct (String.eqb_spec s "") as [E | _]; [contradiction |].
  destruct (suffix_switch (TrimSpace (ToUpper s))) as [m numStr].
  cbn [snd] in H.
  destruct (Strconv.ParseFloat numStr) as [v | e]; [| reflexivity].
  rewrite H. reflexivity.
Qed.

(** *** The reader [NewThrottledReader] returns, as its callers use it *)

(** [NewThrottledReader] returns an [io.Reader]: the reader it was given or
    the wrapper, each with its own [Read]. *)
Definition Read_of (R : Type) (inner : read_fn R) (clock : nat -> Z)
    : read_fn (R + ThrottledReader R) :=
  fun s n =>
    match s with
    | inl r => let '(data, err, r') := inner r n in (data, err, inl r')
    | inr t => let '(data, err, t') := Read R inner clock t n in (data, err, inr t')
    end.

(** What is left to read of an in-memory source behind such a reader. *)
Definition unread (s : list byte + ThrottledReader (list byte)) : list byte :=
  match s with inl r => r | inr t => reader t end.

Section Front.
Variable R : Type.
Variable read : read_fn R.
Variable rest : R -> list byte.

(** A reader that takes the bytes it returns from the front of what is left,
    returns no byte together with an error, and reports the end of the source
    only when nothing is left. *)
Definition front_reader : Prop :=
  forall r n,
    let '(data, err, r') := read r n in
    rest r = data ++ rest r'
    /\ (err = None \/ (data = [] /\ (err = Some EOF -> rest r = []))).

Hypothesis Hfront : front_reader.

Lemma copy_front ctx :
  forall fuel i written (r : R) (dst : list byte),
    match copy_loop read buffer_write ctx fuel i written r dst with
    | Returned n err r' dst' =>
        dst' ++ rest r' = dst ++ rest r
        /\ n - written = Z.of_nat (length dst') - Z.of_nat (length dst)
        /\ (err = None -> rest r' = [])
    | Turning n r' dst' =>
        dst' ++ rest r' = dst ++ rest r
        /\ n - written = Z.of_nat (length dst') - Z.of_nat (length dst)
    end.
Proof.
  induction fuel as [| fuel IH]; intros i written r dst.
  - cbn [copy_loop]. split; [reflexivity | lia].
  - cbn [copy_loop]. destruct (ctx i) as [d |].
    { split; [reflexivity | split; [lia | destruct d; discriminate]]. }
    pose proof (Hfront r chunk) as H.
    destruct (read r chunk) as [[data rerr] r'].
    destruct H as [Hsplit Herr].
    unfold buffer_write.
    destruct (Z.ltb_spec 0 (Z.of_nat (length data))) as [Hpos | Hzero].
    + rewrite Z.eqb_refl. cbn [negb].
      destruct (Z.ltb_spec 0 (Z.of_nat (length data))) as [_ | ?]; [| lia].
      destruct Herr as [-> | [-> _]]; [| cbn [length] in Hpos; lia].
      specialize (IH (S i) (written + Z.of_nat (length data)) r' (dst ++ data)).
      destruct (copy_loop _ _ _ fuel (S i) _ r' (dst ++ data))
        as [n err r'' dst'' | n r'' dst''].
      * destruct IH as [Hcat [Hn Hnone]].
        rewrite Hcat, Hsplit, <- app_assoc, length_app in *.
        repeat split; [lia | exact Hnone].
      * destruct IH as [Hcat Hn].
        rewrite Hcat, Hsplit, <- app_assoc, length_app in *.
        split; [reflexivity | lia].
    + assert (data = []) as ->
        by (destruct data; [reflexivity | cbn [length] in Hzero; lia]).
      cbn [app] in Hsplit.
      destruct rerr as [e |].
      * assert (Hend : e = EOF -> rest r = []).
        { intros ->. destruct Herr as [Hn | [_ He]]; [discriminate Hn |].
          apply He. reflexivity. }
        destruct e; try (rewrite Hsplit; split; [reflexivity |];
                         split; [lia | discriminate]).
        rewrite Hsplit. split; [reflexivity |]. split; [lia |].
        intros _. rewrite <- Hsplit. apply Hend. reflexivity.
      * specialize (IH (S i) written r' dst).
        destruct (copy_loop _ _ _ fuel (S i) written r' dst)
          as [n err r'' dst'' | n r'' dst''].
        -- destruct IH as [Hcat [Hn Hnone]]. rewrite Hcat, Hsplit.
           repeat split; assumption.
        -- destruct IH as [Hcat Hn]. rewrite Hcat, Hsplit.
           split; [reflexivity | exact Hn].
Qed.

End Front.

Lemma slice_read_front : front_reader (list byte) slice_read (fun r => r).
Proof.
  intros r n. unfold slice_read. destruct r as [| b r].
  - split; [reflexivity |]. right. split; reflexivity.
  - split; [symmetry; apply firstn_skipn | left; reflexivity].
Qed.

Lemma Read_of_front clock :
  front_reader _ (Read_of (list byte) slice_read clock) unread.
Proof.
  intros [r | t] n; cbn [Read_of].
  - pose proof (slice_read_front r n) as H.
    destruct (slice_read r n) as [[data err] r']. exact H.
  - pose proof (throttled_Read_front clock t n) as H.
    destruct (Read (list byte) slice_read clock t n) as [[data err] t'].
    cbn [unread]. destruct H as [Hsplit Herr]. split; [exact Hsplit |].
    destruct Herr as [-> | [[-> [-> Hnil]] | [m [-> ->]]]].
    + left. reflexivity.
    + right. split; [reflexivity | intros _; exact Hnil].
    + right. split; [reflexivity | discriminate].
Qed.

(** *** One [Read] of the throttled reader *)

(** A [Read] returns no more bytes than the buffer holds and no more than
    the bucket's capacity, and leaves at most the capacity in the bucket. *)
Lemma throttled_Read_bound clock (t : ThrottledReader (list byte)) n :
  0 <= r_bytesPerSec t ->
  let '(data, _, t') := Read (list byte) slice_read clock t n in
  (length data <= n)%nat
  /\ Z.of_nat (length data) <= r_bytesPerSec t
  /\ r_bucket t' <= r_bytesPerSec t
  /\ r_bytesPerSec t' = r_bytesPerSec t
  /\ r_calls t' = S (r_calls t).
Proof.
  intros Hcap. unfold Read.
  set (bucket := if r_bytesPerSec t <? _ then _ else _).
  assert (Hb : bucket <= r_bytesPerSec t).
  { unfold bucket.
    destruct (Z.ltb_spec (r_bytesPerSec t)
                (r_bucket t + refill (clock (r_calls t) - r_lastTime t)
                                (r_bytesPerSec t))); lia. }
  set (toRead := if bucket <? Z.of_nat n then bucket else Z.of_nat n).
  assert (Ht : toRead <= bucket /\ toRead <= Z.of_nat n).
  { unfold toRead. destruct (Z.ltb_spec bucket (Z.of_nat n)); lia. }
  destruct (Z.eqb_spec toRead 0) as [Hz | Hnz].
  - cbn [length r_bucket r_bytesPerSec r_calls]. repeat split; lia.
  - destruct (Z.ltb_spec toRead 0) as [Hneg | Hpos].
    + cbn [length r_bucket r_bytesPerSec r_calls]. repeat split; lia.
    + unfold slice_read. destruct (reader t) as [| b rest].
      * cbn [length r_bucket r_bytesPerSec r_calls]. repeat split; lia.
      * cbn [r_bucket r_bytesPerSec r_calls]. rewrite length_firstn.
        repeat split; lia.
Qed.

(** *** The copy loop runs to the end of an in-memory source *)

Lemma copy_loop_completes :
  forall fuel i written (src dst : list byte),
    (length src + chunk <= fuel * chunk)%nat ->
    copy_loop slice_read buffer_write Background fuel i written src dst
    = Returned (written + Z.of_nat (length src)) None [] (dst ++ src).
Proof.
  pose proof chunk_pos as Hp.
  induction fuel as [| fuel IH]; intros i written src dst Hf.
  - cbn [Nat.mul] in Hf. lia.
  - destruct src as [| b src].
    + cbn. rewrite app_nil_r, Z.add_0_r. reflexivity.
    + rewrite copy_loop_step by reflexivity.
      rewrite IH.
      * rewrite <- app_assoc, firstn_skipn. f_equal.
        rewrite length_skipn, length_firstn. lia.
      * rewrite length_skipn. cbn [length] in *.
        destruct fuel as [| fuel']; [lia |].
        change (S (S fuel') * chunk)%nat
          with (chunk + (chunk + fuel' * chunk))%nat in Hf.
        change (S fuel' * chunk)%nat with (chunk + fuel' * chunk)%nat.
        lia.
Qed.

(** *** Success of the copy loop, whatever the writer *)

Lemma copy_loop_success (W : Type) (write : write_fn W) ctx :
  forall fuel i written (src : list byte) (dst : W) n src' dst',
    copy_loop slice_read write ctx fuel i written src dst
    = Returned n None src' dst' ->
    n = written + Z.of_nat (length src) /\ src' = [].
Proof.
  induction fuel as [| fuel IH]; intros i written src dst n src' dst' H;
    cbn [copy_loop] in H; [discriminate H |].
  destruct (ctx i) as [d |]; [destruct d; discriminate H |].
  unfold slice_read in H. destruct src as [| b src].
  - cbn in H. injection H as <- <- <-. cbn [length]. split; [lia | reflexivity].
  - set (data := firstn chunk (b :: src)) in *.
    assert (Hd : 0 < Z.of_nat (length data)).
    { unfold data. rewrite length_firstn. pose proof chunk_pos.
      cbn [length]. lia. }
    destruct (Z.ltb_spec 0 (Z.of_nat (length data))) as [_ | ?]; [| lia].
    destruct (write dst data) as [[nw werr] dst1].
    destruct werr as [e |]; [discriminate H |].
    destruct (Z.eqb_spec (Z.of_nat (length data)) nw) as [E | _];
      cbn [negb] in H; [| discriminate H].
    destruct (Z.ltb_spec 0 nw) as [_ | ?]; [| lia].
    apply IH in H. destruct H as [-> ->]. split; [| reflexivity].
    rewrite <- E. unfold data. rewrite length_skipn, length_firstn. lia.
Qed.

(** *** What [Write] of the throttled writer has handed on when it returns *)

Lemma throttled_Write_prefix clock :
  forall fuel (t : ThrottledWriter (list byte)) p written n err t',
    0 <= written <= Z.of_nat (length p) ->
    Write_loop (list byte) buffer_write clock fuel t p written
    = Some (n, err, t') ->
    written <= n <= Z.of_nat (length p)
    /\ writer t' = writer t
                   ++ firstn (Z.to_nat (n - written)) (skipn (Z.to_nat written) p)
    /\ (err = None -> n = Z.of_nat (length p)).
Proof.
  induction fuel as [| fuel IH]; intros t p written n err t' Hw Hrun;
    cbn [Write_loop] in Hrun;
    destruct (Z.ltb_spec written (Z.of_nat (length p))) as [Hlt | Hge].
  - discriminate Hrun.
  - injection Hrun as <- <- <-. rewrite Z.sub_diag. cbn [Z.to_nat firstn].
    rewrite app_nil_r. repeat split; lia.
  - revert Hrun.
    set (bucket := if w_bytesPerSec t <? _ then _ else _).
    set (toWrite := if bucket <? Z.of_nat (length p) - written
                    then bucket else Z.of_nat (length p) - written).
    assert (Hto : toWrite <= Z.of_nat (length p) - written).
    { unfold toWrite.
      destruct (Z.ltb_spec bucket (Z.of_nat (length p) - written)); lia. }
    destruct (Z.eqb_spec toWrite 0) as [Hz | Hnz].
    + intros Hrun. apply IH in Hrun; [| exact Hw]. exact Hrun.
    + destruct (Z.ltb_spec toWrite 0) as [Hneg | Hpos].
      * cbn [orb]. intros Hrun. injection Hrun as <- <- <-.
        rewrite Z.sub_diag. cbn [Z.to_nat firstn writer].
        rewrite app_nil_r. repeat split; try lia. discriminate.
      * destruct (Z.ltb_spec written 0) as [? | _]; [lia |]. cbn [orb].
        unfold buffer_write.
        set (piece := firstn (Z.to_nat toWrite) (skipn (Z.to_nat written) p)).
        assert (Lp : Z.of_nat (length piece) = toWrite).
        { unfold piece. rewrite length_firstn, length_skipn. lia. }
        intros Hrun. apply IH in Hrun; [| lia].
        destruct Hrun as [Hn [Hwr Hnone]]. split; [lia |].
        split; [| exact Hnone].
        rewrite Hwr. cbn [writer]. rewrite <- app_assoc. f_equal.
        rewrite Lp.
        replace (Z.to_nat (n - written))
          with (Z.to_nat toWrite + Z.to_nat (n - (written + toWrite)))%nat
          by lia.
        rewrite firstn_plus. fold piece. f_equal.
        rewrite skipn_skipn. f_equal. f_equal. lia.
  - injection Hrun as <- <- <-. rewrite Z.sub_diag. cbn [Z.to_nat firstn].
    rewrite app_nil_r. repeat split; lia.
Qed.

End Throttle.

(** ** The progress bar ([internal/file/progress.go]) *)

Module Progress.
Import Float64.

(** One column of the bar: the runes U+2588 (filled) and U+2591 (unfilled). *)
Inductive cell : Type := Filled | Unfilled.

(** [strings.Repeat], which panics on a negative count. *)
Definition Repeat (c : cell) (count : Z) : result (list cell) :=
  if count <? 0 then Err (Panic "strings: negative Repeat count")
  else Ok (repeat c (Z.to_nat count)).

(** The fields of [ProgressWriter] and of [ProgressReader] that the bar
    depends on; [lastPrint] is [None] for the zero [time.Time]. *)
Record progress : Type := mkProgress {
  total : Z;
  current : Z;
  quiet : bool;
  lastPrint : option Z
}.

(** What [printProgress] shows of the transfer: the percentage and the bar
    between the brackets.  (The sizes, the speed and the ETA printed after
    them do not enter the bar.) *)
Record line : Type := mkLine { percent : float64; bar : result (list cell) }.

(** Whether [printProgress] prints at all: not when quiet, and not within
    100 ms of the last print. *)
Definition due (p : progress) (now : Z) : bool :=
  negb (quiet p) &&
  match lastPrint p with
  | None => true
  | Some last => negb (now - last <? 100 * 1000000)
  end.

Definition percent_of (p : progress) : float64 :=
  if 0 <? total p
  then mul (div (of_int (current p)) (of_int (total p))) (of_int 100)
  else S754_zero false.

Definition render (barWidth : Z) (pct : float64) : result (list cell) :=
  let filled := to_int64 (mul (div pct (of_int 100)) (of_int barWidth)) in
  let filled := if barWidth <? filled then barWidth else filled in
  match Repeat Filled filled, Repeat Unfilled (barWidth - filled) with
  | Ok a, Ok b => Ok (a ++ b)
  | Err e, _ => Err e
  | _, Err e => Err e
  end.

(** [ProgressWriter.printProgress]; [size] is the answer of
    [term.GetSize] for standard output, width first. *)
Definition ProgressWriter_printProgress (p : progress) (now : Z)
    (size : result (Z * Z)) : option line * progress :=
  if negb (due p now) then (None, p)
  else
    let p' := mkProgress (total p) (current p) (quiet p) (Some now) in
    let pct := percent_of p in
    let barWidth := 30 in
    let barWidth :=
      match size with
      | Ok (w, _) => if 80 <? w then 40 else barWidth
      | Err _ => barWidth
      end in
    (Some (mkLine pct (render barWidth pct)), p').

(** [ProgressReader.printProgress], commented in the source as "same as
    ProgressWriter": it never asks for the terminal size. *)
Definition ProgressReader_printProgress (p : progress) (now : Z)
    : option line * progress :=
  if negb (due p now) then (None, p)
  else
    let p' := mkProgress (total p) (current p) (quiet p) (Some now) in
    let pct := percent_of p in
    let barWidth := 30 in
    (Some (mkLine pct (render barWidth pct)), p').

(** The number of columns of the bar printed, if one is printed. *)
Definition columns (printed : option line * progress) : option nat :=
  match fst printed with
  | Some l => match bar l with Ok cells => Some (length cells) | Err _ => None end
  | None => None
  end.

Example writer_bar_half :
  option_map bar (fst (ProgressWriter_printProgress
                         (mkProgress 1000 500 false None) 0 (Ok (80, 24))))
  = Some (Ok (repeat Filled 15 ++ repeat Unfilled 15)).
Proof. vm_compute. reflexivity. Qed.

(** *** [ProgressWriter] as an [io.Writer] *)

Section Writer.
Variable W : Type.
Variable inner : IO.write_fn W.
(** [clock k] is the time read by the [k]-th call of [printProgress], and
    [size] what [term.GetSize] answers. *)
Variable clock : nat -> Z.
Variable size : result (Z * Z).

(** The wrapper: the underlying writer, the fields the bar depends on, the
    number of calls of [printProgress] so far and the lines they printed. *)
Record ProgressWriter : Type := mkProgressWriter {
  pw_writer : W;
  pw_state : progress;
  pw_prints : nat;
  pw_shown : list line
}.

Definition NewProgressWriter (w : W) (total : Z) (quiet : bool)
    : ProgressWriter :=
  mkProgressWriter w (mkProgress total 0 quiet None) O [].

(** The panic of [strings.Repeat]. *)
Definition negative_Repeat : error := Panic "strings: negative Repeat count".

(** [ProgressWriter.Write].  A panic is passed on: the one of the
    underlying writer before anything else is done, the one of
    [strings.Repeat] in [printProgress] before the line is printed and in
    place of what the underlying writer returned. *)
Definition Write : IO.write_fn ProgressWriter :=
  fun p data =>
    let '(n, err, w') := inner (pw_writer p) data in
    match err with
    | Some (Panic _) =>
        (n, err, mkProgressWriter w' (pw_state p) (pw_prints p) (pw_shown p))
    | _ =>
        let st := mkProgress (total (pw_state p)) (current (pw_state p) + n)
                    (quiet (pw_state p)) (lastPrint (pw_state p)) in
        let '(printed, st') :=
          ProgressWriter_printProgress st (clock (pw_prints p)) size in
        match printed with
        | Some l =>
            match bar l with
            | Ok _ =>
                (n, err,
                 mkProgressWriter w' st' (S (pw_prints p)) (pw_shown p ++ [l]))
            | Err e =>
                (n, Some e,
                 mkProgressWriter w' st' (S (pw_prints p)) (pw_shown p))
            end
        | None =>
            (n, err, mkProgressWriter w' st' (S (pw_prints p)) (pw_shown p))
        end
    end.

End Writer.

Arguments pw_writer {W} _.
Arguments pw_state {W} _.
Arguments pw_prints {W} _.
Arguments pw_shown {W} _.
Arguments mkProgressWriter {W} _ _ _ _.

(** *** The width of the bar *)

Lemma Repeat_length c count cells :
  Repeat c count = Ok cells -> Z.of_nat (length cells) = count.
Proof.
  unfold Repeat. destruct (Z.ltb_spec count 0) as [? | Hpos]; [discriminate |].
  intros H. injection H as <-. rewrite repeat_length. lia.
Qed.

Lemma render_width barWidth pct cells :
  render barWidth pct = Ok cells -> Z.of_nat (length cells) = barWidth.
Proof.
  unfold render.
  set (filled := if barWidth <? _ then barWidth else _).
  destruct (Repeat Filled filled) as [a | e] eqn:Ea; [| discriminate].
  destruct (Repeat Unfilled (barWidth - filled)) as [b | e] eqn:Eb;
    [| discriminate].
  intros H. injection H as <-.
  apply Repeat_length in Ea. apply Repeat_length in Eb.
  rewrite length_app. lia.
Qed.

(** The state after a call of [printProgress] differs at most in
    [lastPrint]. *)
Lemma printProgress_keeps st now size :
  let st' := snd (ProgressWriter_printProgress st now size) in
  total st' = total st /\ current st' = current st /\ quiet st' = quiet st.
Proof.
  unfold ProgressWriter_printProgress. destruct (negb (due st now));
    cbn [snd total current quiet]; repeat split.
Qed.

(** The only panic of [render] is the one of [strings.Repeat]. *)
Lemma render_panic barWidth pct e :
  render barWidth pct = Err e -> e = negative_Repeat.
Proof.
  unfold render, Repeat.
  set (filled := if barWidth <? _ then barWidth else _).
  destruct (filled <? 0); [intros H; injection H as <-; reflexivity |].
  destruct (barWidth - filled <? 0); [| discriminate].
  intros H. injection H as <-. reflexivity.
Qed.

(** No bar is attempted when the writer is quiet, and the bar of a transfer
    of unknown size ([total] not above zero) is the empty one. *)
Definition calm_bar (st : progress) : Prop := quiet st = true \/ total st <= 0.

Lemma printProgress_calm st now size :
  calm_bar st ->
  match fst (ProgressWriter_printProgress st now size) with
  | Some l => exists cells, bar l = Ok cells
  | None => True
  end.
Proof.
  unfold calm_bar, ProgressWriter_printProgress, due. intros [Hq | Ht].
  - rewrite Hq. exact I.
  - destruct (negb (negb (quiet st) && _)); cbn [fst bar]; [exact I |].
    unfold percent_of.
    destruct (Z.ltb_spec 0 (total st)) as [? | _]; [lia |].
    destruct size as [[w h] | e]; [destruct (80 <? w) |];
      eexists; vm_compute; reflexivity.
Qed.

(** *** What [Write] adds to the underlying writer *)

Section WriteFacts.
Variable W : Type.
Variable inner : IO.write_fn W.
Variable clock : nat -> Z.
Variable size : result (Z * Z).

(** [Write] returns the count of the underlying writer and leaves it in the
    same state; the error is the one of the underlying writer unless the bar
    panics, which it does not for a calm bar; [total] and [quiet] are kept,
    and [current] has grown by the count unless the underlying writer
    panicked. *)
Lemma Write_outcome (p : ProgressWriter W) (data : list byte) :
  let '(n, err, w') := inner (pw_writer p) data in
  let '(n', err', p') := Write W inner clock size p data in
  n' = n /\ pw_writer p' = w'
  /\ (err' = err \/ err' = Some negative_Repeat)
  /\ (calm_bar (pw_state p) -> err' = err)
  /\ total (pw_state p') = total (pw_state p)
  /\ quiet (pw_state p') = quiet (pw_state p)
  /\ (err = None -> current (pw_state p') = current (pw_state p) + n).
Proof.
  unfold Write. destruct (inner (pw_writer p) data) as [[n err] w'].
  assert (P : forall m, err = Some (Panic m) ->
            let '(n', err', p') :=
              (n, err, mkProgressWriter w' (pw_state p) (pw_prints p)
                         (pw_shown p)) in
            n' = n /\ pw_writer p' = w'
            /\ (err' = err \/ err' = Some negative_Repeat)
            /\ (calm_bar (pw_state p) -> err' = err)
            /\ total (pw_state p') = total (pw_state p)
            /\ quiet (pw_state p') = quiet (pw_state p)
            /\ (err = None -> current (pw_state p') = current (pw_state p) + n)).
  { intros m ->. cbn [pw_writer pw_state]. repeat split; auto; discriminate. }
  set (st := mkProgress (total (pw_state p)) (current (pw_state p) + n)
               (quiet (pw_state p)) (lastPrint (pw_state p))).
  assert (Q : let '(n', err', p') :=
                let '(printed, st') :=
                  ProgressWriter_printProgress st (clock (pw_prints p)) size in
                match printed with
                | Some l =>
                    match bar l with
                    | Ok _ =>
                        (n, err,
                         mkProgressWriter w' st' (S (pw_prints p))
                           (pw_shown p ++ [l]))
                    | Err e =>
                        (n, Some e,
                         mkProgressWriter w' st' (S (pw_prints p)) (pw_shown p))
                    end
                | None =>
                    (n, err,
                     mkProgressWriter w' st' (S (pw_prints p)) (pw_shown p))
                end in
              n' = n /\ pw_writer p' = w'
              /\ (err' = err \/ err' = Some negative_Repeat)
              /\ (calm_bar (pw_state p) -> err' = err)
              /\ total (pw_state p') = total (pw_state p)
              /\ quiet (pw_state p') = quiet (pw_state p)
              /\ (err = None ->
                  current (pw_state p') = current (pw_state p) + n)).
  { pose proof (printProgress_keeps st (clock (pw_prints p)) size) as K.
    pose proof (printProgress_calm st (clock (pw_prints p)) size) as C.
    assert (Hl : forall l,
              fst (ProgressWriter_printProgress st (clock (pw_prints p)) size)
              = Some l ->
              forall e, bar l = Err e -> e = negative_Repeat).
    { unfold ProgressWriter_printProgress.
      destruct (negb (due st (clock (pw_prints p)))); cbn [fst];
        [discriminate |].
      intros l H e. injection H as <-. cbn [bar]. apply render_panic. }
    destruct (ProgressWriter_printProgress st (clock (pw_prints p)) size)
      as [printed st'].
    cbn [fst snd] in *. destruct K as [Kt [Kc Kq]].
    unfold st in Kt, Kc, Kq. cbn [total current quiet] in Kt, Kc, Kq.
    destruct printed as [l |].
    - destruct (bar l) as [cells | e] eqn:El.
      + cbn [pw_writer pw_state]. repeat split; auto.
      + cbn [pw_writer pw_state].
        rewrite (Hl l eq_refl e El).
        repeat split; auto.
        intros Hcalm. exfalso.
        assert (Hst : calm_bar st) by exact Hcalm.
        destruct (C Hst) as [cells Hc]. discriminate Hc.
    - cbn [pw_writer pw_state]. repeat split; auto. }
  destruct err as [e |]; [destruct e |]; try exact Q.
  exact (P msg eq_refl).
Qed.

End WriteFacts.

(** *** A copy through a [ProgressWriter] *)

(** The wrapped copy has the outcome of the plain one. *)
Definition same_outcome {R W : Type} (plain : Throttle.copied R W)
    (wrapped : Throttle.copied R (ProgressWriter W)) : Prop :=
  match plain, wrapped with
  | Throttle.Returned n e s d, Throttle.Returned n' e' s' p' =>
      n' = n /\ e' = e /\ s' = s /\ pw_writer p' = d
  | Throttle.Turning n s d, Throttle.Turning n' s' p' =>
      n' = n /\ s' = s /\ pw_writer p' = d
  | _, _ => False
  end.

(** The wrapped copy ended with the panic of the bar. *)
Definition stopped_by_bar {R W : Type}
    (wrapped : Throttle.copied R (ProgressWriter W)) : Prop :=
  match wrapped with
  | Throttle.Returned _ (Some e) _ _ => e = negative_Repeat
  | _ => False
  end.

Section Transparent.
Variables R W : Type.
Variable read : IO.read_fn R.
Variable inner : IO.write_fn W.
Variable clock : nat -> Z.
Variable size : result (Z * Z).
Variable ctx : nat -> option Throttle.done.

Lemma copy_through_progress :
  forall fuel i written (src : R) (p : ProgressWriter W),
    let plain := Throttle.copy_loop read inner ctx fuel i written src
                   (pw_writer p) in
    let wrapped := Throttle.copy_loop read (Write W inner clock size) ctx fuel
                     i written src p in
    (stopped_by_bar wrapped \/ same_outcome plain wrapped)
    /\ (calm_bar (pw_state p) -> same_outcome plain wrapped).
Proof.
  induction fuel as [| fuel IH]; intros i written src p; cbv zeta;
    cbn [Throttle.copy_loop]; [split; [right |]; repeat split |].
  destruct (ctx i) as [d |]; [split; [right |]; repeat split |].
  destruct (read src Throttle.chunk) as [[data rerr] src'].
  destruct (0 <? Z.of_nat (length data)).
  - pose proof (Write_outcome W inner clock size p data) as O.
    destruct (inner (pw_writer p) data) as [[nw werr] w'].
    destruct (Write W inner clock size p data) as [[nw' werr'] p1].
    destruct O as [-> [Hw [He [Hcalm [Ht [Hq _]]]]]].
    assert (Hcalm1 : calm_bar (pw_state p) -> calm_bar (pw_state p1)).
    { unfold calm_bar. rewrite Ht, Hq. exact (fun H => H). }
    assert (Same : werr' = werr ->
              let plain :=
                match
                  match werr with
                  | Some e =>
                      inl (Throttle.Returned
                             (if 0 <? nw then written + nw else written)
                             (Some e) src' w')
                  | None =>
                      if negb (Z.of_nat (length data) =? nw)
                      then inl (Throttle.Returned
                                  (if 0 <? nw then written + nw else written)
                                  (Some ErrShortWrite) src' w')
                      else inr (if 0 <? nw then written + nw else written, w')
                  end
                with
                | inl r => r
                | inr (written', dst') =>
                    match rerr with
                    | Some EOF => Throttle.Returned written' None src' dst'
                    | Some e => Throttle.Returned written' (Some e) src' dst'
                    | None =>
                        Throttle.copy_loop read inner ctx fuel (S i) written'
                          src' dst'
                    end
                end in
              let wrapped :=
                match
                  match werr' with
                  | Some e =>
                      inl (Throttle.Returned
                             (if 0 <? nw then written + nw else written)
                             (Some e) src' p1)
                  | None =>
                      if negb (Z.of_nat (length data) =? nw)
                      then inl (Throttle.Returned
                                  (if 0 <? nw then written + nw else written)
                                  (Some ErrShortWrite) src' p1)
                      else inr (if 0 <? nw then written + nw else written, p1)
                  end
                with
                | inl r => r
                | inr (written', dst') =>
                    match rerr with
                    | Some EOF => Throttle.Returned written' None src' dst'
                    | Some e => Throttle.Returned written' (Some e) src' dst'
                    | None =>
                        Throttle.copy_loop read (Write W inner clock size) ctx
                          fuel (S i) written' src' dst'
                    end
                end in
              (stopped_by_bar wrapped \/ same_outcome plain wrapped)
              /\ (calm_bar (pw_state p) -> same_outcome plain wrapped)).
    { intros ->. cbv zeta.
      destruct werr as [e |]; [split; [right |]; repeat split; exact Hw |].
      destruct (negb (Z.of_nat (length data) =? nw));
        [split; [right |]; repeat split; exact Hw |].
      destruct rerr as [e |].
      - destruct e; (split; [right |]; repeat split; exact Hw).
      - specialize (IH (S i) (if 0 <? nw then written + nw else written)
                      src' p1).
        cbv zeta in IH. rewrite Hw in IH. destruct IH as [IH1 IH2].
        split; [exact IH1 |]. intros Hc. apply IH2, Hcalm1, Hc. }
    destruct He as [He | He]; [exact (Same He) |].
    split.
    + rewrite He. left. reflexivity.
    + intros Hc. exact (proj2 (Same (Hcalm Hc)) Hc).
  - destruct rerr as [e |].
    + destruct e; (split; [right |]; repeat split).
    + apply IH.
Qed.

End Transparent.

(** The counter of the wrapper follows the count of the copy. *)
Lemma copy_progress_counts (R : Type) (read : IO.read_fn R) clock size ctx :
  forall fuel i written (src : R) (p : ProgressWriter (list byte)),
    match Throttle.copy_loop read (Write _ IO.buffer_write clock size) ctx
            fuel i written src p with
    | Throttle.Returned n _ _ p' | Throttle.Turning n _ p' =>
        current (pw_state p') - current (pw_state p) = n - written
        /\ total (pw_state p') = total (pw_state p)
    end.
Proof.
  induction fuel as [| fuel IH]; intros i written src p;
    cbn [Throttle.copy_loop]; [split; [lia | reflexivity] |].
  destruct (ctx i) as [d |]; [split; [lia | reflexivity] |].
  destruct (read src Throttle.chunk) as [[data rerr] src'].
  destruct (Z.ltb_spec 0 (Z.of_nat (length data))) as [Hpos | Hzero].
  - pose proof (Write_outcome _ IO.buffer_write clock size p data) as O.
    unfold IO.buffer_write at 1 in O.
    destruct (Write _ IO.buffer_write clock size p data) as [[nw werr] p1].
    destruct O as [-> [_ [_ [_ [Ht [_ Hc]]]]]]. specialize (Hc eq_refl).
    destruct (Z.ltb_spec 0 (Z.of_nat (length data))) as [_ | ?]; [| lia].
    destruct werr as [e |]; [split; [lia | exact Ht] |].
    rewrite Z.eqb_refl. cbn [negb].
    destruct rerr as [e |].
    + destruct e; (split; [lia | exact Ht]).
    + specialize (IH (S i) (written + Z.of_nat (length data)) src' p1).
      destruct (Throttle.copy_loop _ _ _ fuel (S i) _ src' p1)
        as [n e s' p' | n s' p']; destruct IH as [Hc' Ht'];
        (split; [lia | congruence]).
  - destruct rerr as [e |].
    + destruct e; (split; [lia | reflexivity]).
    + apply IH.
Qed.

End Progress.

(** ** Paths ([internal/file/parse.go]) *)

(** [path/filepath] is the platform's: its separator and the functions the
    code calls are taken as a parameter, and [unix] is the instance for
    Unix-like systems, written after the package documentation. *)
Module Filepath.
Import GoStrings.

Record Platform : Type := mkPlatform {
  Separator : string;
  Base : string -> string;
  Join : string -> string -> string;
  Dir : string -> string
}.

Definition slash : ascii := ascii_of_nat 47.

(** The elements between the slashes. *)
Fixpoint split_slash (s : list ascii) (cur : list ascii) : list (list ascii) :=
  match s with
  | [] => [rev cur]
  | c :: r =>
      if Ascii.eqb c slash then rev cur :: split_slash r []
      else split_slash r (c :: cur)
  end.

Definition dot : list ascii := chars ".".
Definition dotdot : list ascii := chars "..".

Definition list_ascii_eqb (a b : list ascii) : bool :=
  String.eqb (string_of_list_ascii a) (string_of_list_ascii b).

(** The elements kept by [Clean], last one first. *)
Fixpoint clean_elements (rooted : bool) (elems : list (list ascii))
    (kept : list (list ascii)) : list (list ascii) :=
  match elems with
  | [] => kept
  | e :: rest =>
      if list_ascii_eqb e [] || list_ascii_eqb e dot then
        clean_elements rooted rest kept
      else if list_ascii_eqb e dotdot then
        match kept with
        | top :: below =>
            if list_ascii_eqb top dotdot
            then clean_elements rooted rest (e :: kept)
            else clean_elements rooted rest below
        | [] =>
            if rooted then clean_elements rooted rest []
            else clean_elements rooted rest [e]
        end
      else clean_elements rooted rest (e :: kept)
  end.

Fixpoint join_slash (elems : list (list ascii)) : list ascii :=
  match elems with
  | [] => []
  | [e] => e
  | e :: rest => e ++ slash :: join_slash rest
  end.

Definition Clean (path : string) : string :=
  let cs := chars path in
  let rooted := match cs with c :: _ => Ascii.eqb c slash | [] => false end in
  let kept := rev (clean_elements rooted (split_slash cs []) []) in
  let body := join_slash kept in
  string_of_list_ascii
    (if rooted then slash :: body
     else match body with [] => dot | _ => body end).

Fixpoint strip_trailing_slashes (r : list ascii) : list ascii :=
  match r with
  | c :: r' => if Ascii.eqb c slash then strip_trailing_slashes r' else r
  | [] => []
  end.

Fixpoint take_until_slash (r : list ascii) : list ascii :=
  match r with
  | c :: r' => if Ascii.eqb c slash then [] else c :: take_until_slash r'
  | [] => []
  end.

Fixpoint drop_until_slash (r : list ascii) : list ascii :=
  match r with
  | c :: r' => if Ascii.eqb c slash then r else drop_until_slash r'
  | [] => []
  end.

Definition unix_Base (path : string) : string :=
  if String.eqb path "" then "."
  else
    let r := strip_trailing_slashes (rev (chars path)) in
    match rev (take_until_slash r) with
    | [] => "/"
    | e => string_of_list_ascii e
    end.

Definition unix_Join (a b : string) : string :=
  if negb (String.eqb a "") then Clean (a ++ "/" ++ b)
  else if negb (String.eqb b "") then Clean b
  else "".

Definition unix_Dir (path : string) : string :=
  Clean (string_of_list_ascii (rev (drop_until_slash (rev (chars path))))).

Definition unix : Platform := mkPlatform "/" unix_Base unix_Join unix_Dir.

Example Clean_documented :
  map Clean ["a/c"; "a//c"; "a/c/."; "a/c/b/.."; "/../a/c";
             "/../a/b/../././/c"; ""; "../a"; "a/../.."; "/"; "./logs/"]%string
  = ["a/c"; "a/c"; "a/c"; "a/c"; "/a/c"; "/a/c"; "."; "../a"; ".."; "/";
     "logs"]%string.
Proof. vm_compute. reflexivity. Qed.

Example Dir_Base_documented :
  map unix_Dir ["/foo/bar/baz.js"; "/foo/bar/baz"; "dev.txt"; "../todo.txt";
                ".."; "."; "/"; ""]%string
  = ["/foo/bar"; "/foo/bar"; "."; ".."; "."; "."; "/"; "."]%string
  /\ map unix_Base ["/foo/bar/baz.js"; "/foo/bar/baz/"; "dev.txt"; "/"; ""]%string
     = ["baz.js"; "baz"; "dev.txt"; "/"; "."]%string.
Proof. vm_compute. split; reflexivity. Qed.

End Filepath.

Module Paths.
Import GoStrings Filepath.

Record RemotePath : Type := mkRemotePath { DeviceID : string; Path : string }.

Definition invalid_remote_path (s reason : string) : error :=
  ErrNew ("invalid remote path " ++ quote s ++ ": " ++ reason).

Definition ParseRemotePath (s : string) : result RemotePath :=
  match IndexByte s ":" with
  | None => Err (invalid_remote_path s "expected format device:path")
  | Some idx =>
      let deviceID := String.substring 0 idx s in
      let path := String.substring (idx + 1) (String.length s - (idx + 1)) s in
      if String.eqb deviceID "" then
        Err (invalid_remote_path s "device ID cannot be empty")
      else if String.eqb path "" then
        Err (invalid_remote_path s "path cannot be empty")
      else if negb (HasPrefix path "/") then
        Err (invalid_remote_path s "path must be absolute (start with /)")
      else Ok (mkRemotePath deviceID path)
  end.

Definition IsRemotePath (s : string) : bool :=
  match IndexByte s ":" with
  | None => false
  | Some idx =>
      if (idx =? 1)%nat && (2 <? String.length s)%nat &&
         match String.get 2 s with
         | Some c => Ascii.eqb c (ascii_of_nat 92)
         | None => false
         end
      then false else true
  end.

Section OnPlatform.
Variable pf : Platform.

Definition BaseName (path : string) : string :=
  Base pf (TrimSuffix path "/").

Definition IsDirectory (path : string) : bool := HasSuffix path "/".

Definition JoinRemotePath (base name : string) : string :=
  if HasSuffix base "/" then base ++ name else base ++ "/" ++ name.

Definition ResolveLocalDestination (remotePath localDest : string) : string :=
  let baseName := BaseName remotePath in
  if String.eqb localDest "" then "./" ++ baseName
  else if IsDirectory localDest || HasSuffix localDest (Separator pf)
  then Join pf localDest baseName
  else localDest.

Definition ResolveRemoteDestination (localPath remotePath : string) : string :=
  if IsDirectory remotePath
  then JoinRemotePath remotePath (BaseName localPath)
  else remotePath.

End OnPlatform.

(** The cases of the repository's own tests. *)
Example path_tests :
  map (BaseName unix) ["/var/log/app.log"; "/etc/myapp/"; "/file.txt"; "file.txt"; "/"]%string
  = ["app.log"; "myapp"; "file.txt"; "file.txt"; "."]%string
  /\ map IsDirectory ["/var/log/"; "/var/log"; "/"; "./dir/"; "file.txt"]%string
     = [true; false; true; true; false]
  /\ JoinRemotePath "/var/log/" "app.log" = "/var/log/app.log"%string
  /\ JoinRemotePath "/var/log" "app.log" = "/var/log/app.log"%string
  /\ JoinRemotePath "/" "file.txt" = "/file.txt"%string
  /\ ResolveLocalDestination unix "/var/log/app.log" "" = "./app.log"%string
  /\ ResolveLocalDestination unix "/var/log/app.log" "./logs/" = "logs/app.log"%string
  /\ ResolveLocalDestination unix "/var/log/app.log" "./myfile.log" = "./myfile.log"%string
  /\ ResolveRemoteDestination unix "./script.sh" "/opt/" = "/opt/script.sh"%string
  /\ ResolveRemoteDestination unix "./script.sh" "/opt/myscript.sh" = "/opt/myscript.sh"%string.
Proof. vm_compute. repeat split. Qed.

Example remote_path_tests :
  ParseRemotePath "device-1:/var/log/app.log"
  = Ok (mkRemotePath "device-1" "/var/log/app.log")
  /\ ParseRemotePath "my-device:/" = Ok (mkRemotePath "my-device" "/")
  /\ map (fun s => is_err (ParseRemotePath s))
       ["device-1/var/log/app.log"; ":/var/log/app.log"; "device-1:";
        "device-1:var/log/app.log"]%string
     = [true; true; true; true]
  /\ map IsRemotePath
       ["device-1:/var/log/app.log"; "device:/path"; "./local/path";
        "/absolute/local/path"; "C:\Windows\path"; "file.txt"]%string
     = [true; true; false; false; false; false].
Proof. vm_compute. repeat split. Qed.

(** *** Splitting at the first colon *)

Lemma substring_all s : String.substring 0 (String.length s) s = s.
Proof. induction s as [| c s IH]; cbn; [reflexivity | rewrite IH; reflexivity]. Qed.

Lemma substring_front d x :
  String.substring 0 (String.length d) (d ++ x) = d.
Proof.
  induction d as [| c d IH]; cbn.
  - destruct x; reflexivity.
  - rewrite IH. reflexivity.
Qed.

Lemma substring_back d c x :
  String.substring (String.length d + 1)
    (String.length (d ++ String c x) - (String.length d + 1)) (d ++ String c x)
  = x.
Proof.
  induction d as [| e d IH].
  - cbn. rewrite Nat.sub_0_r. apply substring_all.
  - cbn [String.length String.append Nat.add String.substring Nat.sub] in *.
    exact IH.
Qed.

Lemma IndexByte_app d c x :
  IndexByte d c = None -> IndexByte (d ++ String c x) c = Some (String.length d).
Proof.
  induction d as [| e d IH]; cbn [IndexByte String.append String.length].
  - intros _. rewrite Ascii.eqb_refl. reflexivity.
  - destruct (Ascii.eqb e c); [discriminate |].
    destruct (IndexByte d c); [discriminate |].
    intros _. rewrite IH by reflexivity. reflexivity.
Qed.

Lemma IndexByte_split s c idx :
  IndexByte s c = Some idx ->
  exists d x,
    s = (d ++ String c x)%string /\ IndexByte d c = None
    /\ idx = String.length d.
Proof.
  revert idx. induction s as [| e s IH]; intros idx; cbn [IndexByte];
    [discriminate |].
  destruct (Ascii.eqb_spec e c) as [-> | Hne].
  - intros H. injection H as <-. exists EmptyString, s. repeat split.
  - destruct (IndexByte s c) as [i |] eqn:E; [| discriminate].
    intros H. injection H as <-.
    destruct (IH i eq_refl) as [d [x [-> [Hd ->]]]].
    exists (String e d), x. cbn [String.append IndexByte String.length].
    destruct (Ascii.eqb_spec e c) as [? | _]; [contradiction |].
    rewrite Hd. repeat split.
Qed.

(** What [ParseRemotePath] accepts, and what it returns. *)
Lemma ParseRemotePath_spec s d x :
  ParseRemotePath s = Ok (mkRemotePath d x)
  <-> s = (d ++ ":" ++ x)%string /\ d <> ""%string
      /\ IndexByte d ":" = None /\ HasPrefix x "/" = true.
Proof.
  unfold ParseRemotePath. split.
  - destruct (IndexByte s ":") as [idx |] eqn:E; [| discriminate].
    destruct (IndexByte_split _ _ _ E) as [d' [x' [-> [Hd ->]]]].
    rewrite substring_front, substring_back.
    destruct (String.eqb_spec d' "") as [? | Hne]; [discriminate |].
    destruct (String.eqb_spec x' ""); [discriminate |].
    destruct (HasPrefix x' "/") eqn:Hp; cbn [negb]; [| discriminate].
    intros H. injection H as <- <-. repeat split; assumption.
  - intros [-> [Hne [Hd Hp]]]. cbn [String.append].
    rewrite (IndexByte_app d ":" x Hd).
    rewrite substring_front, substring_back.
    destruct (String.eqb_spec d "") as [? | _]; [contradiction |].
    destruct (String.eqb_spec x "") as [-> | _]; [discriminate Hp |].
    rewrite Hp. reflexivity.
Qed.

(** Whatever [ParseRemotePath] accepts, [IsRemotePath] accepts. *)
Lemma ParseRemotePath_IsRemotePath s r :
  ParseRemotePath s = Ok r -> IsRemotePath s = true.
Proof.
  destruct r as [d x]. intros H. apply ParseRemotePath_spec in H.
  destruct H as [-> [Hne [Hd Hp]]]. unfold IsRemotePath.
  cbn [String.append]. rewrite (IndexByte_app d ":" x Hd).
  destruct d as [| c0 [| c1 d]]; [contradiction | | reflexivity].
  destruct x as [| y x]; [discriminate Hp |].
  cbn [String.length String.append String.get Nat.eqb andb].
  unfold HasPrefix in Hp. cbn [String.prefix] in Hp.
  destruct (Ascii.ascii_dec "/" y) as [<- | ?]; [| discriminate Hp].
  destruct (2 <? S (S (S (String.length x))))%nat; reflexivity.
Qed.

(** *** Base names on a Unix-like system *)

(** A file name: not empty, without a slash. *)
Definition is_name (n : string) : bool :=
  negb (String.eqb n "") && all_chars (fun c => negb (Ascii.eqb c slash)) n.

Lemma append_assoc (a b c : string) : ((a ++ b) ++ c = a ++ (b ++ c))%string.
Proof. induction a as [| x a IH]; cbn; [reflexivity | rewrite IH; reflexivity]. Qed.

Lemma take_until_slash_app l rest :
  forallb (fun c => negb (Ascii.eqb c slash)) l = true ->
  take_until_slash (l ++ slash :: rest) = l
  /\ take_until_slash l = l.
Proof.
  induction l as [| c l IH]; cbn [forallb app take_until_slash].
  - intros _. rewrite Ascii.eqb_refl. split; reflexivity.
  - intros H. apply andb_prop in H. destruct H as [Hc Hl].
    apply negb_true_iff in Hc. rewrite Hc.
    destruct (IH Hl) as [-> ->]. split; reflexivity.
Qed.

Lemma name_reversed n :
  is_name n = true ->
  exists c l,
    rev (chars n) = c :: l /\ Ascii.eqb c slash = false
    /\ forallb (fun c => negb (Ascii.eqb c slash)) (rev (chars n)) = true.
Proof.
  unfold is_name, all_chars. intros H. apply andb_prop in H.
  destruct H as [Hne Hall].
  assert (Hrev : forallb (fun c => negb (Ascii.eqb c slash)) (rev (chars n))
                 = true).
  { rewrite forallb_forall in *. intros c Hc. apply Hall, in_rev, Hc. }
  destruct (rev (chars n)) as [| c l] eqn:E.
  - exfalso. apply (f_equal (@rev ascii)) in E. rewrite rev_involutive in E.
    cbn in E. apply (f_equal string_of_list_ascii) in E.
    rewrite string_of_chars in E. subst n. discriminate Hne.
  - exists c, l. split; [reflexivity |]. split; [| exact Hrev].
    cbn [forallb] in Hrev. apply andb_prop in Hrev. destruct Hrev as [Hc _].
    apply negb_true_iff in Hc. exact Hc.
Qed.

Lemma name_not_directory pre n :
  is_name n = true -> HasSuffix (pre ++ n) "/" = false.
Proof.
  intros H. destruct (name_reversed n H) as [c [l [E [Hc _]]]].
  unfold HasSuffix. rewrite rev_chars_app, E.
  cbn [chars list_ascii_of_string rev app starts_with].
  destruct (Ascii.eqb_spec "/" c) as [<- | _]; [discriminate Hc | reflexivity].
Qed.

Lemma unix_Base_name pre n :
  is_name n = true ->
  pre = ""%string \/ (exists x, pre = (x ++ "/")%string) ->
  unix_Base (pre ++ n) = n.
Proof.
  intros H Hpre. destruct (name_reversed n H) as [c [l [E [Hc Hall]]]].
  unfold unix_Base.
  destruct (String.eqb_spec (pre ++ n) "") as [Hemp | _].
  { exfalso. apply (f_equal chars) in Hemp. rewrite chars_app in Hemp.
    apply (f_equal (@rev ascii)) in Hemp. rewrite rev_app_distr, E in Hemp.
    discriminate Hemp. }
  rewrite rev_chars_app.
  assert (S : strip_trailing_slashes (rev (chars n) ++ rev (chars pre))
              = rev (chars n) ++ rev (chars pre)).
  { rewrite E. cbn [app strip_trailing_slashes]. rewrite Hc. reflexivity. }
  assert (T : take_until_slash (rev (chars n) ++ rev (chars pre))
              = rev (chars n)).
  { destruct Hpre as [-> | [x ->]].
    - cbn [chars list_ascii_of_string rev]. rewrite app_nil_r.
      apply (take_until_slash_app _ []), Hall.
    - rewrite rev_chars_app. cbn [chars list_ascii_of_string rev app].
      apply take_until_slash_app, Hall. }
  rewrite S, T, rev_involutive.
  destruct (chars n) as [| a cs] eqn:En.
  - cbn in E. discriminate E.
  - rewrite <- En. apply string_of_chars.
Qed.

(** The base name of a path that ends with a file name, with or without a
    slash after it. *)
Lemma BaseName_name pre n :
  is_name n = true ->
  pre = ""%string \/ (exists x, pre = (x ++ "/")%string) ->
  BaseName unix (pre ++ n) = n /\ BaseName unix (pre ++ n ++ "/") = n.
Proof.
  intros H Hpre. unfold BaseName. cbn [Base unix]. split.
  - unfold TrimSuffix. rewrite (name_not_directory pre n H).
    apply unix_Base_name; assumption.
  - rewrite <- append_assoc, TrimSuffix_app.
    apply unix_Base_name; assumption.
Qed.

End Paths.

(** ** The transfer orchestrator ([internal/file/transfer.go]) and the
       [put] command ([cmd/put.go]) *)

Module Transfer.
Import GoStrings Filepath Paths.

Record TransferOptions : Type := mkOptions {
  Recursive : bool;
  Limit : Z;
  Quiet : bool;
  Force : bool;
  DryRun : bool;
  ShowProgress : bool
}.

Record TransferResult : Type := mkResult {
  FilesTransferred : Z;
  BytesTransferred : Z;
  Errors : list error
}.

#[local] Unset Elimination Schemes.

(** What the device holds below a path: a file, or a directory with the
    answer of [ListFiles] for it, an error or its entries ([FileInfo.Name],
    [FileInfo.Size], [FileInfo.IsDirectory] are the node's name, size and
    kind). *)
Inductive RemoteEntry : Type :=
| RFile (name : string) (size : Z)
| RDir (name : string) (listing_error : option error) (files : list RemoteEntry).

(** What the local disk holds below a path: a file with the answer of
    [entry.Info()], or a directory with the answer of [os.ReadDir]. *)
Inductive LocalEntry : Type :=
| LFile (name : string) (info : result Z)
| LDir (name : string) (readdir_error : option error) (entries : list LocalEntry).

#[local] Set Elimination Schemes.

(** The answer of [os.Stat] on a path given on the command line. *)
Inductive LocalInfo : Type :=
| InfoFile (size : Z)
| InfoDir (readdir_error : option error) (entries : list LocalEntry).

Definition remote_name (f : RemoteEntry) : string :=
  match f with RFile n _ => n | RDir n _ _ => n end.

Definition local_name (e : LocalEntry) : string :=
  match e with LFile n _ => n | LDir n _ _ => n end.

(** The lines the code prints, by kind, with the values they show. *)
Inductive Message : Type :=
| WouldDownload (remotePath localPath : string) (size : Z)
| WouldCreateDirectory (localPath : string)
| DownloadedLine (name : string) (written : Z)
| WouldUpload (localPath deviceID remotePath : string) (size : Z)
| WouldCreateRemoteDirectory (deviceID destPath : string)
| UploadedLine (name : string) (size : Z) (remotePath : string)
| ProgressFinish (name : string)
| UploadingTo (deviceID : string)
| DryRunComplete (files : Z)
| UploadedSummary (files bytes : Z)
| Warnings (errors : list error).

(** Every call that leaves the process: to the device over the network, to
    the local file system, to the terminal. *)
Inductive Event : Type :=
| CheckDeviceOnline (deviceID : string)
| StatFile (deviceID path : string)
| ListFiles (deviceID path : string)
| DownloadFile (deviceID path : string)
| UploadFile (deviceID path : string) (content : list byte)
| MkdirOnDevice (deviceID path : string)
| OsStat (path : string)
| OsMkdirAll (path : string)
| OsCreate (path : string)
| OsOpen (path : string)
| OsReadDir (path : string)
| EntryInfo (path : string)
| ReadAll (path : string)
| CopyTo (path : string)
| NewClient
| Print (m : Message).

Definition is_network (e : Event) : bool :=
  match e with
  | CheckDeviceOnline _ | StatFile _ _ | ListFiles _ _ | DownloadFile _ _
  | UploadFile _ _ _ | MkdirOnDevice _ _ => true
  | _ => false
  end.

Definition is_filesystem (e : Event) : bool :=
  match e with
  | OsStat _ | OsMkdirAll _ | OsCreate _ | OsOpen _ | OsReadDir _
  | EntryInfo _ | ReadAll _ | CopyTo _ | NewClient => true
  | _ => false
  end.

(** The calls that change the device or the local disk. *)
Definition is_mutation (e : Event) : bool :=
  match e with
  | UploadFile _ _ _ | MkdirOnDevice _ _ | OsMkdirAll _ | OsCreate _
  | CopyTo _ => true
  | _ => false
  end.

(** The environment: the platform's path functions and, for every call, the
    answer it gets given the calls made so far. *)
Record World : Type := mkWorld {
  platform : Platform;
  w_CheckDeviceOnline : list Event -> string -> option error;
  w_StatFile : list Event -> string -> string -> result RemoteEntry;
  w_DownloadFile : list Event -> string -> string -> result Z;
  w_UploadFile : list Event -> string -> string -> list byte -> option error;
  w_MkdirOnDevice : list Event -> string -> string -> option error;
  w_Stat : list Event -> string -> result LocalInfo;
  w_MkdirAll : list Event -> string -> option error;
  w_Create : list Event -> string -> option error;
  w_Open : list Event -> string -> option error;
  w_ReadAll : list Event -> string -> result (list byte);
  w_Copy : list Event -> string -> Z * option error;
  w_NewClient : list Event -> option error;
  w_isTerminal : bool
}.

(** *** State passing: the calls made so far and the shared [*TransferResult] *)

Record State : Type := mkState { trace : list Event; res : TransferResult }.

Definition M (A : Type) : Type := State -> A * State.

Definition ret {A} (a : A) : M A := fun s => (a, s).

Definition bind {A B} (m : M A) (k : A -> M B) : M B :=
  fun s => let (a, s') := m s in k a s'.

Notation "x <- m ;; k" := (bind m (fun x => k))
  (at level 61, m at next level, right associativity).
Notation "m ;;; k" := (bind m (fun _ => k))
  (at level 61, right associativity).

(** A call without an answer the code looks at. *)
Definition emit (e : Event) : M unit :=
  fun s => (tt, mkState (trace s ++ [e]) (res s)).

(** A call and its answer, which the world gives from the calls before it. *)
Definition call {A} (answer : list Event -> A) (e : Event) : M A :=
  fun s => (answer (trace s), mkState (trace s ++ [e]) (res s)).

Definition update (f : TransferResult -> TransferResult) : M unit :=
  fun s => (tt, mkState (trace s) (f (res s))).

Definition record_error (err : error) : M unit :=
  update (fun r => mkResult (FilesTransferred r) (BytesTransferred r)
                     (Errors r ++ [err])).

Definition count_file (bytes : Z) : M unit :=
  update (fun r => mkResult (FilesTransferred r + 1)
                     (BytesTransferred r + bytes) (Errors r)).

(** The loop shared by [downloadDirectory] and [uploadDirectory]: each entry
    is processed in turn; an error is appended to [result.Errors] and the loop
    continues when [force] is set, and is returned at once otherwise. *)
Section ForEach.
Context {A : Type}.
Variable force : bool.
Variable process : A -> M (option error).

Fixpoint for_each (entries : list A) : M (option error) :=
  match entries with
  | [] => ret None
  | f :: rest =>
      r <- process f ;;
      match r with
      | Some err =>
          if force then record_error err ;;; for_each rest
          else ret (Some err)
      | None => for_each rest
      end
  end.

End ForEach.

Section Orchestrator.
Variable w : World.
Variable opts : TransferOptions.
Variable deviceID : string.

Let pf : Platform := platform w.

Definition with_progress : bool := ShowProgress opts && negb (Quiet opts).

Definition downloadFile (remotePath localPath : string) (size : Z)
    : M (option error) :=
  let localPath := ResolveLocalDestination pf remotePath localPath in
  if DryRun opts then
    emit (Print (WouldDownload remotePath localPath size)) ;;; ret None
  else
    present <- (if Force opts then ret false
                else call (fun t => negb (is_err (w_Stat w t localPath)))
                       (OsStat localPath)) ;;
    if present then
      ret (Some (ErrNew ("file " ++ localPath ++
                         " already exists, use --force to overwrite")))
    else
      let dir := Dir pf localPath in
      made <- call (fun t => w_MkdirAll w t dir) (OsMkdirAll dir) ;;
      match made with
      | Some err => ret (Some (ErrWrap ("failed to create directory " ++ dir) err))
      | None =>
          body <- call (fun t => w_DownloadFile w t deviceID remotePath)
                    (DownloadFile deviceID remotePath) ;;
          match body with
          | Err err => ret (Some err)
          | Ok contentLength =>
              created <- call (fun t => w_Create w t localPath)
                           (OsCreate localPath) ;;
              match created with
              | Some err =>
                  ret (Some (ErrWrap ("failed to create file " ++ localPath) err))
              | None =>
                  copied <- call (fun t => w_Copy w t localPath)
                              (CopyTo localPath) ;;
                  let '(written, cerr) := copied in
                  let finish :=
                    if with_progress
                    then emit (Print (ProgressFinish (BaseName pf remotePath)))
                    else ret tt in
                  match cerr with
                  | Some err =>
                      finish ;;;
                      ret (Some (ErrWrap "failed to download file" err))
                  | None =>
                      count_file written ;;;
                      (if Quiet opts then ret tt
                       else if negb (ShowProgress opts)
                       then emit (Print (DownloadedLine (BaseName pf remotePath)
                                           written))
                       else ret tt) ;;;
                      finish ;;; ret None
                  end
              end
          end
      end.

(** The loop "download each file/subdirectory" of [downloadDirectory], given
    how an entry of the listing is downloaded. *)
Definition download_children_of
    (entry : RemoteEntry -> string -> string -> M (option error))
    (remotePath localPath : string) (files : list RemoteEntry)
    : M (option error) :=
  for_each (Force opts)
    (fun f => entry f (JoinRemotePath remotePath (remote_name f))
                (Join pf localPath (remote_name f)))
    files.

(** [downloadDirectory], given how an entry of the listing is downloaded. *)
Definition downloadDirectory_of
    (entry : RemoteEntry -> string -> string -> M (option error))
    (listing_error : option error) (files : list RemoteEntry)
    (remotePath localPath : string) : M (option error) :=
  emit (ListFiles deviceID remotePath) ;;;
  match listing_error with
  | Some err => ret (Some (ErrWrap "failed to list directory" err))
  | None =>
      let localPath :=
        if String.eqb localPath "" then ("./" ++ BaseName pf remotePath)%string
        else if IsDirectory localPath
        then Join pf localPath (BaseName pf remotePath)
        else localPath in
      made <- (if DryRun opts
               then emit (Print (WouldCreateDirectory localPath)) ;;; ret None
               else call (fun t => w_MkdirAll w t localPath)
                      (OsMkdirAll localPath)) ;;
      match made with
      | Some err =>
          ret (Some (ErrWrap ("failed to create directory " ++ localPath) err))
      | None => download_children_of entry remotePath localPath files
      end
  end.

(** The body of the loop of [downloadDirectory]: a subdirectory or a file. *)
Fixpoint downloadEntry (f : RemoteEntry) (remotePath localPath : string)
    {struct f} : M (option error) :=
  match f with
  | RDir _ listing_error files =>
      downloadDirectory_of downloadEntry listing_error files remotePath localPath
  | RFile _ size => downloadFile remotePath localPath size
  end.

Definition downloadDirectory
    : option error -> list RemoteEntry -> string -> string -> M (option error) :=
  downloadDirectory_of downloadEntry.

Definition download_children
    : string -> string -> list RemoteEntry -> M (option error) :=
  download_children_of downloadEntry.

Definition empty_result : TransferResult := mkResult 0 0 [].

(** [Download]: the calls made before it are [t]; it returns the result
    pointer (nil or not), the error, and the calls made up to its return. *)
Definition Download (remotePath localPath : string) (t : list Event)
    : option TransferResult * option error * list Event :=
  let t1 := t ++ [CheckDeviceOnline deviceID] in
  match w_CheckDeviceOnline w t deviceID with
  | Some err => (None, Some err, t1)
  | None =>
      let t2 := t1 ++ [StatFile deviceID remotePath] in
      match w_StatFile w t1 deviceID remotePath with
      | Err err => (None, Some (ErrWrap "failed to stat remote path" err), t2)
      | Ok info =>
          match info with
          | RDir _ listing_error files =>
              if negb (Recursive opts) then
                (None,
                 Some (ErrNew (remotePath ++
                         " is a directory, use -r flag for recursive download")),
                 t2)
              else
                let '(err, s) := downloadDirectory listing_error files
                                   remotePath localPath
                                   (mkState t2 empty_result) in
                (Some (res s), err, trace s)
          | RFile _ size =>
              let '(err, s) := downloadFile remotePath localPath size
                                 (mkState t2 empty_result) in
              (Some (res s), err, trace s)
          end
      end
  end.

Definition uploadFile (localPath remotePath : string) (size : Z)
    : M (option error) :=
  if DryRun opts then
    emit (Print (WouldUpload localPath deviceID remotePath size)) ;;; ret None
  else
    opened <- call (fun t => w_Open w t localPath) (OsOpen localPath) ;;
    match opened with
    | Some err => ret (Some (ErrWrap ("failed to open file " ++ localPath) err))
    | None =>
        let finish :=
          if with_progress
          then emit (Print (ProgressFinish (BaseName pf localPath)))
          else ret tt in
        read <- call (fun t => w_ReadAll w t localPath) (ReadAll localPath) ;;
        match read with
        | Err err => finish ;;; ret (Some (ErrWrap "failed to read file" err))
        | Ok content =>
            sent <- call (fun t => w_UploadFile w t deviceID remotePath content)
                      (UploadFile deviceID remotePath content) ;;
            match sent with
            | Some err => finish ;;; ret (Some err)
            | None =>
                count_file size ;;;
                (if Quiet opts then ret tt
                 else if negb (ShowProgress opts)
                 then emit (Print (UploadedLine (BaseName pf localPath) size
                                     remotePath))
                 else ret tt) ;;;
                finish ;;; ret None
            end
        end
    end.

(** The loop "upload each file/subdirectory" of [uploadDirectory], given how
    an entry of the directory is uploaded. *)
Definition upload_children_of
    (entry : LocalEntry -> string -> string -> M (option error))
    (localPath destPath : string) (entries : list LocalEntry)
    : M (option error) :=
  for_each (Force opts)
    (fun e => entry e (Join pf localPath (local_name e))
                (JoinRemotePath destPath (local_name e)))
    entries.

(** [uploadDirectory], given how an entry of the directory is uploaded. *)
Definition uploadDirectory_of
    (entry : LocalEntry -> string -> string -> M (option error))
    (readdir_error : option error) (entries : list LocalEntry)
    (localPath remotePath : string) : M (option error) :=
  let destPath :=
    if IsDirectory remotePath
    then JoinRemotePath remotePath (BaseName pf localPath)
    else remotePath in
  made <- (if DryRun opts
           then emit (Print (WouldCreateRemoteDirectory deviceID destPath)) ;;;
                ret None
           else
             r <- call (fun t => w_MkdirOnDevice w t deviceID destPath)
                    (MkdirOnDevice deviceID destPath) ;;
             match r with
             | Some err =>
                 if negb (Contains (Error err) "exists")
                 then ret (Some (ErrWrap "failed to create directory" err))
                 else ret None
             | None => ret None
             end) ;;
  match made with
  | Some err => ret (Some err)
  | None =>
      emit (OsReadDir localPath) ;;;
      match readdir_error with
      | Some err =>
          ret (Some (ErrWrap ("failed to read directory " ++ localPath) err))
      | None => upload_children_of entry localPath destPath entries
      end
  end.

(** The body of the loop of [uploadDirectory]: a subdirectory, or a file
    after [entry.Info()]. *)
Fixpoint uploadEntry (e : LocalEntry) (localPath remotePath : string)
    {struct e} : M (option error) :=
  match e with
  | LDir _ readdir_error entries =>
      uploadDirectory_of uploadEntry readdir_error entries localPath remotePath
  | LFile _ info =>
      emit (EntryInfo localPath) ;;;
      match info with
      | Err err => ret (Some err)
      | Ok size => uploadFile localPath remotePath size
      end
  end.

Definition uploadDirectory
    : option error -> list LocalEntry -> string -> string -> M (option error) :=
  uploadDirectory_of uploadEntry.

Definition upload_children
    : string -> string -> list LocalEntry -> M (option error) :=
  upload_children_of uploadEntry.

(** The loop of [Upload] over the local paths. *)
Fixpoint upload_paths (localPaths : list string) (remotePath : string)
    : M (option error) :=
  match localPaths with
  | [] => ret None
  | localPath :: rest =>
      info <- call (fun t => w_Stat w t localPath) (OsStat localPath) ;;
      match info with
      | Err err =>
          ret (Some (ErrWrap ("failed to stat local path " ++ localPath) err))
      | Ok (InfoDir readdir_error entries) =>
          if negb (Recursive opts) then
            ret (Some (ErrNew (localPath ++
                         " is a directory, use -r flag for recursive upload")))
          else
            r <- uploadDirectory readdir_error entries localPath remotePath ;;
            match r with
            | Some err => ret (Some err)
            | None => upload_paths rest remotePath
            end
      | Ok (InfoFile size) =>
          let destPath := ResolveRemoteDestination pf localPath remotePath in
          r <- uploadFile localPath destPath size ;;
          match r with
          | Some err => ret (Some err)
          | None => upload_paths rest remotePath
          end
      end
  end.

Definition Upload (localPaths : list string) (remotePath : string)
    (t : list Event) : option TransferResult * option error * list Event :=
  let t1 := t ++ [CheckDeviceOnline deviceID] in
  match w_CheckDeviceOnline w t deviceID with
  | Some err => (None, Some err, t1)
  | None =>
      let '(err, s) := upload_paths localPaths remotePath
                         (mkState t1 empty_result) in
      (Some (res s), err, trace s)
  end.

End Orchestrator.

(** *** The [put] command *)

Record PutFlags : Type := mkPutFlags {
  flag_recursive : bool;
  flag_limit : string;
  flag_progress : bool;
  flag_force : bool;
  flag_dry_run : bool
}.

Definition multiple_files_error : error :=
  ErrNew "when uploading multiple files, destination must end with / (directory)".

(** The loop "validate local paths exist". *)
Fixpoint stat_all (w : World) (localPaths : list string) (t : list Event)
    : option error * list Event :=
  match localPaths with
  | [] => (None, t)
  | p :: rest =>
      match w_Stat w t p with
      | Err err =>
          (Some (ErrWrap ("local path " ++ quote p ++ " not found") err),
           t ++ [OsStat p])
      | Ok _ => stat_all w rest (t ++ [OsStat p])
      end
  end.

(** [runPut]: [args] are the positional arguments (at least two, as
    [cobra.MinimumNArgs(2)] demands), [quiet] is [IsQuiet()]. *)
Definition runPut (w : World) (flags : PutFlags) (quiet : bool)
    (args : list string) (t : list Event) : option error * list Event :=
  let dest := last args ""%string in
  let localPaths := removelast args in
  if negb (IsRemotePath dest) then
    (Some (ErrNew ("invalid destination " ++ quote dest ++
                   ": expected format device:path")), t)
  else
    match ParseRemotePath dest with
    | Err err => (Some err, t)
    | Ok remote =>
        match stat_all w localPaths t with
        | (Some err, t1) => (Some err, t1)
        | (None, t1) =>
            if (1 <? length localPaths)%nat && negb (IsDirectory (Path remote))
            then (Some multiple_files_error, t1)
            else
              match Throttle.ParseBandwidthLimit (flag_limit flags) with
              | Err err => (Some err, t1)
              | Ok limit =>
                  let showProgress := flag_progress flags && w_isTerminal w in
                  let opts := mkOptions (flag_recursive flags) limit quiet
                                (flag_force flags) (flag_dry_run flags)
                                showProgress in
                  let t2 := t1 ++ [NewClient] in
                  match w_NewClient w t1 with
                  | Some err => (Some err, t2)
                  | None =>
                      let t3 :=
                        if negb quiet && negb (flag_dry_run flags)
                        then t2 ++ [Print (UploadingTo (DeviceID remote))]
                        else t2 in
                      match Upload w opts (DeviceID remote) localPaths
                              (Path remote) t3 with
                      | (_, Some err, t4) =>
                          (Some (ErrWrap "upload failed" err), t4)
                      | (None, None, t4) => (None, t4)
                      | (Some r, None, t4) =>
                          let t5 :=
                            if negb quiet then
                              if flag_dry_run flags
                              then t4 ++ [Print (DryRunComplete (FilesTransferred r))]
                              else t4 ++ [Print (UploadedSummary
                                                   (FilesTransferred r)
                                                   (BytesTransferred r))]
                            else t4 in
                          let t6 :=
                            if (0 <? length (Errors r))%nat
                            then t5 ++ [Print (Warnings (Errors r))]
                            else t5 in
                          (None, t6)
                      end
                  end
              end
        end
    end.

(** *** A world in which every call succeeds *)

(** The device is online and delivers three bytes for every download; the
    local disk holds [a.txt] and [b.txt], of three bytes each, and nothing
    else. *)
Definition local_disk (path : string) : result LocalInfo :=
  if String.eqb path "a.txt" || String.eqb path "b.txt"
  then Ok (InfoFile 3)
  else Err (ErrNew "no such file or directory").

Definition calm : World :=
  mkWorld unix
    (fun _ _ => None)
    (fun _ _ _ => Ok (RFile "f" 3))
    (fun _ _ _ => Ok 3)
    (fun _ _ _ _ => None)
    (fun _ _ _ => None)
    (fun _ => local_disk)
    (fun _ _ => None)
    (fun _ _ => None)
    (fun _ _ => None)
    (fun _ _ => Ok (list_byte_of_string "abc"))
    (fun _ _ => (3, None))
    (fun _ => None)
    false.

Definition plain : TransferOptions := mkOptions false 0 true false false false.
Definition dry : TransferOptions := mkOptions false 0 true false true false.

Example Upload_one_file :
  Upload calm plain "dev" ["a.txt"]%string "/tmp/a.txt" []
  = (Some (mkResult 1 3 []), None,
     [CheckDeviceOnline "dev"; OsStat "a.txt"; OsOpen "a.txt"; ReadAll "a.txt";
      UploadFile "dev" "/tmp/a.txt" (list_byte_of_string "abc")]).
Proof. vm_compute. reflexivity. Qed.

Lemma stat_all_ok w localPaths :
  (forall t p, In p localPaths -> is_err (w_Stat w t p) = false) ->
  forall t, stat_all w localPaths t = (None, t ++ map OsStat localPaths).
Proof.
  induction localPaths as [| p rest IH]; intros Hok t; cbn [stat_all map].
  - rewrite app_nil_r. reflexivity.
  - pose proof (Hok t p (or_introl eq_refl)) as Hp.
    destruct (w_Stat w t p) as [i | e]; [| discriminate Hp].
    rewrite IH by (intros t' q Hq; apply Hok; right; exact Hq).
    rewrite <- app_assoc. reflexivity.
Qed.

(** *** The trace and the error list only grow *)

Definition grows {A} (m : M A) : Prop :=
  forall s, exists tr errs,
    trace (snd (m s)) = trace s ++ tr
    /\ Errors (res (snd (m s))) = Errors (res s) ++ errs.

Lemma grows_ret {A} (a : A) : grows (ret a).
Proof. intros s. exists [], []. cbn. rewrite !app_nil_r. split; reflexivity. Qed.

Lemma grows_emit e : grows (emit e).
Proof. intros s. exists [e], []. cbn. rewrite app_nil_r. split; reflexivity. Qed.

Lemma grows_call {A} (answer : list Event -> A) e : grows (call answer e).
Proof. intros s. exists [e], []. cbn. rewrite app_nil_r. split; reflexivity. Qed.

Lemma grows_record_error err : grows (record_error err).
Proof. intros s. exists [], [err]. cbn. rewrite app_nil_r. split; reflexivity. Qed.

Lemma grows_count_file n : grows (count_file n).
Proof. intros s. exists [], []. cbn. rewrite !app_nil_r. split; reflexivity. Qed.

Lemma grows_bind {A B} (m : M A) (k : A -> M B) :
  grows m -> (forall a, grows (k a)) -> grows (bind m k).
Proof.
  intros Hm Hk s. unfold bind.
  destruct (Hm s) as [tr1 [errs1 [Ht1 He1]]].
  destruct (m s) as [a s1]. cbn [snd] in Ht1, He1.
  destruct (Hk a s1) as [tr2 [errs2 [Ht2 He2]]].
  exists (tr1 ++ tr2), (errs1 ++ errs2).
  rewrite Ht2, He2, Ht1, He1, !app_assoc. split; reflexivity.
Qed.

Ltac grows_step :=
  first
    [ apply grows_ret | apply grows_emit | apply grows_call
    | apply grows_record_error | apply grows_count_file
    | assumption
    | apply grows_bind; [| intros ? ]
    | match goal with
      | |- grows (if ?b then _ else _) => destruct b
      | |- grows (match ?x with _ => _ end) => destruct x
      end ].

Lemma grows_for_each {A} force (process : A -> M (option error)) entries :
  Forall (fun f => grows (process f)) entries ->
  grows (for_each force process entries).
Proof.
  induction 1 as [| f rest Hf _ IH]; cbn [for_each]; repeat grows_step.
Qed.

(** *** The first call of a computation *)

Definition starts {A} (e : Event) (m : M A) : Prop :=
  forall s, exists tr, trace (snd (m s)) = trace s ++ e :: tr.

Lemma starts_bind {A B} e (m : M A) (k : A -> M B) :
  starts e m -> (forall a, grows (k a)) -> starts e (bind m k).
Proof.
  intros Hm Hk s. unfold bind.
  destruct (Hm s) as [tr1 Ht1]. destruct (m s) as [a s1]. cbn [snd] in Ht1.
  destruct (Hk a s1) as [tr2 [_ [Ht2 _]]].
  exists (tr1 ++ tr2). rewrite Ht2, Ht1, <- app_assoc. reflexivity.
Qed.

Lemma starts_ret_bind {A B} e (a : A) (k : A -> M B) :
  starts e (k a) -> starts e (bind (ret a) k).
Proof. intros H s. exact (H s). Qed.

Lemma starts_emit e : starts e (emit e).
Proof. intros s. exists []. reflexivity. Qed.

Lemma starts_call {A} (answer : list Event -> A) e : starts e (call answer e).
Proof. intros s. exists []. reflexivity. Qed.

(** *** The loop over the entries of a directory *)

(** What it means that every entry of a list is processed, one after the
    other: the first entry is processed in the state [s]; the error of an
    entry that fails is appended to the result's error list; the next entry
    is processed in the state so reached; [s'] is the state after the last
    one. *)
Inductive processed_in_turn {A : Type} (process : A -> M (option error))
    : list A -> State -> State -> Prop :=
| turn_none s : processed_in_turn process [] s s
| turn_succeeds g rest s s1 s' :
    process g s = (None, s1) ->
    processed_in_turn process rest s1 s' ->
    processed_in_turn process (g :: rest) s s'
| turn_fails g rest s err s1 s' :
    process g s = (Some err, s1) ->
    processed_in_turn process rest (snd (record_error err s1)) s' ->
    processed_in_turn process (g :: rest) s s'.

Section Loop.
Context {A : Type}.
Variable process : A -> M (option error).

(** Without force the loop returns the first error at once, in the state the
    failing entry left: nothing is done for the entries after it. *)
Lemma for_each_aborts pre f post s s1 s2 err :
  for_each false process pre s = (None, s1) ->
  process f s1 = (Some err, s2) ->
  for_each false process (pre ++ f :: post) s = (Some err, s2).
Proof.
  revert s. induction pre as [| g pre IH]; intros s Hpre Hf.
  - cbn in Hpre. injection Hpre as <-.
    cbn [app for_each]. unfold bind. rewrite Hf. reflexivity.
  - cbn [app for_each] in *. unfold bind in *.
    destruct (process g s) as [[e |] s'].
    + discriminate Hpre.
    + apply IH; assumption.
Qed.

(** With force the loop never returns an error. *)
Lemma for_each_force_none entries s :
  fst (for_each true process entries s) = None.
Proof.
  revert s. induction entries as [| g rest IH]; intros s; [reflexivity |].
  cbn [for_each]. unfold bind. destruct (process g s) as [[e |] s'].
  - cbn. apply IH.
  - apply IH.
Qed.

(** With force an error is recorded and the loop goes on with the entries
    after the failing one. *)
Lemma for_each_force_continues pre f post s err s2 :
  process f (snd (for_each true process pre s)) = (Some err, s2) ->
  for_each true process (pre ++ f :: post) s
  = for_each true process post (snd (record_error err s2)).
Proof.
  revert s. induction pre as [| g pre IH]; intros s Hf.
  - cbn in Hf. cbn [app for_each]. unfold bind. rewrite Hf. reflexivity.
  - cbn [app for_each] in *. unfold bind in *.
    destruct (process g s) as [[e |] s'].
    + cbn in *. apply IH. exact Hf.
    + apply IH. exact Hf.
Qed.

(** With force every entry is processed in its turn. *)
Lemma for_each_force_in_turn entries s :
  processed_in_turn process entries s (snd (for_each true process entries s)).
Proof.
  revert s. induction entries as [| g rest IH]; intros s.
  - apply turn_none.
  - cbn [for_each]. unfold bind at 1.
    destruct (process g s) as [[err |] s1] eqn:E.
    + apply (turn_fails process g rest s err s1 _ E).
      change ((if true
               then record_error err ;;; for_each true process rest
               else ret (Some err)) s1)
        with (for_each true process rest (snd (record_error err s1))).
      apply IH.
    + apply (turn_succeeds process g rest s s1 _ E). apply IH.
Qed.

Variable first : A -> Event.
Hypothesis process_grows : forall f, grows (process f).
Hypothesis process_starts : forall f, starts (first f) (process f).

(** With force every entry is processed: its first call is among the calls
    the loop adds to the trace. *)
Lemma for_each_force_processes entries s :
  exists tr,
    trace (snd (for_each true process entries s)) = trace s ++ tr
    /\ forall g, In g entries -> In (first g) tr.
Proof.
  revert s. induction entries as [| f rest IH]; intros s.
  - exists []. cbn. rewrite app_nil_r. split; [reflexivity | intros g []].
  - cbn [for_each]. unfold bind at 1.
    destruct (process_starts f s) as [tr1 Ht1].
    destruct (process f s) as [r s1]. cbn [snd] in Ht1.
    assert (G : exists tr2,
              trace (snd (match r with
                          | Some err =>
                              if true
                              then record_error err ;;; for_each true process rest
                              else ret (Some err)
                          | None => for_each true process rest
                          end s1)) = trace s1 ++ tr2
              /\ forall g, In g rest -> In (first g) tr2).
    { destruct r as [e |].
      - change ((if true
                 then record_error e ;;; for_each true process rest
                 else ret (Some e)) s1)
          with (for_each true process rest (snd (record_error e s1))).
        apply (IH (snd (record_error e s1))).
      - apply IH. }
    destruct G as [tr2 [Ht2 Hin2]].
    exists (first f :: tr1 ++ tr2). split.
    + rewrite Ht2, Ht1, <- app_assoc. reflexivity.
    + intros g [-> | Hg]; [left; reflexivity |].
      right. apply in_or_app. right. apply Hin2, Hg.
Qed.

(** The calls made while the entries are processed in turn fall into one
    run for each entry, in order, each run starting with the first call of
    its entry. *)
Lemma processed_in_turn_runs entries s s' :
  processed_in_turn process entries s s' ->
  exists runs,
    trace s' = trace s ++ concat runs
    /\ Forall2 (fun g run => exists t, run = first g :: t) entries runs.
Proof.
  induction 1 as [s | g rest s s1 s' Hg _ IH | g rest s err s1 s' Hg _ IH].
  - exists []. cbn [concat]. rewrite app_nil_r. split; [reflexivity | constructor].
  - destruct (process_starts g s) as [t Ht]. rewrite Hg in Ht. cbn [snd] in Ht.
    destruct IH as [runs [Hr Hall]].
    exists ((first g :: t) :: runs). split.
    + rewrite Hr, Ht. cbn [concat]. rewrite <- app_assoc. reflexivity.
    + constructor; [exists t; reflexivity | exact Hall].
  - destruct (process_starts g s) as [t Ht]. rewrite Hg in Ht. cbn [snd] in Ht.
    destruct IH as [runs [Hr Hall]]. cbn [record_error update snd trace] in Hr.
    exists ((first g :: t) :: runs). split.
    + rewrite Hr, Ht. cbn [concat]. rewrite <- app_assoc. reflexivity.
    + constructor; [exists t; reflexivity | exact Hall].
Qed.

(** The recorded error stays in the list. *)
Lemma for_each_keeps_error entries err s2 :
  In err (Errors (res (snd (for_each true process entries
                              (snd (record_error err s2)))))).
Proof.
  destruct (grows_for_each true process entries
              ltac:(apply Forall_forall; intros; apply process_grows)
              (snd (record_error err s2))) as [tr [errs [_ He]]].
  rewrite He. cbn. apply in_or_app. left. apply in_or_app. right.
  left. reflexivity.
Qed.

End Loop.

(** *** Induction on what a directory holds *)

Section TreeInduction.
Variable P : RemoteEntry -> Prop.
Hypothesis P_file : forall name size, P (RFile name size).
Hypothesis P_dir : forall name listing_error files,
  Forall P files -> P (RDir name listing_error files).

Fixpoint RemoteEntry_induction (f : RemoteEntry) : P f :=
  match f with
  | RFile name size => P_file name size
  | RDir name listing_error files =>
      P_dir name listing_error files
        ((fix all (l : list RemoteEntry) : Forall P l :=
            match l with
            | [] => Forall_nil P
            | x :: r => Forall_cons x (RemoteEntry_induction x) (all r)
            end) files)
  end.

Variable Q : LocalEntry -> Prop.
Hypothesis Q_file : forall name info, Q (LFile name info).
Hypothesis Q_dir : forall name readdir_error entries,
  Forall Q entries -> Q (LDir name readdir_error entries).

Fixpoint LocalEntry_induction (e : LocalEntry) : Q e :=
  match e with
  | LFile name info => Q_file name info
  | LDir name readdir_error entries =>
      Q_dir name readdir_error entries
        ((fix all (l : list LocalEntry) : Forall Q l :=
            match l with
            | [] => Forall_nil Q
            | x :: r => Forall_cons x (LocalEntry_induction x) (all r)
            end) entries)
  end.

End TreeInduction.

(** *** What the orchestrator's functions do to the trace *)

Section Facts.
Variable w : World.
Variable opts : TransferOptions.
Variable deviceID : string.

Lemma downloadFile_grows remotePath localPath size :
  grows (downloadFile w opts deviceID remotePath localPath size).
Proof. unfold downloadFile. repeat grows_step. Qed.

Lemma uploadFile_grows localPath remotePath size :
  grows (uploadFile w opts deviceID localPath remotePath size).
Proof. unfold uploadFile. repeat grows_step. Qed.

Lemma downloadEntry_grows f :
  forall remotePath localPath,
    grows (downloadEntry w opts deviceID f remotePath localPath).
Proof.
  induction f as [name size | name listing_error files IH]
    using RemoteEntry_induction; intros remotePath localPath.
  - apply downloadFile_grows.
  - cbn [downloadEntry]. unfold downloadDirectory_of.
    assert (L : forall lp, grows (download_children_of w opts
                                    (downloadEntry w opts deviceID)
                                    remotePath lp files)).
    { intros lp. unfold download_children_of. apply grows_for_each.
      rewrite Forall_forall in *. intros g Hg. apply IH, Hg. }
    repeat grows_step; apply L.
Qed.

Lemma uploadEntry_grows e :
  forall localPath remotePath,
    grows (uploadEntry w opts deviceID e localPath remotePath).
Proof.
  induction e as [name info | name readdir_error entries IH]
    using LocalEntry_induction; intros localPath remotePath.
  - cbn [uploadEntry]. pose proof uploadFile_grows as U. repeat grows_step.
    apply U.
  - cbn [uploadEntry]. unfold uploadDirectory_of.
    assert (L : forall lp dp, grows (upload_children_of w opts
                                       (uploadEntry w opts deviceID)
                                       lp dp entries)).
    { intros lp dp. unfold upload_children_of. apply grows_for_each.
      rewrite Forall_forall in *. intros g Hg. apply IH, Hg. }
    repeat grows_step; apply L.
Qed.

(** The first call made for an entry of a remote directory. *)
Definition download_first (f : RemoteEntry) (remotePath localPath : string)
    : Event :=
  match f with
  | RDir _ _ _ => ListFiles deviceID remotePath
  | RFile _ size =>
      let localPath :=
        ResolveLocalDestination (platform w) remotePath localPath in
      if DryRun opts then Print (WouldDownload remotePath localPath size)
      else if Force opts then OsMkdirAll (Dir (platform w) localPath)
      else OsStat localPath
  end.

(** The first call made for an entry of a local directory. *)
Definition upload_first (e : LocalEntry) (localPath remotePath : string)
    : Event :=
  match e with
  | LFile _ _ => EntryInfo localPath
  | LDir _ _ _ =>
      let destPath :=
        if IsDirectory remotePath
        then JoinRemotePath remotePath (BaseName (platform w) localPath)
        else remotePath in
      if DryRun opts then Print (WouldCreateRemoteDirectory deviceID destPath)
      else MkdirOnDevice deviceID destPath
  end.

Lemma downloadEntry_starts f remotePath localPath :
  starts (download_first f remotePath localPath)
    (downloadEntry w opts deviceID f remotePath localPath).
Proof.
  destruct f as [name size | name listing_error files].
  - cbn [downloadEntry download_first]. unfold downloadFile.
    destruct (DryRun opts).
    + apply starts_bind; [apply starts_emit | intros; apply grows_ret].
    + destruct (Force opts).
      * apply starts_ret_bind. cbv iota.
        apply starts_bind; [apply starts_call | intros; repeat grows_step].
      * apply starts_bind; [apply starts_call | intros; repeat grows_step].
  - cbn [downloadEntry download_first]. unfold downloadDirectory_of.
    assert (L : forall lp, grows (download_children_of w opts
                                    (downloadEntry w opts deviceID)
                                    remotePath lp files)).
    { intros lp. unfold download_children_of. apply grows_for_each.
      apply Forall_forall. intros g _. apply downloadEntry_grows. }
    apply starts_bind; [apply starts_emit | intros _].
    repeat grows_step; apply L.
Qed.

Lemma uploadEntry_starts e localPath remotePath :
  starts (upload_first e localPath remotePath)
    (uploadEntry w opts deviceID e localPath remotePath).
Proof.
  destruct e as [name info | name readdir_error entries].
  - cbn [uploadEntry upload_first].
    pose proof uploadFile_grows as U.
    apply starts_bind; [apply starts_emit | intros _].
    repeat grows_step. apply U.
  - cbn [uploadEntry upload_first]. unfold uploadDirectory_of.
    assert (L : forall lp dp, grows (upload_children_of w opts
                                       (uploadEntry w opts deviceID)
                                       lp dp entries)).
    { intros lp dp. unfold upload_children_of. apply grows_for_each.
      apply Forall_forall. intros g _. apply uploadEntry_grows. }
    destruct (DryRun opts).
    + apply starts_bind.
      * apply starts_bind; [apply starts_emit | intros; apply grows_ret].
      * intros a. repeat grows_step; apply L.
    + apply starts_bind.
      * apply starts_bind; [apply starts_call | intros; repeat grows_step].
      * intros a. repeat grows_step; apply L.
Qed.

End Facts.

(** *** Dry runs *)

(** A computation that changes neither the device, nor the local disk, nor
    the two counters of the result. *)
Definition inert {A} (m : M A) : Prop :=
  forall s, exists tr,
    trace (snd (m s)) = trace s ++ tr
    /\ forallb (fun e => negb (is_mutation e)) tr = true
    /\ FilesTransferred (res (snd (m s))) = FilesTransferred (res s)
    /\ BytesTransferred (res (snd (m s))) = BytesTransferred (res s).

Lemma inert_ret {A} (a : A) : inert (ret a).
Proof. intros s. exists []. cbn. rewrite app_nil_r. repeat split. Qed.

Lemma inert_emit e : is_mutation e = false -> inert (emit e).
Proof. intros H s. exists [e]. cbn. rewrite H. repeat split. Qed.

Lemma inert_call {A} (answer : list Event -> A) e :
  is_mutation e = false -> inert (call answer e).
Proof. intros H s. exists [e]. cbn. rewrite H. repeat split. Qed.

Lemma inert_record_error err : inert (record_error err).
Proof. intros s. exists []. cbn. rewrite app_nil_r. repeat split. Qed.

Lemma inert_bind {A B} (m : M A) (k : A -> M B) :
  inert m -> (forall a, inert (k a)) -> inert (bind m k).
Proof.
  intros Hm Hk s. unfold bind.
  destruct (Hm s) as [tr1 [Ht1 [Hn1 [Hf1 Hb1]]]].
  destruct (m s) as [a s1]. cbn [snd] in Ht1, Hf1, Hb1.
  destruct (Hk a s1) as [tr2 [Ht2 [Hn2 [Hf2 Hb2]]]].
  exists (tr1 ++ tr2).
  rewrite Ht2, Ht1, Hf2, Hf1, Hb2, Hb1, <- app_assoc, forallb_app, Hn1, Hn2.
  repeat split.
Qed.

Ltac inert_step :=
  first
    [ apply inert_ret | apply inert_record_error
    | apply inert_emit; reflexivity | apply inert_call; reflexivity
    | assumption
    | apply inert_bind; [| intros ? ]
    | match goal with
      | |- inert (if ?b then _ else _) => destruct b
      | |- inert (match ?x with _ => _ end) => destruct x
      end ].

Lemma inert_for_each {A} force (process : A -> M (option error)) entries :
  Forall (fun f => inert (process f)) entries ->
  inert (for_each force process entries).
Proof.
  induction 1 as [| f rest Hf _ IH]; cbn [for_each]; repeat inert_step.
Qed.

Section DryRun.
Variable w : World.
Variable opts : TransferOptions.
Variable deviceID : string.
Hypothesis dry_run : DryRun opts = true.

Lemma downloadFile_dry remotePath localPath size :
  inert (downloadFile w opts deviceID remotePath localPath size).
Proof. unfold downloadFile. rewrite dry_run. repeat inert_step. Qed.

Lemma uploadFile_dry localPath remotePath size :
  inert (uploadFile w opts deviceID localPath remotePath size).
Proof. unfold uploadFile. rewrite dry_run. repeat inert_step. Qed.

Lemma downloadEntry_dry f :
  forall remotePath localPath,
    inert (downloadEntry w opts deviceID f remotePath localPath).
Proof.
  induction f as [name size | name listing_error files IH]
    using RemoteEntry_induction; intros remotePath localPath.
  - apply downloadFile_dry.
  - cbn [downloadEntry]. unfold downloadDirectory_of. rewrite dry_run.
    assert (L : forall lp, inert (download_children_of w opts
                                    (downloadEntry w opts deviceID)
                                    remotePath lp files)).
    { intros lp. unfold download_children_of. apply inert_for_each.
      rewrite Forall_forall in *. intros g Hg. apply IH, Hg. }
    repeat inert_step; apply L.
Qed.

Lemma uploadEntry_dry e :
  forall localPath remotePath,
    inert (uploadEntry w opts deviceID e localPath remotePath).
Proof.
  induction e as [name info | name readdir_error entries IH]
    using LocalEntry_induction; intros localPath remotePath.
  - cbn [uploadEntry]. pose proof uploadFile_dry as U. repeat inert_step.
    apply U.
  - cbn [uploadEntry]. unfold uploadDirectory_of. rewrite dry_run.
    assert (L : forall lp dp, inert (upload_children_of w opts
                                       (uploadEntry w opts deviceID)
                                       lp dp entries)).
    { intros lp dp. unfold upload_children_of. apply inert_for_each.
      rewrite Forall_forall in *. intros g Hg. apply IH, Hg. }
    repeat inert_step; apply L.
Qed.

Lemma upload_paths_dry localPaths remotePath :
  inert (upload_paths w opts deviceID localPaths remotePath).
Proof.
  induction localPaths as [| localPath rest IH]; cbn [upload_paths].
  - apply inert_ret.
  - pose proof uploadFile_dry as U.
    pose proof (fun re en lp rp =>
                  uploadEntry_dry (LDir "" re en) lp rp) as D.
    cbn [uploadEntry] in D. fold (uploadDirectory w opts deviceID) in D.
    repeat first [apply U | apply D | inert_step].
Qed.

(** In a dry run [Upload] and [Download] make no call that changes the
    device or the local disk, and the result they return counts no file and
    no byte. *)
Theorem dry_run_is_inert :
  (forall localPaths remotePath t,
     let '(r, _, t') := Upload w opts deviceID localPaths remotePath t in
     exists tr,
       t' = t ++ tr
       /\ forallb (fun e => negb (is_mutation e)) tr = true
       /\ match r with
          | Some r => FilesTransferred r = 0 /\ BytesTransferred r = 0
          | None => True
          end)
  /\ (forall remotePath localPath t,
        let '(r, _, t') := Download w opts deviceID remotePath localPath t in
        exists tr,
          t' = t ++ tr
          /\ forallb (fun e => negb (is_mutation e)) tr = true
          /\ match r with
             | Some r => FilesTransferred r = 0 /\ BytesTransferred r = 0
             | None => True
             end).
Proof.
  split.
  - intros localPaths remotePath t. unfold Upload.
    destruct (w_CheckDeviceOnline w t deviceID) as [err |].
    + exists [CheckDeviceOnline deviceID]. repeat split.
    + destruct (upload_paths_dry localPaths remotePath
                  (mkState (t ++ [CheckDeviceOnline deviceID]) empty_result))
        as [tr [Ht [Hn [Hf Hb]]]].
      destruct (upload_paths w opts deviceID localPaths remotePath
                  (mkState (t ++ [CheckDeviceOnline deviceID]) empty_result))
        as [err s].
      cbn [snd trace res] in *.
      exists (CheckDeviceOnline deviceID :: tr).
      rewrite Ht, <- app_assoc. cbn [app forallb is_mutation negb andb].
      repeat split; assumption.
  - intros remotePath localPath t. unfold Download.
    destruct (w_CheckDeviceOnline w t deviceID) as [err |].
    + exists [CheckDeviceOnline deviceID]. repeat split.
    + destruct (w_StatFile w (t ++ [CheckDeviceOnline deviceID]) deviceID
                  remotePath) as [[name size | name le files] | err].
      * destruct (downloadFile_dry remotePath localPath size
                    (mkState ((t ++ [CheckDeviceOnline deviceID]) ++
                              [StatFile deviceID remotePath]) empty_result))
          as [tr [Ht [Hn [Hf Hb]]]].
        destruct (downloadFile w opts deviceID remotePath localPath size _)
          as [err s].
        cbn [snd trace res] in *.
        exists (CheckDeviceOnline deviceID :: StatFile deviceID remotePath :: tr).
        rewrite Ht, <- !app_assoc. cbn [app forallb is_mutation negb andb].
        repeat split; assumption.
      * destruct (Recursive opts); cbn [negb].
        -- pose proof (downloadEntry_dry (RDir name le files) remotePath
                         localPath
                         (mkState ((t ++ [CheckDeviceOnline deviceID]) ++
                                   [StatFile deviceID remotePath])
                            empty_result)) as H.
           cbn [downloadEntry] in H.
           fold (downloadDirectory w opts deviceID) in H.
           destruct H as [tr [Ht [Hn [Hf Hb]]]].
           destruct (downloadDirectory w opts deviceID le files remotePath
                       localPath _) as [err s].
           cbn [snd trace res] in *.
           exists (CheckDeviceOnline deviceID :: StatFile deviceID remotePath
                   :: tr).
           rewrite Ht, <- !app_assoc. cbn [app forallb is_mutation negb andb].
           repeat split; assumption.
        -- exists [CheckDeviceOnline deviceID; StatFile deviceID remotePath].
           rewrite <- app_assoc. repeat split.
      * exists [CheckDeviceOnline deviceID; StatFile deviceID remotePath].
        rewrite <- app_assoc. repeat split.
Qed.

End DryRun.

(** *** The error list without force *)

(** A computation that leaves [result.Errors] as it is. *)
Definition keeps_errors {A} (m : M A) : Prop :=
  forall s, Errors (res (snd (m s))) = Errors (res s).

Lemma keeps_errors_ret {A} (a : A) : keeps_errors (ret a).
Proof. intros s. reflexivity. Qed.

Lemma keeps_errors_emit e : keeps_errors (emit e).
Proof. intros s. reflexivity. Qed.

Lemma keeps_errors_call {A} (answer : list Event -> A) e :
  keeps_errors (call answer e).
Proof. intros s. reflexivity. Qed.

Lemma keeps_errors_count_file n : keeps_errors (count_file n).
Proof. intros s. reflexivity. Qed.

Lemma keeps_errors_bind {A B} (m : M A) (k : A -> M B) :
  keeps_errors m -> (forall a, keeps_errors (k a)) -> keeps_errors (bind m k).
Proof.
  intros Hm Hk s. unfold bind. specialize (Hm s).
  destruct (m s) as [a s1]. cbn [snd] in Hm. rewrite <- Hm. apply Hk.
Qed.

Ltac keeps_step :=
  first
    [ apply keeps_errors_ret | apply keeps_errors_emit
    | apply keeps_errors_call | apply keeps_errors_count_file
    | assumption
    | apply keeps_errors_bind; [| intros ? ]
    | match goal with
      | |- keeps_errors (if ?b then _ else _) => destruct b
      | |- keeps_errors (match ?x with _ => _ end) => destruct x
      end ].

Lemma keeps_errors_for_each {A} (process : A -> M (option error)) entries :
  Forall (fun f => keeps_errors (process f)) entries ->
  keeps_errors (for_each false process entries).
Proof.
  induction 1 as [| f rest Hf _ IH]; cbn [for_each].
  - apply keeps_errors_ret.
  - apply keeps_errors_bind; [exact Hf |].
    intros [e |]; [apply keeps_errors_ret | exact IH].
Qed.

Section NoForce.
Variable w : World.
Variable opts : TransferOptions.
Variable deviceID : string.
Hypothesis no_force : Force opts = false.

Lemma downloadFile_keeps_errors remotePath localPath size :
  keeps_errors (downloadFile w opts deviceID remotePath localPath size).
Proof. unfold downloadFile. repeat keeps_step. Qed.

Lemma uploadFile_keeps_errors localPath remotePath size :
  keeps_errors (uploadFile w opts deviceID localPath remotePath size).
Proof. unfold uploadFile. repeat keeps_step. Qed.

Lemma downloadEntry_keeps_errors f :
  forall remotePath localPath,
    keeps_errors (downloadEntry w opts deviceID f remotePath localPath).
Proof.
  induction f as [name size | name listing_error files IH]
    using RemoteEntry_induction; intros remotePath localPath.
  - apply downloadFile_keeps_errors.
  - cbn [downloadEntry]. unfold downloadDirectory_of.
    assert (L : forall lp, keeps_errors (download_children_of w opts
                                           (downloadEntry w opts deviceID)
                                           remotePath lp files)).
    { intros lp. unfold download_children_of. rewrite no_force.
      apply keeps_errors_for_each.
      rewrite Forall_forall in *. intros g Hg. apply IH, Hg. }
    repeat keeps_step; apply L.
Qed.

Lemma uploadEntry_keeps_errors e :
  forall localPath remotePath,
    keeps_errors (uploadEntry w opts deviceID e localPath remotePath).
Proof.
  induction e as [name info | name readdir_error entries IH]
    using LocalEntry_induction; intros localPath remotePath.
  - cbn [uploadEntry]. pose proof uploadFile_keeps_errors as U.
    repeat keeps_step. apply U.
  - cbn [uploadEntry]. unfold uploadDirectory_of.
    assert (L : forall lp dp, keeps_errors (upload_children_of w opts
                                              (uploadEntry w opts deviceID)
                                              lp dp entries)).
    { intros lp dp. unfold upload_children_of. rewrite no_force.
      apply keeps_errors_for_each.
      rewrite Forall_forall in *. intros g Hg. apply IH, Hg. }
    repeat keeps_step; apply L.
Qed.

Lemma upload_paths_keeps_errors localPaths remotePath :
  keeps_errors (upload_paths w opts deviceID localPaths remotePath).
Proof.
  induction localPaths as [| localPath rest IH]; cbn [upload_paths].
  - apply keeps_errors_ret.
  - pose proof uploadFile_keeps_errors as U.
    pose proof (fun re en lp rp =>
                  uploadEntry_keeps_errors (LDir "" re en) lp rp) as D.
    cbn [uploadEntry] in D. fold (uploadDirectory w opts deviceID) in D.
    repeat first [apply U | apply D | keeps_step].
Qed.

Lemma no_force_no_errors :
  (forall localPaths remotePath t,
     match fst (fst (Upload w opts deviceID localPaths remotePath t)) with
     | Some r => Errors r = []
     | None => True
     end)
  /\ (forall remotePath localPath t,
        match fst (fst (Download w opts deviceID remotePath localPath t)) with
        | Some r => Errors r = []
        | None => True
        end).
Proof.
  split.
  - intros localPaths remotePath t. unfold Upload.
    destruct (w_CheckDeviceOnline w t deviceID) as [err |]; [exact I |].
    pose proof (upload_paths_keeps_errors localPaths remotePath
                  (mkState (t ++ [CheckDeviceOnline deviceID]) empty_result))
      as H.
    destruct (upload_paths w opts deviceID localPaths remotePath _) as [err s].
    exact H.
  - intros remotePath localPath t. unfold Download.
    destruct (w_CheckDeviceOnline w t deviceID) as [err |]; [exact I |].
    destruct (w_StatFile w (t ++ [CheckDeviceOnline deviceID]) deviceID
                remotePath) as [[name size | name le files] | err];
      [| | exact I].
    + pose proof (downloadFile_keeps_errors remotePath localPath size
                    (mkState ((t ++ [CheckDeviceOnline deviceID]) ++
                              [StatFile deviceID remotePath]) empty_result))
        as H.
      destruct (downloadFile w opts deviceID remotePath localPath size _)
        as [err s].
      exact H.
    + destruct (Recursive opts); cbn [negb]; [| exact I].
      pose proof (downloadEntry_keeps_errors (RDir name le files) remotePath
                    localPath
                    (mkState ((t ++ [CheckDeviceOnline deviceID]) ++
                              [StatFile deviceID remotePath]) empty_result))
        as H.
      cbn [downloadEntry] in H. fold (downloadDirectory w opts deviceID) in H.
      destruct (downloadDirectory w opts deviceID le files remotePath
                  localPath _) as [err s].
      exact H.
Qed.

End NoForce.

(** *** A nil result *)

Lemma Download_nil_result w opts deviceID remotePath localPath t :
  let '(r, err, t') := Download w opts deviceID remotePath localPath t in
  r = None ->
  err <> None
  /\ (t' = t ++ [CheckDeviceOnline deviceID]
      \/ t' = t ++ [CheckDeviceOnline deviceID; StatFile deviceID remotePath]).
Proof.
  unfold Download.
  destruct (w_CheckDeviceOnline w t deviceID) as [err |].
  { intros _. split; [discriminate | left; reflexivity]. }
  destruct (w_StatFile w (t ++ [CheckDeviceOnline deviceID]) deviceID
              remotePath) as [[name size | name le files] | err].
  - destruct (downloadFile w opts deviceID remotePath localPath size _)
      as [err s]. discriminate.
  - destruct (Recursive opts); cbn [negb].
    + destruct (downloadDirectory w opts deviceID le files remotePath
                  localPath _) as [err s]. discriminate.
    + intros _. split; [discriminate |]. right.
      rewrite <- app_assoc. reflexivity.
  - intros _. split; [discriminate |]. right.
    rewrite <- app_assoc. reflexivity.
Qed.

Lemma Upload_nil_result w opts deviceID localPaths remotePath t :
  let '(r, err, t') := Upload w opts deviceID localPaths remotePath t in
  r = None ->
  err <> None /\ t' = t ++ [CheckDeviceOnline deviceID].
Proof.
  unfold Upload.
  destruct (w_CheckDeviceOnline w t deviceID) as [err |].
  - intros _. split; [discriminate | reflexivity].
  - destruct (upload_paths w opts deviceID localPaths remotePath _)
      as [err s]. discriminate.
Qed.

(** *** The loop of [Upload] over the paths of the command line *)

Lemma upload_paths_app w opts deviceID remotePath l1 l2 :
  forall s,
    upload_paths w opts deviceID (l1 ++ l2) remotePath s
    = match upload_paths w opts deviceID l1 remotePath s with
      | (Some err, s1) => (Some err, s1)
      | (None, s1) => upload_paths w opts deviceID l2 remotePath s1
      end.
Proof.
  induction l1 as [| localPath rest IH]; intros s; [reflexivity |].
  cbn [app upload_paths]. unfold bind, call.
  destruct (w_Stat w (trace s) localPath) as [[size | re en] | err].
  - destruct (uploadFile w opts deviceID localPath _ size _) as [[e |] s1];
      [reflexivity | apply IH].
  - destruct (negb (Recursive opts)); [reflexivity |].
    destruct (uploadDirectory w opts deviceID re en localPath remotePath _)
      as [[e |] s1]; [reflexivity | apply IH].
  - reflexivity.
Qed.

(** *** A property of every call of a run *)

Section Each.
Variable ok : list Event -> Event -> Prop.

(** [each t tr]: every call of [tr] is [ok] given the calls made before it,
    which are [t] and the calls of [tr] in front of it. *)
Fixpoint each (t tr : list Event) : Prop :=
  match tr with
  | [] => True
  | e :: rest => ok t e /\ each (t ++ [e]) rest
  end.

Lemma each_app a : forall t b, each t a -> each (t ++ a) b -> each t (a ++ b).
Proof.
  induction a as [| e a IH]; intros t b Ha Hb; cbn [app each] in *.
  - rewrite app_nil_r in Hb. exact Hb.
  - destruct Ha as [He Ha]. split; [exact He |].
    apply IH; [exact Ha |]. rewrite <- app_assoc. exact Hb.
Qed.

Lemma each_at pre : forall t e post,
  each t (pre ++ e :: post) -> ok (t ++ pre) e.
Proof.
  induction pre as [| x pre IH]; intros t e post H; cbn [app each] in H.
  - rewrite app_nil_r. apply H.
  - destruct H as [_ H]. apply IH in H. rewrite <- app_assoc in H. exact H.
Qed.

Definition obeys {A} (m : M A) : Prop :=
  forall s, exists tr, trace (snd (m s)) = trace s ++ tr /\ each (trace s) tr.

Lemma obeys_ret {A} (a : A) : obeys (ret a).
Proof. intros s. exists []. cbn. rewrite app_nil_r. split; [reflexivity | exact I]. Qed.

Lemma obeys_update f : obeys (update f).
Proof. intros s. exists []. cbn. rewrite app_nil_r. split; [reflexivity | exact I]. Qed.

Lemma obeys_emit e : (forall t, ok t e) -> obeys (emit e).
Proof. intros H s. exists [e]. cbn. repeat split. apply H. Qed.

Lemma obeys_call {A} (answer : list Event -> A) e :
  (forall t, ok t e) -> obeys (call answer e).
Proof. intros H s. exists [e]. cbn. repeat split. apply H. Qed.

Lemma obeys_bind {A B} (m : M A) (k : A -> M B) :
  obeys m -> (forall a, obeys (k a)) -> obeys (bind m k).
Proof.
  intros Hm Hk s. unfold bind.
  destruct (Hm s) as [tr1 [Ht1 He1]]. destruct (m s) as [a s1].
  cbn [snd] in Ht1. destruct (Hk a s1) as [tr2 [Ht2 He2]].
  exists (tr1 ++ tr2). rewrite Ht2, Ht1, <- app_assoc. split; [reflexivity |].
  apply each_app; [exact He1 |]. rewrite <- Ht1. exact He2.
Qed.

End Each.

Ltac obeys_step solve_ok :=
  first
    [ apply obeys_ret | apply obeys_update
    | apply obeys_emit; intros ?; solve_ok
    | apply obeys_call; intros ?; solve_ok
    | assumption
    | apply obeys_bind; [| intros ? ]
    | match goal with
      | |- obeys _ (if ?b then _ else _) => destruct b
      | |- obeys _ (match ?x with _ => _ end) => destruct x
      end ].

Lemma obeys_for_each ok {A} force (process : A -> M (option error)) entries :
  Forall (fun f => obeys ok (process f)) entries ->
  obeys ok (for_each force process entries).
Proof.
  induction 1 as [| f rest Hf _ IH]; cbn [for_each];
    unfold record_error; repeat obeys_step fail.
Qed.

(** The calls the orchestrator makes outside [downloadFile] and
    [uploadFile]. *)
Definition structural (e : Event) : bool :=
  match e with
  | CheckDeviceOnline _ | StatFile _ _ | ListFiles _ _ | MkdirOnDevice _ _
  | OsStat _ | OsMkdirAll _ | OsReadDir _ | EntryInfo _ | Print _ => true
  | _ => false
  end.

Section Lift.
Variable ok : list Event -> Event -> Prop.
Variable w : World.
Variable opts : TransferOptions.
Variable deviceID : string.
Hypothesis ok_structural : forall t e, structural e = true -> ok t e.
Hypothesis downloadFile_obeys : forall remotePath localPath size,
  obeys ok (downloadFile w opts deviceID remotePath localPath size).
Hypothesis uploadFile_obeys : forall localPath remotePath size,
  obeys ok (uploadFile w opts deviceID localPath remotePath size).

Ltac structural_ok := apply ok_structural; reflexivity.

Lemma downloadEntry_obeys f :
  forall remotePath localPath,
    obeys ok (downloadEntry w opts deviceID f remotePath localPath).
Proof.
  induction f as [name size | name listing_error files IH]
    using RemoteEntry_induction; intros remotePath localPath.
  - apply downloadFile_obeys.
  - cbn [downloadEntry]. unfold downloadDirectory_of.
    assert (L : forall lp, obeys ok (download_children_of w opts
                                       (downloadEntry w opts deviceID)
                                       remotePath lp files)).
    { intros lp. unfold download_children_of. apply obeys_for_each.
      rewrite Forall_forall in *. intros g Hg. apply IH, Hg. }
    repeat obeys_step structural_ok; apply L.
Qed.

Lemma uploadEntry_obeys e :
  forall localPath remotePath,
    obeys ok (uploadEntry w opts deviceID e localPath remotePath).
Proof.
  induction e as [name info | name readdir_error entries IH]
    using LocalEntry_induction; intros localPath remotePath.
  - cbn [uploadEntry]. pose proof uploadFile_obeys as U.
    repeat obeys_step structural_ok. apply U.
  - cbn [uploadEntry]. unfold uploadDirectory_of.
    assert (L : forall lp dp, obeys ok (upload_children_of w opts
                                          (uploadEntry w opts deviceID)
                                          lp dp entries)).
    { intros lp dp. unfold upload_children_of. apply obeys_for_each.
      rewrite Forall_forall in *. intros g Hg. apply IH, Hg. }
    repeat obeys_step structural_ok; apply L.
Qed.

Lemma upload_paths_obeys localPaths remotePath :
  obeys ok (upload_paths w opts deviceID localPaths remotePath).
Proof.
  induction localPaths as [| localPath rest IH]; cbn [upload_paths].
  - apply obeys_ret.
  - pose proof uploadFile_obeys as U.
    pose proof (fun re en lp rp =>
                  uploadEntry_obeys (LDir "" re en) lp rp) as D.
    cbn [uploadEntry] in D. fold (uploadDirectory w opts deviceID) in D.
    repeat first [apply U | apply D | obeys_step structural_ok].
Qed.

Lemma Upload_obeys localPaths remotePath t :
  exists tr,
    snd (Upload w opts deviceID localPaths remotePath t) = t ++ tr
    /\ each ok t tr.
Proof.
  unfold Upload.
  assert (C : ok t (CheckDeviceOnline deviceID)) by structural_ok.
  destruct (w_CheckDeviceOnline w t deviceID) as [err |].
  - exists [CheckDeviceOnline deviceID]. cbn. repeat split. exact C.
  - destruct (upload_paths_obeys localPaths remotePath
                (mkState (t ++ [CheckDeviceOnline deviceID]) empty_result))
      as [tr [Ht He]].
    destruct (upload_paths w opts deviceID localPaths remotePath _) as [err s].
    cbn [snd trace] in *. exists (CheckDeviceOnline deviceID :: tr).
    rewrite Ht, <- app_assoc. split; [reflexivity |].
    cbn [each]. split; assumption.
Qed.

Lemma Download_obeys remotePath localPath t :
  exists tr,
    snd (Download w opts deviceID remotePath localPath t) = t ++ tr
    /\ each ok t tr.
Proof.
  unfold Download.
  assert (C : ok t (CheckDeviceOnline deviceID)) by structural_ok.
  assert (S : ok (t ++ [CheckDeviceOnline deviceID])
                (StatFile deviceID remotePath)) by structural_ok.
  destruct (w_CheckDeviceOnline w t deviceID) as [err |].
  { exists [CheckDeviceOnline deviceID]. cbn. repeat split. exact C. }
  assert (Two : forall r err,
            exists tr,
              snd (r : option TransferResult, err : option error,
                   (t ++ [CheckDeviceOnline deviceID]) ++
                   [StatFile deviceID remotePath]) = t ++ tr
              /\ each ok t tr).
  { intros r err.
    exists [CheckDeviceOnline deviceID; StatFile deviceID remotePath].
    cbn [snd each]. rewrite <- app_assoc. repeat split; assumption. }
  assert (More : forall (m : M (option error)),
            obeys ok m ->
            exists tr,
              snd (let '(err, s) :=
                     m (mkState ((t ++ [CheckDeviceOnline deviceID]) ++
                                 [StatFile deviceID remotePath]) empty_result) in
                   (Some (res s), err, trace s)) = t ++ tr
              /\ each ok t tr).
  { intros m Hm.
    destruct (Hm (mkState ((t ++ [CheckDeviceOnline deviceID]) ++
                           [StatFile deviceID remotePath]) empty_result))
      as [tr [Ht He]].
    destruct (m _) as [err s]. cbn [snd trace] in *.
    exists (CheckDeviceOnline deviceID :: StatFile deviceID remotePath :: tr).
    rewrite Ht, <- !app_assoc. split; [reflexivity |].
    cbn [each]. repeat split; assumption. }
  destruct (w_StatFile w (t ++ [CheckDeviceOnline deviceID]) deviceID
              remotePath) as [[name size | name le files] | err].
  - apply More, downloadFile_obeys.
  - destruct (Recursive opts); cbn [negb]; [| apply Two].
    apply More.
    pose proof (downloadEntry_obeys (RDir name le files) remotePath localPath)
      as H.
    exact H.
  - apply Two.
Qed.

End Lift.

(** *** Files are created only where none was found *)

(** [os.Create(p)] comes as the fourth call of the sequence [os.Stat(p)],
    [os.MkdirAll], [DownloadFile], [os.Create(p)], and that [os.Stat] failed:
    it found no file. *)
Definition checked (w : World) (t : list Event) (p : string) : Prop :=
  exists a dir d r,
    t = a ++ [OsStat p; OsMkdirAll dir; DownloadFile d r]
    /\ is_err (w_Stat w a p) = true.

Definition create_ok (w : World) (t : list Event) (e : Event) : Prop :=
  match e with
  | OsCreate p => checked w t p
  | _ => True
  end.

(** *** What is uploaded is what was read *)

(** [UploadFile] with content [c] comes directly after the [io.ReadAll] of a
    local file that returned [c]. *)
Definition upload_ok (w : World) (t : list Event) (e : Event) : Prop :=
  match e with
  | UploadFile _ _ c =>
      exists a localPath, t = a ++ [ReadAll localPath]
                          /\ w_ReadAll w a localPath = Ok c
  | _ => True
  end.

Section Leaves.
Variable w : World.
Variable opts : TransferOptions.
Variable deviceID : string.

Ltac plain_ok := exact I.

Lemma uploadFile_creates_nothing localPath remotePath size :
  obeys (create_ok w) (uploadFile w opts deviceID localPath remotePath size).
Proof. unfold uploadFile, count_file. repeat obeys_step plain_ok. Qed.

Lemma downloadFile_uploads_nothing remotePath localPath size :
  obeys (upload_ok w) (downloadFile w opts deviceID remotePath localPath size).
Proof. unfold downloadFile, count_file. repeat obeys_step plain_ok. Qed.

Lemma uploadFile_sends_what_it_read localPath remotePath size :
  obeys (upload_ok w) (uploadFile w opts deviceID localPath remotePath size).
Proof.
  unfold uploadFile. destruct (DryRun opts); [repeat obeys_step plain_ok |].
  apply obeys_bind; [apply obeys_call; intros ?; exact I |].
  intros [err |]; [apply obeys_ret |].
  intros s. unfold bind at 1. unfold call at 1.
  destruct (w_ReadAll w (trace s) localPath) as [content | err] eqn:Eread.
  - set (s1 := mkState (trace s ++ [ReadAll localPath]) (res s)).
    unfold bind at 1. unfold call at 1.
    set (s2 := mkState (trace s1 ++ [UploadFile deviceID remotePath content])
                 (res s1)).
    assert (Tail : forall (m : M (option error)),
              obeys (upload_ok w) m ->
              exists tr,
                trace (snd (m s2)) = trace s ++ tr /\ each (upload_ok w) (trace s) tr).
    { intros m Hm. destruct (Hm s2) as [tr [Ht He]].
      exists (ReadAll localPath :: UploadFile deviceID remotePath content :: tr).
      rewrite Ht. unfold s2, s1. cbn [trace]. rewrite <- !app_assoc.
      split; [reflexivity |]. cbn [each upload_ok].
      split; [exact I |]. split.
      - exists (trace s), localPath. split; [reflexivity | exact Eread].
      - exact He. }
    destruct (w_UploadFile w (trace s1) deviceID remotePath content) as [err |];
      apply Tail; unfold count_file; repeat obeys_step plain_ok.
  - set (s1 := mkState (trace s ++ [ReadAll localPath]) (res s)).
    assert (Tail : forall (m : M (option error)),
              obeys (upload_ok w) m ->
              exists tr,
                trace (snd (m s1)) = trace s ++ tr /\ each (upload_ok w) (trace s) tr).
    { intros m Hm. destruct (Hm s1) as [tr [Ht He]].
      exists (ReadAll localPath :: tr).
      rewrite Ht. unfold s1. cbn [trace]. rewrite <- !app_assoc.
      split; [reflexivity |]. cbn [each upload_ok]. split; [exact I | exact He]. }
    apply Tail. repeat obeys_step plain_ok.
Qed.

Hypothesis no_force : Force opts = false.

Lemma downloadFile_creates_checked remotePath localPath size :
  obeys (create_ok w) (downloadFile w opts deviceID remotePath localPath size).
Proof.
  unfold downloadFile. destruct (DryRun opts); [repeat obeys_step plain_ok |].
  rewrite no_force.
  set (lp := ResolveLocalDestination (platform w) remotePath localPath).
  set (dir := Dir (platform w) lp).
  intros s. unfold bind at 1. unfold call at 1.
  destruct (w_Stat w (trace s) lp) as [info | err0] eqn:Estat; cbn [is_err negb].
  { exists [OsStat lp]. cbn. repeat split. }
  unfold bind at 1. unfold call at 1. cbn [trace res].
  destruct (w_MkdirAll w (trace s ++ [OsStat lp]) dir) as [err1 |].
  { exists [OsStat lp; OsMkdirAll dir]. cbn. rewrite <- app_assoc.
    repeat split. }
  unfold bind at 1. unfold call at 1. cbn [trace res].
  destruct (w_DownloadFile w ((trace s ++ [OsStat lp]) ++ [OsMkdirAll dir])
              deviceID remotePath) as [contentLength | err2].
  2:{ exists [OsStat lp; OsMkdirAll dir; DownloadFile deviceID remotePath].
      cbn. rewrite <- !app_assoc. repeat split. }
  unfold bind at 1. unfold call at 1. cbn [trace res].
  set (t3 := ((trace s ++ [OsStat lp]) ++ [OsMkdirAll dir]) ++
             [DownloadFile deviceID remotePath]).
  assert (Hchecked : checked w t3 lp).
  { exists (trace s), dir, deviceID, remotePath. unfold t3.
    rewrite <- !app_assoc. split; [reflexivity |]. rewrite Estat. reflexivity. }
  set (s4 := mkState (t3 ++ [OsCreate lp]) (res s)).
  assert (Tail : forall (m : M (option error)),
            obeys (create_ok w) m ->
            exists tr,
              trace (snd (m s4)) = trace s ++ tr
              /\ each (create_ok w) (trace s) tr).
  { intros m Hm. destruct (Hm s4) as [tr [Ht He]].
    exists (OsStat lp :: OsMkdirAll dir :: DownloadFile deviceID remotePath
            :: OsCreate lp :: tr).
    rewrite Ht. unfold s4, t3. cbn [trace]. rewrite <- !app_assoc.
    split; [reflexivity |]. cbn [each create_ok app].
    split; [exact I |]. split; [exact I |]. split; [exact I |].
    split; [exact Hchecked | exact He]. }
  destruct (w_Create w t3 lp) as [err3 |]; apply Tail; unfold count_file;
    repeat obeys_step plain_ok.
Qed.

End Leaves.

(** *** Counting from the calls *)

Section Tally.
Variable score : list Event -> Event -> Z.
Variable proj : TransferResult -> Z.
Variable gain : Z -> Z.
Hypothesis proj_count : forall r n,
  proj (mkResult (FilesTransferred r + 1) (BytesTransferred r + n) (Errors r))
  = proj r + gain n.
Hypothesis proj_error : forall r err,
  proj (mkResult (FilesTransferred r) (BytesTransferred r) (Errors r ++ [err]))
  = proj r.

(** The sum of the scores of the calls of [tr], each taken with the calls
    made before it. *)
Fixpoint tally (t tr : list Event) : Z :=
  match tr with
  | [] => 0
  | e :: rest => score t e + tally (t ++ [e]) rest
  end.

Lemma tally_app a : forall t b, tally t (a ++ b) = tally t a + tally (t ++ a) b.
Proof.
  induction a as [| e a IH]; intros t b; cbn [app tally].
  - rewrite app_nil_r. lia.
  - rewrite IH, <- app_assoc. cbn [app]. lia.
Qed.

(** A computation whose effect on the counter is [delta] plus the tally of
    the calls it makes. *)
Definition tracks {A} (delta : Z) (m : M A) : Prop :=
  forall s, exists tr,
    trace (snd (m s)) = trace s ++ tr
    /\ proj (res (snd (m s))) = proj (res s) + delta + tally (trace s) tr.

Lemma tracks_ret {A} (a : A) : tracks 0 (ret a).
Proof. intros s. exists []. cbn. rewrite app_nil_r. split; [reflexivity | lia]. Qed.

Lemma tracks_emit e : (forall t, score t e = 0) -> tracks 0 (emit e).
Proof. intros H s. exists [e]. cbn. rewrite H. split; [reflexivity | lia]. Qed.

Lemma tracks_call {A} (answer : list Event -> A) e :
  (forall t, score t e = 0) -> tracks 0 (call answer e).
Proof. intros H s. exists [e]. cbn. rewrite H. split; [reflexivity | lia]. Qed.

Lemma tracks_record_error err : tracks 0 (record_error err).
Proof.
  intros s. exists []. cbn. rewrite app_nil_r, proj_error.
  split; [reflexivity | lia].
Qed.

Lemma tracks_bind {A B} a b (m : M A) (k : A -> M B) :
  tracks a m -> (forall x, tracks b (k x)) -> tracks (a + b) (bind m k).
Proof.
  intros Hm Hk s. unfold bind.
  destruct (Hm s) as [tr1 [Ht1 Hp1]]. destruct (m s) as [x s1].
  cbn [snd] in Ht1, Hp1. destruct (Hk x s1) as [tr2 [Ht2 Hp2]].
  exists (tr1 ++ tr2). rewrite Ht2, Hp2, Ht1, Hp1, tally_app, <- app_assoc.
  split; [reflexivity | lia].
Qed.

Lemma tracks_bind0 {A B} d (m : M A) (k : A -> M B) :
  tracks 0 m -> (forall x, tracks d (k x)) -> tracks d (bind m k).
Proof. intros Hm Hk. apply (tracks_bind 0 d m k Hm Hk). Qed.

Lemma tracks_count_bind {B} n (k : unit -> M B) :
  (forall x, tracks 0 (k x)) -> tracks (gain n) (bind (count_file n) k).
Proof.
  intros Hk. replace (gain n) with (gain n + 0) by lia.
  apply tracks_bind; [| exact Hk].
  intros s. exists []. cbn. rewrite app_nil_r, proj_count.
  split; [reflexivity | lia].
Qed.

(** A call whose score is the credit its answer earns, followed by a
    computation that accounts for that credit. *)
Lemma tracks_scored_call {A B} (credit : A -> Z) (answer : list Event -> A) e
    (k : A -> M B) :
  (forall t, score t e = credit (answer t)) ->
  (forall x, tracks (credit x) (k x)) ->
  tracks 0 (bind (call answer e) k).
Proof.
  intros Hs Hk s. unfold bind, call.
  destruct (Hk (answer (trace s)) (mkState (trace s ++ [e]) (res s)))
    as [tr [Ht Hp]].
  cbn [trace res] in Ht, Hp.
  exists (e :: tr). rewrite Ht, Hp, <- app_assoc. cbn [app tally].
  rewrite Hs. split; [reflexivity | lia].
Qed.

Lemma tracks_for_each {A} force (process : A -> M (option error)) entries :
  Forall (fun f => tracks 0 (process f)) entries ->
  tracks 0 (for_each force process entries).
Proof.
  induction 1 as [| f rest Hf _ IH]; cbn [for_each].
  - apply tracks_ret.
  - apply tracks_bind0; [exact Hf |]. intros [err |]; [| exact IH].
    destruct force; [| apply tracks_ret].
    apply tracks_bind0; [apply tracks_record_error | intros _; exact IH].
Qed.

End Tally.

Ltac tracks_step :=
  first
    [ apply tracks_ret | apply tracks_record_error
    | apply tracks_emit; intros ?; reflexivity
    | apply tracks_call; intros ?; reflexivity
    | assumption
    | apply tracks_bind0; [| intros ? ]
    | match goal with
      | |- tracks _ _ _ (if ?b then _ else _) => destruct b
      | |- tracks _ _ _ (match ?x with _ => _ end) => destruct x
      end ].

(** An accepted [UploadFile] scores one. *)
Definition upload_score (w : World) (t : list Event) (e : Event) : Z :=
  match e with
  | UploadFile d p c =>
      match w_UploadFile w t d p c with None => 1 | Some _ => 0 end
  | _ => 0
  end.

(** A copy to a local file that ends without an error scores [gain written],
    [written] being the count it returned. *)
Definition copy_score (gain : Z -> Z) (w : World) (t : list Event) (e : Event)
    : Z :=
  match e with
  | CopyTo p =>
      match w_Copy w t p with
      | (written, None) => gain written
      | (_, Some _) => 0
      end
  | _ => 0
  end.

Section Accounts.
Variable w : World.
Variable opts : TransferOptions.
Variable deviceID : string.

Section Generic.
Variable score : list Event -> Event -> Z.
Variable proj : TransferResult -> Z.
Variable gain : Z -> Z.
Hypothesis proj_count : forall r n,
  proj (mkResult (FilesTransferred r + 1) (BytesTransferred r + n) (Errors r))
  = proj r + gain n.
Hypothesis proj_error : forall r err,
  proj (mkResult (FilesTransferred r) (BytesTransferred r) (Errors r ++ [err]))
  = proj r.
Hypothesis proj_empty : proj empty_result = 0.
Hypothesis score_structural : forall t e, structural e = true -> score t e = 0.
Hypothesis downloadFile_tracks : forall remotePath localPath size,
  tracks score proj 0 (downloadFile w opts deviceID remotePath localPath size).
Hypothesis uploadFile_tracks : forall localPath remotePath size,
  tracks score proj 0 (uploadFile w opts deviceID localPath remotePath size).

Ltac structural_step :=
  first
    [ apply tracks_ret | apply (tracks_record_error score proj proj_error)
    | apply tracks_emit; intros ?; apply score_structural; reflexivity
    | apply tracks_call; intros ?; apply score_structural; reflexivity
    | assumption
    | apply tracks_bind0; [| intros ? ]
    | match goal with
      | |- tracks _ _ _ (if ?b then _ else _) => destruct b
      | |- tracks _ _ _ (match ?x with _ => _ end) => destruct x
      end ].

Lemma downloadEntry_tracks f :
  forall remotePath localPath,
    tracks score proj 0 (downloadEntry w opts deviceID f remotePath localPath).
Proof.
  induction f as [name size | name listing_error files IH]
    using RemoteEntry_induction; intros remotePath localPath.
  - apply downloadFile_tracks.
  - cbn [downloadEntry]. unfold downloadDirectory_of.
    assert (L : forall lp, tracks score proj 0
                             (download_children_of w opts
                                (downloadEntry w opts deviceID)
                                remotePath lp files)).
    { intros lp. unfold download_children_of.
      apply (tracks_for_each score proj proj_error).
      rewrite Forall_forall in *. intros g Hg. apply IH, Hg. }
    repeat structural_step; apply L.
Qed.

Lemma uploadEntry_tracks e :
  forall localPath remotePath,
    tracks score proj 0 (uploadEntry w opts deviceID e localPath remotePath).
Proof.
  induction e as [name info | name readdir_error entries IH]
    using LocalEntry_induction; intros localPath remotePath.
  - cbn [uploadEntry]. pose proof uploadFile_tracks as U.
    repeat structural_step. apply U.
  - cbn [uploadEntry]. unfold uploadDirectory_of.
    assert (L : forall lp dp, tracks score proj 0
                                (upload_children_of w opts
                                   (uploadEntry w opts deviceID)
                                   lp dp entries)).
    { intros lp dp. unfold upload_children_of.
      apply (tracks_for_each score proj proj_error).
      rewrite Forall_forall in *. intros g Hg. apply IH, Hg. }
    repeat structural_step; apply L.
Qed.

Lemma upload_paths_tracks localPaths remotePath :
  tracks score proj 0 (upload_paths w opts deviceID localPaths remotePath).
Proof.
  induction localPaths as [| localPath rest IH]; cbn [upload_paths].
  - apply tracks_ret.
  - pose proof uploadFile_tracks as U.
    pose proof (fun re en lp rp =>
                  uploadEntry_tracks (LDir "" re en) lp rp) as D.
    cbn [uploadEntry] in D. fold (uploadDirectory w opts deviceID) in D.
    repeat first [apply U | apply D | structural_step].
Qed.

Lemma Upload_tracks localPaths remotePath t :
  let '(r, _, t') := Upload w opts deviceID localPaths remotePath t in
  exists tr,
    t' = t ++ tr
    /\ match r with
       | Some r => proj r = tally score t tr
       | None => True
       end.
Proof.
  unfold Upload.
  assert (C : score t (CheckDeviceOnline deviceID) = 0)
    by (apply score_structural; reflexivity).
  destruct (w_CheckDeviceOnline w t deviceID) as [err |].
  - exists [CheckDeviceOnline deviceID]. split; [reflexivity | exact I].
  - destruct (upload_paths_tracks localPaths remotePath
                (mkState (t ++ [CheckDeviceOnline deviceID]) empty_result))
      as [tr [Ht Hp]].
    destruct (upload_paths w opts deviceID localPaths remotePath _) as [err s].
    cbn [snd trace res] in *. exists (CheckDeviceOnline deviceID :: tr).
    rewrite Ht, <- app_assoc. split; [reflexivity |].
    cbn [tally]. rewrite Hp, proj_empty, C. lia.
Qed.

Lemma Download_tracks remotePath localPath t :
  let '(r, _, t') := Download w opts deviceID remotePath localPath t in
  exists tr,
    t' = t ++ tr
    /\ match r with
       | Some r => proj r = tally score t tr
       | None => True
       end.
Proof.
  unfold Download.
  assert (C : score t (CheckDeviceOnline deviceID) = 0)
    by (apply score_structural; reflexivity).
  assert (S : score (t ++ [CheckDeviceOnline deviceID])
                (StatFile deviceID remotePath) = 0)
    by (apply score_structural; reflexivity).
  destruct (w_CheckDeviceOnline w t deviceID) as [err |].
  { exists [CheckDeviceOnline deviceID]. split; [reflexivity | exact I]. }
  assert (More : forall (m : M (option error)),
            tracks score proj 0 m ->
            let '(r, _, t') :=
              (let '(err, s) :=
                 m (mkState ((t ++ [CheckDeviceOnline deviceID]) ++
                             [StatFile deviceID remotePath]) empty_result) in
               (Some (res s), err, trace s)) in
            exists tr,
              t' = t ++ tr
              /\ match r with
                 | Some r => proj r = tally score t tr
                 | None => True
                 end).
  { intros m Hm.
    destruct (Hm (mkState ((t ++ [CheckDeviceOnline deviceID]) ++
                           [StatFile deviceID remotePath]) empty_result))
      as [tr [Ht Hp]].
    destruct (m _) as [err s]. cbn [snd trace res] in *.
    exists (CheckDeviceOnline deviceID :: StatFile deviceID remotePath :: tr).
    rewrite Ht, <- !app_assoc. split; [reflexivity |].
    cbn [tally]. rewrite Hp, proj_empty, C, S, <- app_assoc. cbn [app]. lia. }
  destruct (w_StatFile w (t ++ [CheckDeviceOnline deviceID]) deviceID
              remotePath) as [[name size | name le files] | err].
  - apply More, downloadFile_tracks.
  - destruct (Recursive opts); cbn [negb].
    + apply More.
      exact (downloadEntry_tracks (RDir name le files) remotePath localPath).
    + exists [CheckDeviceOnline deviceID; StatFile deviceID remotePath].
      rewrite <- app_assoc. split; [reflexivity | exact I].
  - exists [CheckDeviceOnline deviceID; StatFile deviceID remotePath].
    rewrite <- app_assoc. split; [reflexivity | exact I].
Qed.

End Generic.

(** The leaves, for the three counters. *)

Lemma files_count r n :
  FilesTransferred
    (mkResult (FilesTransferred r + 1) (BytesTransferred r + n) (Errors r))
  = FilesTransferred r + (fun _ => 1) n.
Proof. reflexivity. Qed.

Lemma bytes_count r n :
  BytesTransferred
    (mkResult (FilesTransferred r + 1) (BytesTransferred r + n) (Errors r))
  = BytesTransferred r + (fun n => n) n.
Proof. reflexivity. Qed.

Lemma uploadFile_counts_uploads localPath remotePath size :
  tracks (upload_score w) FilesTransferred 0
    (uploadFile w opts deviceID localPath remotePath size).
Proof.
  unfold uploadFile. destruct (DryRun opts); [repeat tracks_step |].
  apply tracks_bind0; [apply tracks_call; intros ?; reflexivity |].
  intros [err |]; [apply tracks_ret |]. cbv zeta.
  apply tracks_bind0; [apply tracks_call; intros ?; reflexivity |].
  intros [content | err]; [| repeat tracks_step].
  apply (tracks_scored_call (upload_score w) FilesTransferred
           (fun x : option error => match x with None => 1 | Some _ => 0 end)).
  - intros t. reflexivity.
  - intros [err |]; [repeat tracks_step |].
    apply (tracks_count_bind (upload_score w) FilesTransferred (fun _ => 1)
             files_count).
    intros _. repeat tracks_step.
Qed.

Lemma downloadFile_counts_copies (proj : TransferResult -> Z) (gain : Z -> Z)
    remotePath localPath size :
  (forall r n,
     proj (mkResult (FilesTransferred r + 1) (BytesTransferred r + n) (Errors r))
     = proj r + gain n) ->
  tracks (copy_score gain w) proj 0
    (downloadFile w opts deviceID remotePath localPath size).
Proof.
  intros proj_count.
  unfold downloadFile. destruct (DryRun opts); [repeat tracks_step |].
  apply tracks_bind0.
  { destruct (Force opts);
      [apply tracks_ret | apply tracks_call; intros ?; reflexivity]. }
  intros present. destruct present; [apply tracks_ret |].
  cbv zeta.
  apply tracks_bind0; [apply tracks_call; intros ?; reflexivity |].
  intros [err |]; [apply tracks_ret |].
  apply tracks_bind0; [apply tracks_call; intros ?; reflexivity |].
  intros [contentLength | err]; [| apply tracks_ret].
  apply tracks_bind0; [apply tracks_call; intros ?; reflexivity |].
  intros [err |]; [apply tracks_ret |].
  apply (tracks_scored_call (copy_score gain w) proj
           (fun x : Z * option error =>
              match x with
              | (written, None) => gain written
              | (_, Some _) => 0
              end)).
  - intros t. reflexivity.
  - intros [written [err |]]; [repeat tracks_step |].
    apply (tracks_count_bind (copy_score gain w) proj gain proj_count).
    intros _. repeat tracks_step.
Qed.

End Accounts.

Lemma create_ok_structural w t e : structural e = true -> create_ok w t e.
Proof. destruct e; intros H; try exact I. discriminate H. Qed.

Lemma upload_ok_structural w t e : structural e = true -> upload_ok w t e.
Proof. destruct e; intros H; try exact I. discriminate H. Qed.

Lemma upload_score_structural w t e : structural e = true -> upload_score w t e = 0.
Proof. destruct e; intros H; try reflexivity. discriminate H. Qed.

Lemma copy_score_structural gain w t e :
  structural e = true -> copy_score gain w t e = 0.
Proof. destruct e; intros H; try reflexivity. discriminate H. Qed.

(** *** The [get] command ([cmd/get.go]) *)

Record GetFlags : Type := mkGetFlags {
  get_recursive : bool;
  get_limit : string;
  get_progress : bool;
  get_force : bool;
  get_dry_run : bool
}.

(** The lines [runGet] itself prints. *)
Inductive GetLine : Type :=
| DownloadingFrom (deviceID : string)
| GetDryRunComplete (files : Z)
| DownloadedSummary (files bytes : Z)
| GetWarnings (errors : list error).

(** [runGet]: [args] are the positional arguments (one or two, as
    [cobra.RangeArgs(1, 2)] demands), [quiet] is [IsQuiet()].  It returns the
    error, the calls made up to its return, and the lines it printed itself:
    the header, printed before [Download] is called, then the summary and the
    warnings, printed after [Download] has returned. *)
Definition runGet (w : World) (flags : GetFlags) (quiet : bool)
    (args : list string) (t : list Event)
    : option error * list Event * list GetLine :=
  let source := hd ""%string args in
  if negb (IsRemotePath source) then
    (Some (ErrNew ("invalid source " ++ quote source ++
                   ": expected format device:path")), t, [])
  else
    match ParseRemotePath source with
    | Err err => (Some err, t, [])
    | Ok remote =>
        let dest := match args with _ :: d :: _ => d | _ => ""%string end in
        match Throttle.ParseBandwidthLimit (get_limit flags) with
        | Err err => (Some err, t, [])
        | Ok limit =>
            let showProgress := get_progress flags && w_isTerminal w in
            let opts := mkOptions (get_recursive flags) limit quiet
                          (get_force flags) (get_dry_run flags) showProgress in
            let t1 := t ++ [NewClient] in
            match w_NewClient w t with
            | Some err => (Some err, t1, [])
            | None =>
                let header :=
                  if negb quiet && negb (get_dry_run flags)
                  then [DownloadingFrom (DeviceID remote)] else [] in
                match Download w opts (DeviceID remote) (Path remote) dest t1 with
                | (_, Some err, t2) =>
                    (Some (ErrWrap "download failed" err), t2, header)
                | (None, None, t2) =>
                    (Some (Panic "nil pointer dereference"), t2, header)
                | (Some r, None, t2) =>
                    let summary :=
                      if negb quiet then
                        if get_dry_run flags
                        then [GetDryRunComplete (FilesTransferred r)]
                        else [DownloadedSummary (FilesTransferred r)
                                (BytesTransferred r)]
                      else [] in
                    let warnings :=
                      if (0 <? length (Errors r))%nat
                      then [GetWarnings (Errors r)] else [] in
                    (None, t2, header ++ summary ++ warnings)
                end
            end
        end
    end.

Example runGet_one_file :
  runGet calm (mkGetFlags false "" true false false) false
    ["dev:/f"; "out.txt"]%string []
  = (None,
     [NewClient; CheckDeviceOnline "dev"; StatFile "dev" "/f"; OsStat "out.txt";
      OsMkdirAll "."; DownloadFile "dev" "/f"; OsCreate "out.txt";
      CopyTo "out.txt"; Print (DownloadedLine "f" 3)],
     [DownloadingFrom "dev"; DownloadedSummary 1 3]).
Proof. vm_compute. reflexivity. Qed.

(** The calls of [Download] come after the calls made before it. *)
Lemma Download_extends w opts deviceID remotePath localPath t :
  exists tr, snd (Download w opts deviceID remotePath localPath t) = t ++ tr.
Proof.
  destruct (Download_obeys (fun _ _ => True) w opts deviceID
              (fun _ _ _ => I)) with (remotePath := remotePath)
              (localPath := localPath) (t := t) as [tr [Ht _]].
  - intros rp lp size. unfold downloadFile, count_file.
    repeat obeys_step ltac:(exact I).
  - exists tr. exact Ht.
Qed.

(** *** The remote paths a download asks for *)

(** A request to the device names the device [deviceID] and a path that
    starts with [root]. *)
Definition under (deviceID root : string) (t : list Event) (e : Event) : Prop :=
  match e with
  | StatFile d p | ListFiles d p | DownloadFile d p =>
      d = deviceID /\ HasPrefix p root = true
  | CheckDeviceOnline d => d = deviceID
  | UploadFile _ _ _ | MkdirOnDevice _ _ => False
  | _ => True
  end.

Lemma prefix_refl s : String.prefix s s = true.
Proof.
  induction s as [| c s IH]; cbn [String.prefix]; [reflexivity |].
  destruct (Ascii.ascii_dec c c) as [_ | N]; [exact IH | contradiction].
Qed.

Lemma prefix_app p s x :
  String.prefix p s = true -> String.prefix p (s ++ x) = true.
Proof.
  revert s. induction p as [| c p IH]; intros s H.
  - destruct (s ++ x)%string; reflexivity.
  - destruct s as [| d s]; [discriminate H |].
    cbn [String.prefix String.append] in *.
    destruct (Ascii.ascii_dec c d); [apply IH, H | discriminate H].
Qed.

Lemma JoinRemotePath_under root base name :
  HasPrefix base root = true -> HasPrefix (JoinRemotePath base name) root = true.
Proof.
  unfold HasPrefix, JoinRemotePath. intros H.
  destruct (HasSuffix base "/"); apply prefix_app, H.
Qed.

Lemma each_In ok tr : forall t e,
  each ok t tr -> In e tr -> exists t', ok t' e.
Proof.
  induction tr as [| x tr IH]; intros t e H Hin; [destruct Hin |].
  cbn [each] in H. destruct H as [Hx Hrest]. destruct Hin as [<- | Hin].
  - exists t. exact Hx.
  - apply (IH _ _ Hrest Hin).
Qed.

Section Under.
Variable w : World.
Variable opts : TransferOptions.
Variable deviceID : string.
Variable root : string.

Ltac under_ok :=
  first [exact I | split; [reflexivity | assumption] | reflexivity].

Lemma downloadFile_under remotePath localPath size :
  HasPrefix remotePath root = true ->
  obeys (under deviceID root)
    (downloadFile w opts deviceID remotePath localPath size).
Proof.
  intros H. unfold downloadFile, count_file. repeat obeys_step under_ok.
Qed.

Lemma downloadEntry_under f :
  forall remotePath localPath,
    HasPrefix remotePath root = true ->
    obeys (under deviceID root)
      (downloadEntry w opts deviceID f remotePath localPath).
Proof.
  induction f as [name size | name listing_error files IH]
    using RemoteEntry_induction; intros remotePath localPath H.
  - apply downloadFile_under, H.
  - cbn [downloadEntry]. unfold downloadDirectory_of.
    assert (L : forall lp, obeys (under deviceID root)
                             (download_children_of w opts
                                (downloadEntry w opts deviceID)
                                remotePath lp files)).
    { intros lp. unfold download_children_of. apply obeys_for_each.
      rewrite Forall_forall in *. intros g Hg. apply IH; [exact Hg |].
      apply JoinRemotePath_under, H. }
    repeat obeys_step under_ok; apply L.
Qed.

End Under.

Lemma Download_under w opts deviceID remotePath localPath t :
  exists tr,
    snd (Download w opts deviceID remotePath localPath t) = t ++ tr
    /\ each (under deviceID remotePath) t tr.
Proof.
  unfold Download.
  assert (P : HasPrefix remotePath remotePath = true) by apply prefix_refl.
  destruct (w_CheckDeviceOnline w t deviceID) as [err |].
  { exists [CheckDeviceOnline deviceID]. cbn. repeat split. }
  assert (Two : forall r err,
            exists tr,
              snd (r : option TransferResult, err : option error,
                   (t ++ [CheckDeviceOnline deviceID]) ++
                   [StatFile deviceID remotePath]) = t ++ tr
              /\ each (under deviceID remotePath) t tr).
  { intros r err.
    exists [CheckDeviceOnline deviceID; StatFile deviceID remotePath].
    cbn [snd each under]. rewrite <- app_assoc. repeat split. exact P. }
  assert (More : forall (m : M (option error)),
            obeys (under deviceID remotePath) m ->
            exists tr,
              snd (let '(err, s) :=
                     m (mkState ((t ++ [CheckDeviceOnline deviceID]) ++
                                 [StatFile deviceID remotePath]) empty_result) in
                   (Some (res s), err, trace s)) = t ++ tr
              /\ each (under deviceID remotePath) t tr).
  { intros m Hm.
    destruct (Hm (mkState ((t ++ [CheckDeviceOnline deviceID]) ++
                           [StatFile deviceID remotePath]) empty_result))
      as [tr [Ht He]].
    destruct (m _) as [err s]. cbn [snd trace] in *.
    exists (CheckDeviceOnline deviceID :: StatFile deviceID remotePath :: tr).
    rewrite Ht, <- !app_assoc. split; [reflexivity |].
    cbn [each under]. repeat split; assumption. }
  destruct (w_StatFile w (t ++ [CheckDeviceOnline deviceID]) deviceID
              remotePath) as [[name size | name le files] | err].
  - apply More, downloadFile_under, P.
  - destruct (Recursive opts); cbn [negb]; [| apply Two].
    apply More.
    exact (downloadEntry_under w opts deviceID remotePath (RDir name le files)
             remotePath localPath P).
  - apply Two.
Qed.

(** A world like [calm] whose device is offline. *)
Definition offline : World :=
  mkWorld unix
    (fun _ _ => Some (ErrNew "device is offline"))
    (w_StatFile calm) (w_DownloadFile calm) (w_UploadFile calm)
    (w_MkdirOnDevice calm) (w_Stat calm) (w_MkdirAll calm) (w_Create calm)
    (w_Open calm) (w_ReadAll calm) (w_Copy calm) (w_NewClient calm) false.

End Transfer.

(** ** Version comparison ([internal/update], the update checker) *)

Module Update.
Import GoStrings.

(** [strings.TrimPrefix] *)
Definition TrimPrefix (s p : string) : string :=
  if String.prefix p s
  then String.substring (String.length p) (String.length s - String.length p) s
  else s.

(** [strings.Split(s, ".")]: the parts between the points, at least one. *)
Fixpoint split_dot (l cur : list ascii) : list string :=
  match l with
  | [] => [string_of_list_ascii (rev cur)]
  | c :: r =>
      if Ascii.eqb c "."
      then string_of_list_ascii (rev cur) :: split_dot r []
      else split_dot r (c :: cur)
  end.

Definition Split_dot (s : string) : list string := split_dot (chars s) [].

(** [fmt.Sscanf(s, "%d", &n)]: the scanner skips white space (a line feed
    is an error), reads an optional sign and then the longest run of decimal
    digits, which must not be empty; [strconv.ParseInt] then refuses a value
    outside [int64].  What is left of the input, an underscore included, is
    ignored.  First [isSpace] of package [fmt] on a byte below 128. *)
Definition scan_space (c : ascii) : bool :=
  ((9 <=? code c) && (code c <=? 13)) || (code c =? 32).

(** [SkipSpace]: what is left of the input, or [None] for "unexpected
    newline".  The white space above U+007F that [isSpace] knows is the one
    of [unicode.IsSpace], [wide_space2] and [wide_space3]. *)
Fixpoint skip_space (l : list ascii) : option (list ascii) :=
  match l with
  | [] => Some []
  | c :: r =>
      if code c =? 10 then None
      else if scan_space c then skip_space r
      else
        match r with
        | c2 :: r2 =>
            if wide_space2 c c2 then skip_space r2
            else
              match r2 with
              | c3 :: r3 => if wide_space3 c c2 c3 then skip_space r3 else Some l
              | [] => Some l
              end
        | [] => Some l
        end
  end.

Definition is_digit (c : ascii) : bool := (48 <=? code c) && (code c <=? 57).

(** [scanNumber] with the digits of base 10. *)
Fixpoint take_number (l : list ascii) : list ascii :=
  match l with
  | c :: r => if is_digit c then c :: take_number r else []
  | [] => []
  end.

Definition decimal (tok : list ascii) : Z :=
  fold_left (fun a c => a * 10 + (code c - 48)) tok 0.

(** The value stored in [n], or [None] when [Sscanf] returns an error and
    leaves [n] as it is. *)
Definition Sscanf_d (s : string) : option Z :=
  match skip_space (chars s) with
  | None => None
  | Some l =>
      let '(neg, l) :=
        match l with
        | c :: r =>
            if code c =? 43 then (false, r)
            else if code c =? 45 then (true, r)
            else (false, l)
        | [] => (false, [])
        end in
      let tok := take_number l in
      match tok with
      | [] => None
      | _ =>
          let un := decimal tok in
          if neg then (if un <=? 2 ^ 63 then Some (- un) else None)
          else (if un <? 2 ^ 63 then Some un else None)
      end
  end.

(** The number [n1] (or [n2]) of turn [i] of the loop: zero unless the
    version has a part [i] from which [Sscanf] reads a number. *)
Definition part_number (parts : list string) (i : nat) : Z :=
  match nth_error parts i with
  | Some p => match Sscanf_d p with Some n => n | None => 0 end
  | None => 0
  end.

(** The loop "compare each part", from index [i], for [steps] turns. *)
Fixpoint compare_loop (parts1 parts2 : list string) (i steps : nat) : Z :=
  match steps with
  | O => 0
  | S steps' =>
      let n1 := part_number parts1 i in
      let n2 := part_number parts2 i in
      if n1 >? n2 then 1
      else if n1 <? n2 then -1
      else compare_loop parts1 parts2 (S i) steps'
  end.

Definition CompareVersions (v1 v2 : string) : Z :=
  let v1 := TrimPrefix v1 "v" in
  let v2 := TrimPrefix v2 "v" in
  if String.eqb v1 "dev" then -1
  else if String.eqb v2 "dev" then 1
  else
    let parts1 := Split_dot v1 in
    let parts2 := Split_dot v2 in
    let maxLen := length parts1 in
    let maxLen := if (maxLen <? length parts2)%nat then length parts2 else maxLen in
    compare_loop parts1 parts2 0 maxLen.

(** [UpdateInfo.IsUpdateAvailable] *)
Definition IsUpdateAvailable (latestVersion currentVersion : string) : bool :=
  CompareVersions latestVersion currentVersion >? 0.

(** The cases of the repository's own tests. *)
Example TestCompareVersions :
  map (fun p => CompareVersions (fst p) (snd p))
    [("1.0.0", "1.0.0"); ("2.0.0", "1.0.0"); ("1.0.0", "2.0.0");
     ("1.2.0", "1.1.0"); ("1.1.0", "1.2.0"); ("1.0.2", "1.0.1");
     ("1.0.1", "1.0.2"); ("v1.2.0", "v1.1.0"); ("v1.2.0", "1.1.0");
     ("dev", "0.0.1"); ("0.0.1", "dev"); ("dev", "dev"); ("1.2", "1.1");
     ("1.2.3", "1.2"); ("1.2", "1.2.3"); ("2", "1")]%string
  = [0; 1; -1; 1; -1; 1; -1; 1; 1; -1; 1; -1; 1; 1; -1; 1].
Proof. vm_compute. reflexivity. Qed.

Example TestIsUpdateAvailable :
  map (fun p => IsUpdateAvailable (snd p) (fst p))
    [("1.0.0", "1.1.0"); ("1.0.0", "1.0.0"); ("1.2.0", "1.1.0");
     ("dev", "1.0.0")]%string
  = [true; false; false; true].
Proof. vm_compute. reflexivity. Qed.

(** Parts that are not plain numbers: the digits in front count, white
    space before them is skipped, and a part without digits counts as 0. *)
Example CompareVersions_odd_parts :
  map (fun p => CompareVersions (fst p) (snd p))
    [("1_0", "0"); ("1.10-rc1", "v1.9.4"); ("1.x", "1.0"); ("1. 2", "1.2");
     ("1.-2", "1.0"); ("v", "0")]%string
  = [1; 1; 0; 0; -1; 0].
Proof. vm_compute. reflexivity. Qed.

Example Sscanf_d_samples :
  map Sscanf_d ["12"; " 7"; "-3"; "+4"; "10-beta"; "1_0"; "007"; ""; "x1";
                "-"; "_1"; "- 1"; "9223372036854775807";
                "9223372036854775808"; "-9223372036854775808"]%string
  = [Some 12; Some 7; Some (-3); Some 4; Some 10; Some 1; Some 7; None; None;
     None; None; None; Some 9223372036854775807; None;
     Some (-9223372036854775808)].
Proof. vm_compute. reflexivity. Qed.

(** White space before the number: a carriage return, a no-break space
    (U+00A0) and an em space (U+2003) are skipped, a line feed is not. *)
Example Sscanf_d_space :
  map Sscanf_d
    [String (ascii_of_nat 13) "5";
     String (ascii_of_nat 194) (String (ascii_of_nat 160) "5");
     String (ascii_of_nat 226)
       (String (ascii_of_nat 128) (String (ascii_of_nat 131) "5"));
     String (ascii_of_nat 10) "5";
     String (ascii_of_nat 13) (String (ascii_of_nat 10) "5");
     String (ascii_of_nat 194) "5"]
  = [Some 5; Some 5; Some 5; None; None; None].
Proof. vm_compute. reflexivity. Qed.

(** *** The loop is decided by the first part that differs *)

Lemma part_number_beyond parts i :
  (length parts <= i)%nat -> part_number parts i = 0.
Proof.
  intros H. unfold part_number.
  rewrite (proj2 (nth_error_None parts i) H). reflexivity.
Qed.

Lemma compare_loop_first_difference parts1 parts2 :
  forall steps i,
    (compare_loop parts1 parts2 i steps = 0
     /\ forall j, (i <= j < i + steps)%nat ->
                  part_number parts1 j = part_number parts2 j)
    \/ exists k,
         (i <= k < i + steps)%nat
         /\ (forall j, (i <= j < k)%nat ->
                       part_number parts1 j = part_number parts2 j)
         /\ ((part_number parts2 k < part_number parts1 k
              /\ compare_loop parts1 parts2 i steps = 1)
             \/ (part_number parts1 k < part_number parts2 k
                 /\ compare_loop parts1 parts2 i steps = -1)).
Proof.
  induction steps as [| steps IH]; intros i; cbn [compare_loop].
  - left. split; [reflexivity | intros j Hj; lia].
  - destruct (Z.gtb_spec (part_number parts1 i) (part_number parts2 i))
      as [Hgt | Hle].
    + right. exists i. split; [lia |]. split; [intros j Hj; lia |].
      left. split; [lia | reflexivity].
    + destruct (Z.ltb_spec (part_number parts1 i) (part_number parts2 i))
        as [Hlt | Hge].
      * right. exists i. split; [lia |]. split; [intros j Hj; lia |].
        right. split; [lia | reflexivity].
      * assert (Heq : part_number parts1 i = part_number parts2 i) by lia.
        destruct (IH (S i)) as [[H0 Hall] | [k [Hk [Hbefore Hat]]]].
        -- left. split; [exact H0 |]. intros j Hj.
           destruct (Nat.eq_dec j i) as [-> | Hne]; [exact Heq |].
           apply Hall. lia.
        -- right. exists k. split; [lia |]. split; [| exact Hat].
           intros j Hj. destruct (Nat.eq_dec j i) as [-> | Hne]; [exact Heq |].
           apply Hbefore. lia.
Qed.

Lemma compare_loop_antisym parts1 parts2 :
  forall steps i,
    compare_loop parts2 parts1 i steps = - compare_loop parts1 parts2 i steps.
Proof.
  induction steps as [| steps IH]; intros i; cbn [compare_loop]; [reflexivity |].
  destruct (Z.gtb_spec (part_number parts1 i) (part_number parts2 i));
    destruct (Z.ltb_spec (part_number parts1 i) (part_number parts2 i));
    destruct (Z.gtb_spec (part_number parts2 i) (part_number parts1 i));
    destruct (Z.ltb_spec (part_number parts2 i) (part_number parts1 i));
    try lia; try reflexivity.
  apply IH.
Qed.

Lemma compare_loop_refl parts : forall steps i, compare_loop parts parts i steps = 0.
Proof.
  induction steps as [| steps IH]; intros i; cbn [compare_loop]; [reflexivity |].
  rewrite Z.gtb_ltb, Z.ltb_irrefl. apply IH.
Qed.

(** The comparison of two versions neither of which is [dev]. *)
Lemma CompareVersions_parts v1 v2 :
  TrimPrefix v1 "v" <> "dev"%string ->
  TrimPrefix v2 "v" <> "dev"%string ->
  CompareVersions v1 v2
  = compare_loop (Split_dot (TrimPrefix v1 "v")) (Split_dot (TrimPrefix v2 "v"))
      0 (Nat.max (length (Split_dot (TrimPrefix v1 "v")))
                 (length (Split_dot (TrimPrefix v2 "v")))).
Proof.
  intros H1 H2. unfold CompareVersions. cbv zeta.
  destruct (String.eqb_spec (TrimPrefix v1 "v") "dev") as [? | _];
    [contradiction |].
  destruct (String.eqb_spec (TrimPrefix v2 "v") "dev") as [? | _];
    [contradiction |].
  f_equal.
  destruct (Nat.ltb_spec (length (Split_dot (TrimPrefix v1 "v")))
              (length (Split_dot (TrimPrefix v2 "v")))); lia.
Qed.

Lemma CompareVersions_first_difference v1 v2 :
  TrimPrefix v1 "v" <> "dev"%string ->
  TrimPrefix v2 "v" <> "dev"%string ->
  let a := part_number (Split_dot (TrimPrefix v1 "v")) in
  let b := part_number (Split_dot (TrimPrefix v2 "v")) in
  (CompareVersions v1 v2 = 0 /\ forall j, a j = b j)
  \/ exists k,
       (forall j, (j < k)%nat -> a j = b j)
       /\ ((b k < a k /\ CompareVersions v1 v2 = 1)
           \/ (a k < b k /\ CompareVersions v1 v2 = -1)).
Proof.
  intros H1 H2 a b. rewrite (CompareVersions_parts v1 v2 H1 H2).
  set (p1 := Split_dot (TrimPrefix v1 "v")) in *.
  set (p2 := Split_dot (TrimPrefix v2 "v")) in *.
  destruct (compare_loop_first_difference p1 p2
              (Nat.max (length p1) (length p2)) 0)
    as [[H0 Hall] | [k [Hk [Hbefore Hat]]]].
  - left. split; [exact H0 |]. intros j. unfold a, b.
    destruct (Nat.lt_ge_cases j (Nat.max (length p1) (length p2))) as [Hj | Hj].
    + apply Hall. lia.
    + rewrite !part_number_beyond by lia. reflexivity.
  - right. exists k. split; [| exact Hat].
    intros j Hj. apply Hbefore. lia.
Qed.

(** *** Versions written as numbers between points *)

(** The numbers [xs] in decimal, with points between them. *)
Definition dotted (xs : list Z) : string :=
  String.concat "." (map Fmt.Sprint_d xs).

Definition component (x : Z) : Prop := 0 <= x < 2 ^ 63.

Lemma code_digit d : 0 <= d < 10 -> code (Fmt.digit d) = 48 + d.
Proof.
  intros H. unfold code, Fmt.digit.
  rewrite N_ascii_embedding by lia. lia.
Qed.

Lemma digit_is_digit d : 0 <= d < 10 -> is_digit (Fmt.digit d) = true.
Proof.
  intros H. unfold is_digit. rewrite code_digit by exact H.
  apply andb_true_intro. split; apply Z.leb_le; lia.
Qed.

Lemma digits_are_digits fuel : forall n acc,
  0 <= n -> forallb is_digit acc = true ->
  forallb is_digit (Fmt.digits fuel n acc) = true.
Proof.
  induction fuel as [| fuel IH]; intros n acc Hn Hacc; cbn [Fmt.digits];
    [exact Hacc |].
  assert (Hd : forallb is_digit (Fmt.digit (n mod 10) :: acc) = true).
  { cbn [forallb]. rewrite digit_is_digit, Hacc; [reflexivity |].
    apply Z.mod_pos_bound. lia. }
  destruct (n <? 10); [exact Hd |].
  apply IH; [apply Z.div_pos; lia | exact Hd].
Qed.

Lemma digits_decimal fuel : forall n acc,
  0 <= n < 10 ^ Z.of_nat fuel ->
  fold_left (fun a c => a * 10 + (code c - 48)) (Fmt.digits fuel n acc) 0
  = fold_left (fun a c => a * 10 + (code c - 48)) acc n.
Proof.
  induction fuel as [| fuel IH]; intros n acc Hn; cbn [Fmt.digits].
  - cbn in Hn. replace n with 0 by lia. reflexivity.
  - rewrite Nat2Z.inj_succ, Z.pow_succ_r in Hn by lia.
    destruct (Z.ltb_spec n 10) as [Hs | Hb].
    + cbn [fold_left]. rewrite code_digit by (apply Z.mod_pos_bound; lia).
      rewrite Z.mod_small by lia. f_equal. lia.
    + rewrite IH.
      * cbn [fold_left]. rewrite code_digit by (apply Z.mod_pos_bound; lia).
        f_equal. pose proof (Z.div_mod n 10 ltac:(lia)). lia.
      * split; [apply Z.div_pos; lia |].
        apply Z.div_lt_upper_bound; lia.
Qed.

Lemma digits_not_empty fuel n acc : Fmt.digits (S fuel) n acc <> [].
Proof.
  revert n acc. induction fuel as [| fuel IH]; intros n acc.
  - cbn [Fmt.digits]. destruct (n <? 10); discriminate.
  - change (Fmt.digits (S (S fuel)) n acc)
      with (if n <? 10 then Fmt.digit (n mod 10) :: acc
            else Fmt.digits (S fuel) (n / 10) (Fmt.digit (n mod 10) :: acc)).
    destruct (n <? 10); [discriminate | apply IH].
Qed.

Lemma take_number_digits l : forallb is_digit l = true -> take_number l = l.
Proof.
  induction l as [| c l IH]; cbn [forallb take_number]; [reflexivity |].
  intros H. apply andb_prop in H. destruct H as [Hc Hl].
  rewrite Hc, (IH Hl). reflexivity.
Qed.

(** Nothing is skipped in front of a digit. *)
Lemma skip_space_digit c l :
  is_digit c = true -> skip_space (c :: l) = Some (c :: l).
Proof.
  unfold is_digit. intros Hc. apply andb_prop in Hc. destruct Hc as [Hc1 Hc2].
  apply Z.leb_le in Hc1. apply Z.leb_le in Hc2.
  cbn [skip_space]. unfold scan_space, wide_space2, wide_space3.
  destruct (Z.eqb_spec (code c) 10) as [? | _]; [lia |].
  destruct (Z.leb_spec (code c) 13) as [? | _]; [lia |].
  rewrite andb_false_r. cbn [orb].
  destruct (Z.eqb_spec (code c) 32) as [? | _]; [lia |].
  destruct (Z.eqb_spec (code c) 194) as [? | _]; [lia |].
  destruct (Z.eqb_spec (code c) 225) as [? | _]; [lia |].
  destruct (Z.eqb_spec (code c) 226) as [? | _]; [lia |].
  destruct (Z.eqb_spec (code c) 227) as [? | _]; [lia |].
  cbn [andb orb]. destruct l as [| c2 [| c3 r3]]; reflexivity.
Qed.

(** Reading back a number written in decimal. *)
Lemma Sscanf_d_Sprint_d x : component x -> Sscanf_d (Fmt.Sprint_d x) = Some x.
Proof.
  unfold component. intros Hx. unfold Sscanf_d, Fmt.Sprint_d.
  destruct (Z.ltb_spec x 0) as [? | _]; [lia |].
  unfold chars. rewrite list_ascii_of_string_of_list_ascii.
  pose proof (digits_are_digits 20 x [] ltac:(lia) eq_refl) as Hall.
  pose proof (digits_decimal 20 x [] ltac:(lia)) as Hdec.
  pose proof (digits_not_empty 19 x []) as Hne.
  destruct (Fmt.digits 20 x []) as [| c l] eqn:E; [contradiction |].
  clear Hne.
  assert (Hc : is_digit c = true)
    by (cbn [forallb] in Hall; apply andb_prop in Hall; apply Hall).
  rewrite (skip_space_digit c l Hc).
  unfold is_digit in Hc. apply andb_prop in Hc. destruct Hc as [Hc1 Hc2].
  apply Z.leb_le in Hc1. apply Z.leb_le in Hc2.
  destruct (Z.eqb_spec (code c) 43) as [? | _]; [lia |].
  destruct (Z.eqb_spec (code c) 45) as [? | _]; [lia |].
  rewrite (take_number_digits (c :: l) Hall).
  unfold decimal. rewrite Hdec. cbn [fold_left].
  destruct (Z.ltb_spec x (2 ^ 63)) as [_ | ?]; [reflexivity | lia].
Qed.

Definition no_dot (s : string) : Prop :=
  forallb (fun c => negb (Ascii.eqb c ".")) (chars s) = true.

Lemma Sprint_d_no_dot x : 0 <= x -> no_dot (Fmt.Sprint_d x).
Proof.
  intros Hx. unfold no_dot, Fmt.Sprint_d.
  destruct (Z.ltb_spec x 0) as [? | _]; [lia |].
  unfold chars. rewrite list_ascii_of_string_of_list_ascii.
  pose proof (digits_are_digits 20 x [] Hx eq_refl) as Hall.
  rewrite forallb_forall in *. intros c Hc. specialize (Hall c Hc).
  destruct (Ascii.eqb_spec c ".") as [-> | _]; [discriminate Hall | reflexivity].
Qed.

Lemma split_dot_part l : forall cur rest,
  forallb (fun c => negb (Ascii.eqb c ".")) l = true ->
  split_dot (l ++ "."%char :: rest) cur
  = string_of_list_ascii (rev cur ++ l) :: split_dot rest []
  /\ split_dot l cur = [string_of_list_ascii (rev cur ++ l)].
Proof.
  induction l as [| c l IH]; intros cur rest H; cbn [app split_dot forallb] in *.
  - rewrite app_nil_r. split; reflexivity.
  - apply andb_prop in H. destruct H as [Hc Hl].
    apply negb_true_iff in Hc. rewrite Hc.
    destruct (IH (c :: cur) rest Hl) as [-> ->]. cbn [rev].
    rewrite <- !app_assoc. split; reflexivity.
Qed.

Lemma Split_dot_concat (ps : list string) :
  ps <> [] -> Forall no_dot ps -> Split_dot (String.concat "." ps) = ps.
Proof.
  unfold Split_dot. induction ps as [| p ps IH]; intros Hne Hall;
    [contradiction |].
  inversion Hall as [| ? ? Hp Hps]; subst.
  destruct ps as [| q ps].
  - cbn [String.concat].
    rewrite (proj2 (split_dot_part (chars p) [] [] Hp)).
    cbn [rev app]. rewrite string_of_chars. reflexivity.
  - change (String.concat "." (p :: q :: ps))
      with (p ++ "." ++ String.concat "." (q :: ps))%string.
    rewrite chars_app. cbn [chars list_ascii_of_string String.append].
    rewrite (proj1 (split_dot_part (chars p) []
                      (list_ascii_of_string (String.concat "." (q :: ps))) Hp)).
    cbn [rev app]. rewrite string_of_chars. f_equal.
    apply IH; [discriminate | exact Hps].
Qed.

Lemma part_number_dotted xs k :
  xs <> [] -> Forall component xs ->
  part_number (Split_dot (dotted xs)) k = nth k xs 0.
Proof.
  intros Hne Hall. unfold dotted. rewrite Split_dot_concat.
  - unfold part_number. rewrite nth_error_map.
    destruct (nth_error xs k) as [x |] eqn:E; cbn [option_map].
    + rewrite Sscanf_d_Sprint_d.
      * symmetry. apply nth_error_nth with (d := 0) in E. exact E.
      * rewrite Forall_forall in Hall. apply Hall.
        apply (nth_error_In _ _ E).
    + symmetry. apply nth_overflow. apply nth_error_None. exact E.
  - destruct xs; [contradiction | discriminate].
  - rewrite Forall_forall in *. intros p Hp. apply in_map_iff in Hp.
    destruct Hp as [x [<- Hx]]. apply Sprint_d_no_dot.
    apply (Hall x Hx).
Qed.

(** A dotted version starts with a digit: it has no [v] to trim and is not
    [dev]; with a [v] in front, trimming gives it back. *)
Lemma dotted_first xs :
  xs <> [] -> Forall component xs ->
  exists c rest, dotted xs = String c rest /\ is_digit c = true.
Proof.
  intros Hne Hall. destruct xs as [| x xs]; [contradiction |].
  inversion Hall as [| ? ? Hx _]; subst. unfold component in Hx.
  assert (F : exists c rest, Fmt.Sprint_d x = String c rest /\ is_digit c = true).
  { unfold Fmt.Sprint_d. destruct (Z.ltb_spec x 0) as [? | _]; [lia |].
    pose proof (digits_are_digits 20 x [] ltac:(lia) eq_refl) as Hd.
    pose proof (digits_not_empty 19 x []) as Hn.
    destruct (Fmt.digits 20 x []) as [| c l]; [contradiction |].
    exists c, (string_of_list_ascii l). split; [reflexivity |].
    cbn [forallb] in Hd. apply andb_prop in Hd. apply Hd. }
  destruct F as [c [rest [E Hc]]]. unfold dotted. cbn [map].
  destruct (map Fmt.Sprint_d xs) as [| q qs]; cbn [String.concat];
    rewrite E.
  - exists c, rest. split; [reflexivity | exact Hc].
  - exists c, (rest ++ "." ++ String.concat "." (q :: qs))%string.
    split; [reflexivity | exact Hc].
Qed.

Lemma TrimPrefix_dotted xs :
  xs <> [] -> Forall component xs ->
  TrimPrefix (dotted xs) "v" = dotted xs
  /\ TrimPrefix ("v" ++ dotted xs) "v" = dotted xs
  /\ dotted xs <> "dev"%string.
Proof.
  intros Hne Hall. destruct (dotted_first xs Hne Hall) as [c [rest [E Hc]]].
  rewrite E. unfold is_digit in Hc. apply andb_prop in Hc.
  destruct Hc as [Hc1 Hc2]. apply Z.leb_le in Hc1. apply Z.leb_le in Hc2.
  assert (Hv : c <> "v"%char)
    by (intros ->; change (code "v") with 118 in Hc2; lia).
  assert (Hd : c <> "d"%char)
    by (intros ->; change (code "d") with 100 in Hc2; lia).
  split; [| split].
  - unfold TrimPrefix. cbn [String.prefix].
    destruct (Ascii.ascii_dec "v" c) as [<- | _]; [contradiction | reflexivity].
  - unfold TrimPrefix. cbn [String.append String.prefix String.length].
    destruct (Ascii.ascii_dec "v" "v") as [_ | N]; [| contradiction].
    cbn [Nat.sub String.substring]. rewrite Paths.substring_all.
    reflexivity.
  - intros H. injection H as H _. contradiction.
Qed.

End Update.

(** ** Whole magnitudes: a double holds them, and their multiples, exactly *)

Module Whole.
Import GoStrings Float64 Strconv Throttle.

Lemma digits2_size p : digits2_pos p = Pos.size p.
Proof. induction p as [p IH | p IH |]; cbn; congruence. Qed.

Lemma digits2_bound p k :
  0 <= k -> Zpos p < 2 ^ k -> Zpos (digits2_pos p) <= k.
Proof.
  intros Hk Hp. rewrite digits2_size.
  pose proof (Pos.size_le p) as H.
  apply Pos2Z.pos_le_pos in H. rewrite Pos2Z.inj_pow in H.
  change (Zpos p~0) with (2 * Zpos p) in H.
  assert (L : 2 ^ Zpos (Pos.size p) < 2 ^ (k + 1)).
  { rewrite Z.pow_add_r by lia. change (2 ^ 1) with 2. lia. }
  apply Z.pow_lt_mono_r_iff in L; lia.
Qed.

Lemma iter_xO_digits p k :
  digits2_pos (Pos.iter xO p k) = (digits2_pos p + k)%positive.
Proof.
  induction k as [| k IH] using Pos.peano_ind.
  - cbn. rewrite Pos.add_1_r. reflexivity.
  - rewrite Pos.iter_succ. cbn [digits2_pos]. rewrite IH.
    rewrite Pos.add_succ_r. reflexivity.
Qed.

Lemma iter_xO_value p k : Zpos (Pos.iter xO p k) = Zpos p * 2 ^ Zpos k.
Proof.
  induction k as [| k IH] using Pos.peano_ind.
  - cbn [Pos.iter]. change (2 ^ 1) with 2. lia.
  - rewrite Pos.iter_succ, Pos2Z.inj_succ, Z.pow_succ_r by lia.
    change (Zpos (Pos.iter xO p k)~0) with (2 * Zpos (Pos.iter xO p k)).
    rewrite IH. lia.
Qed.

(** A mantissa of 53 bits with an exponent in range is not rounded. *)
Lemma round_canonical s m e :
  digits2_pos m = 53%positive -> -1074 <= e <= 971 ->
  binary_round_aux prec emax s (Zpos m) e loc_Exact = S754_finite s m e.
Proof.
  intros Hd He. unfold binary_round_aux, shr_fexp, fexp, emin.
  cbn [Zdigits2 shr_record_of_loc]. rewrite Hd.
  replace (Z.max (53 + e - prec) (3 - emax - prec) - e) with 0
    by (unfold prec, emax; lia).
  cbn [shr shr_m loc_of_shr_record round_nearest_even Zdigits2
       shr_record_of_loc].
  rewrite Hd.
  replace (Z.max (53 + e - prec) (3 - emax - prec) - e) with 0
    by (unfold prec, emax; lia).
  cbn [shr shr_m].
  replace (e <=? emax - prec) with true
    by (symmetry; apply Z.leb_le; unfold prec, emax; lia).
  reflexivity.
Qed.

(** The mantissa and the exponent of the double that holds [p < 2^53]: [p]
    shifted left until it has 53 bits. *)
Definition normal_mantissa (p : positive) : positive :=
  match (53 - Zpos (digits2_pos p))%Z with
  | Zpos k => Pos.iter xO p k
  | _ => p
  end.

Definition normal_exponent (p : positive) : Z := Zpos (digits2_pos p) - 53.

Lemma normal_mantissa_digits p :
  Zpos p < 2 ^ 53 -> digits2_pos (normal_mantissa p) = 53%positive.
Proof.
  intros Hp. pose proof (digits2_bound p 53 ltac:(lia) Hp) as Hd.
  unfold normal_mantissa.
  destruct (53 - Zpos (digits2_pos p)) as [| k | k] eqn:E; try lia.
  rewrite iter_xO_digits. lia.
Qed.

Lemma normal_mantissa_value p :
  Zpos p < 2 ^ 53 ->
  Zpos (normal_mantissa p) = Zpos p * 2 ^ (- normal_exponent p).
Proof.
  intros Hp. pose proof (digits2_bound p 53 ltac:(lia) Hp) as Hd.
  unfold normal_mantissa, normal_exponent.
  destruct (53 - Zpos (digits2_pos p)) as [| k | k] eqn:E; try lia.
  - replace (- (Zpos (digits2_pos p) - 53)) with 0 by lia. cbn. lia.
  - rewrite iter_xO_value. f_equal. f_equal. lia.
Qed.

Lemma binary_round_exact s p :
  Zpos p < 2 ^ 53 ->
  binary_round prec emax s p 0
  = S754_finite s (normal_mantissa p) (normal_exponent p).
Proof.
  intros Hp. pose proof (digits2_bound p 53 ltac:(lia) Hp) as Hd.
  pose proof (normal_mantissa_digits p Hp) as Hn.
  unfold binary_round, shl_align, fexp, emin.
  unfold normal_mantissa, normal_exponent in *.
  replace (Z.max (Zpos (digits2_pos p) + 0 - prec) (3 - emax - prec) - 0)
    with (- (53 - Zpos (digits2_pos p))) by (unfold prec, emax; lia).
  replace (Z.max (Zpos (digits2_pos p) + 0 - prec) (3 - emax - prec))
    with (Zpos (digits2_pos p) - 53) by (unfold prec, emax; lia).
  destruct (53 - Zpos (digits2_pos p)) as [| k | k] eqn:E; try lia.
  - cbn [Z.opp]. replace (Zpos (digits2_pos p) - 53) with 0 by lia.
    apply round_canonical; [exact Hn | lia].
  - cbn [Z.opp]. apply round_canonical; [exact Hn | lia].
Qed.

Lemma of_int_exact p :
  Zpos p < 2 ^ 53 ->
  of_int (Zpos p) = S754_finite false (normal_mantissa p) (normal_exponent p).
Proof. apply binary_round_exact. Qed.

(** Multiplying by a power of two, held with the mantissa [2^52], adds to
    the exponent. *)
Lemma mul_power_of_two m e e2 :
  digits2_pos m = 53%positive ->
  -1074 <= e + e2 + 52 <= 971 ->
  mul (S754_finite false m e) (S754_finite false 4503599627370496 e2)
  = S754_finite false m (e + e2 + 52).
Proof.
  intros Hd He. unfold mul, SFmul. cbn [xorb].
  rewrite Pos.mul_comm.
  change (4503599627370496 * m)%positive with (Pos.iter xO m 52).
  unfold binary_round_aux, shr_fexp, fexp, emin.
  cbn [Zdigits2 shr_record_of_loc]. rewrite iter_xO_digits, Hd.
  replace (Z.max (Zpos (53 + 52) + (e + e2) - prec) (3 - emax - prec)
           - (e + e2))
    with 52 by (unfold prec, emax; lia).
  cbn [shr].
  change (iter_pos shr_1 52
            {| shr_m := Zpos (Pos.iter xO m 52);
               shr_r := false; shr_s := false |})
    with {| shr_m := Zpos m; shr_r := false; shr_s := false |}.
  cbn [shr_m loc_of_shr_record round_nearest_even Zdigits2 shr_record_of_loc].
  rewrite Hd.
  replace (Z.max (53 + (e + e2 + 52) - prec) (3 - emax - prec)
           - (e + e2 + 52))
    with 0 by (unfold prec, emax; lia).
  cbn [shr shr_m].
  replace (e + e2 + 52 <=? emax - prec) with true
    by (symmetry; apply Z.leb_le; unfold prec, emax; lia).
  reflexivity.
Qed.

Lemma to_int64_scaled p j :
  Zpos p < 2 ^ 53 -> 0 <= j -> Zpos p * 2 ^ j < 2 ^ 63 ->
  to_int64 (S754_finite false (normal_mantissa p) (normal_exponent p + j))
  = Zpos p * 2 ^ j.
Proof.
  intros Hp Hj Hr. pose proof (digits2_bound p 53 ltac:(lia) Hp) as Hd.
  unfold to_int64, trunc. rewrite (normal_mantissa_value p Hp).
  assert (Hne : normal_exponent p <= 0) by (unfold normal_exponent; lia).
  set (ne := normal_exponent p) in *.
  assert (V : (if 0 <=? ne + j
               then Zpos p * 2 ^ (- ne) * 2 ^ (ne + j)
               else Zpos p * 2 ^ (- ne) / 2 ^ (- (ne + j))) = Zpos p * 2 ^ j).
  { destruct (Z.leb_spec 0 (ne + j)) as [H | H].
    - rewrite <- Z.mul_assoc, <- Z.pow_add_r by lia. f_equal. f_equal. lia.
    - replace (- ne) with (j + - (ne + j)) by lia.
      rewrite Z.pow_add_r by lia. rewrite Z.mul_assoc.
      apply Z.div_mul. apply Z.pow_nonzero; lia. }
  rewrite V.
  assert (0 < 2 ^ j) by (apply Z.pow_pos_nonneg; lia).
  replace ((- 2 ^ 63 <=? Zpos p * 2 ^ j) && (Zpos p * 2 ^ j <? 2 ^ 63))
    with true; [reflexivity |].
  symmetry. apply andb_true_intro.
  split; [apply Z.leb_le | apply Z.ltb_lt]; nia.
Qed.

(** The multipliers of the unit suffixes are powers of two. *)
Lemma of_int_multiplier m :
  In m [1; 1024; 1024 * 1024; 1024 * 1024 * 1024] ->
  exists j, m = 2 ^ j /\ 0 <= j <= 30
            /\ of_int m = S754_finite false 4503599627370496 (j - 52).
Proof.
  intros [<- | [<- | [<- | [<- | []]]]];
    [exists 0 | exists 10 | exists 20 | exists 30];
    (split; [reflexivity | split; [lia | reflexivity]]).
Qed.

Lemma scaled_whole n m :
  0 < n < 2 ^ 53 ->
  In m [1; 1024; 1024 * 1024; 1024 * 1024 * 1024] ->
  n * m < 2 ^ 63 ->
  to_int64 (mul (of_int n) (of_int m)) = n * m.
Proof.
  intros Hn Hm Hr. destruct n as [| p | p]; try lia.
  destruct (of_int_multiplier m Hm) as [j [-> [Hj Hf]]].
  rewrite Hf, (of_int_exact p) by lia.
  pose proof (digits2_bound p 53 ltac:(lia) ltac:(lia)) as Hd.
  rewrite mul_power_of_two.
  - replace (normal_exponent p + (j - 52) + 52) with (normal_exponent p + j)
      by lia.
    apply to_int64_scaled; lia.
  - apply normal_mantissa_digits. lia.
  - unfold normal_exponent. lia.
Qed.

(** *** [strconv.ParseFloat] on a number written by [Sprint_d] *)

Definition digit_code (c : Z) : Prop := 48 <= c <= 57.

Lemma scan_mantissa_digits cs : forall sd us d f,
  Forall digit_code cs ->
  scan_mantissa false cs (mkMantissa false sd us d f)
  = (mkMantissa false (match cs with [] => sd | _ => true end) us
       (fold_left (fun a c => a * 10 + (c - 48)) cs d) f, []).
Proof.
  induction cs as [| c cs IH]; intros sd us d f H; [reflexivity |].
  inversion H as [| ? ? Hc Hcs]; subst. unfold digit_code in Hc.
  cbn [scan_mantissa fold_left].
  destruct (Z.eqb_spec c 95) as [? | _]; [lia |].
  destruct (Z.eqb_spec c 46) as [? | _]; [lia |].
  unfold is_digit.
  destruct (Z.leb_spec 48 c) as [_ | ?]; [| lia].
  destruct (Z.leb_spec c 57) as [_ | ?]; [| lia].
  cbn [andb]. unfold push. cbn [sawdot underscores digits fraction].
  rewrite (IH true us (d * 10 + (c - 48)) f Hcs).
  destruct cs; reflexivity.
Qed.

Lemma lower_digit c : digit_code c -> lower c = c.
Proof.
  unfold digit_code, lower. intros H.
  assert (E : c = 48 \/ c = 49 \/ c = 50 \/ c = 51 \/ c = 52 \/ c = 53
              \/ c = 54 \/ c = 55 \/ c = 56 \/ c = 57) by lia.
  repeat (destruct E as [-> | E]; [reflexivity |]). subst. reflexivity.
Qed.

(** No [0x] in front of digits. *)
Lemma no_hex_prefix c cs :
  Forall digit_code (c :: cs) ->
  match c :: cs with
  | c0 :: c1 :: (_ :: _) as tail =>
      if (c0 =? 48) && (lower c1 =? 120) then (true, tail)
      else (false, c :: cs)
  | _ => (false, c :: cs)
  end = (false, c :: cs).
Proof.
  intros H. inversion H as [| ? ? _ Hcs]; subst.
  destruct cs as [| c1 [| c2 r]]; try reflexivity.
  inversion Hcs as [| ? ? Hc1 _]; subst.
  rewrite (lower_digit c1 Hc1). unfold digit_code in Hc1.
  destruct (Z.eqb_spec c1 120) as [? | _]; [lia |].
  rewrite andb_false_r. reflexivity.
Qed.

Lemma readFloat_digits c cs :
  Forall digit_code (c :: cs) ->
  readFloat (c :: cs)
  = Some (false, false, fold_left (fun a c => a * 10 + (c - 48)) (c :: cs) 0,
          0, false, []).
Proof.
  intros H. pose proof H as H0.
  inversion H as [| ? ? Hc Hcs]; subst. unfold digit_code in Hc.
  unfold readFloat.
  destruct (Z.eqb_spec c 43) as [? | _]; [lia |].
  destruct (Z.eqb_spec c 45) as [? | _]; [lia |].
  rewrite (no_hex_prefix c cs H0).
  rewrite (scan_mantissa_digits (c :: cs) false false 0 0 H0).
  reflexivity.
Qed.

Lemma readFloat_minus_digits c cs :
  Forall digit_code (c :: cs) ->
  readFloat (45 :: c :: cs)
  = Some (true, false, fold_left (fun a c => a * 10 + (c - 48)) (c :: cs) 0,
          0, false, []).
Proof.
  intros H. unfold readFloat.
  change (45 =? 43) with false. change (45 =? 45) with true. cbv iota.
  rewrite (no_hex_prefix c cs H).
  rewrite (scan_mantissa_digits (c :: cs) false false 0 0 H).
  reflexivity.
Qed.

Lemma special_digit c cs : digit_code c -> special (c :: cs) = None.
Proof.
  unfold digit_code, special. intros H.
  destruct (Z.eqb_spec c 43) as [? | _]; [lia |].
  destruct (Z.eqb_spec c 45) as [? | _]; [lia |].
  destruct (Z.eqb_spec c 105) as [? | _]; [lia |].
  destruct (Z.eqb_spec c 73) as [? | _]; [lia |].
  destruct (Z.eqb_spec c 110) as [? | _]; [lia |].
  destruct (Z.eqb_spec c 78) as [? | _]; [lia |].
  reflexivity.
Qed.

Lemma special_minus_digit c cs : digit_code c -> special (45 :: c :: cs) = None.
Proof.
  unfold digit_code, special. intros H.
  change (45 =? 43) with false. change (45 =? 45) with true. cbv iota.
  change (codes "infinity") with [105; 110; 102; 105; 110; 105; 116; 121].
  cbn [commonPrefixLenIgnoreCase].
  destruct (Z.leb_spec 65 c) as [? | _]; [lia |]. cbn [andb].
  destruct (Z.eqb_spec c 105) as [? | _]; [lia |].
  reflexivity.
Qed.

Lemma codes_digits l :
  forallb Update.is_digit l = true ->
  Forall digit_code (map code l)
  /\ fold_left (fun a c => a * 10 + (c - 48)) (map code l) 0
     = fold_left (fun a c => a * 10 + (code c - 48)) l 0.
Proof.
  intros H. split.
  - rewrite forallb_forall in H. apply Forall_forall. intros c Hc.
    apply in_map_iff in Hc. destruct Hc as [a [<- Ha]].
    specialize (H a Ha). unfold Update.is_digit in H. unfold digit_code. lia.
  - generalize 0. clear H. induction l as [| a l IH]; intros z; cbn;
      [reflexivity | apply IH].
Qed.

(** The digits [Sprint_d] writes for [n >= 0], as [ParseFloat] sees them. *)
Lemma Sprint_d_codes n :
  0 <= n < 2 ^ 53 ->
  exists c cs,
    map code (Fmt.digits 20 n []) = c :: cs
    /\ Forall digit_code (c :: cs)
    /\ fold_left (fun a c => a * 10 + (c - 48)) (c :: cs) 0 = n.
Proof.
  intros Hn.
  pose proof (Update.digits_are_digits 20 n [] ltac:(lia) eq_refl) as Hall.
  pose proof (Update.digits_decimal 20 n [] ltac:(lia)) as Hdec.
  pose proof (Update.digits_not_empty 19 n []) as Hne.
  destruct (codes_digits _ Hall) as [Hcodes Hfold].
  rewrite Hdec in Hfold. cbn [fold_left] in Hfold.
  destruct (Fmt.digits 20 n []) as [| a l] eqn:E; [contradiction |].
  cbn [map] in *. exists (code a), (map code l). repeat split; assumption.
Qed.

Lemma ParseFloat_Sprint_d n :
  0 < n < 2 ^ 53 -> ParseFloat (Fmt.Sprint_d n) = Ok (of_int n).
Proof.
  intros Hn. unfold ParseFloat, Fmt.Sprint_d.
  destruct (Z.ltb_spec n 0) as [? | _]; [lia |].
  change (codes (string_of_list_ascii (Fmt.digits 20 n [])))
    with (map code (list_ascii_of_string
                      (string_of_list_ascii (Fmt.digits 20 n [])))).
  rewrite list_ascii_of_string_of_list_ascii.
  destruct (Sprint_d_codes n ltac:(lia)) as [c [cs [-> [Hcodes Hfold]]]].
  rewrite special_digit by (inversion Hcodes; assumption).
  rewrite (readFloat_digits _ _ Hcodes), Hfold.
  cbn [andb]. unfold value.
  destruct (Z.eqb_spec n 0) as [? | _]; [lia |].
  cbn [Z.leb Z.compare Z.opp]. unfold of_scaled.
  change (10 ^ 0) with 1. rewrite Z.mul_1_r.
  fold (of_int n). destruct n as [| p | p]; try lia.
  rewrite (of_int_exact p) by lia. reflexivity.
Qed.

(** A number below zero is read as a double below zero. *)
Lemma ParseFloat_Sprint_d_minus p :
  Zpos p < 2 ^ 53 ->
  ParseFloat (Fmt.Sprint_d (Zneg p))
  = Ok (S754_finite true (normal_mantissa p) (normal_exponent p)).
Proof.
  intros Hp. unfold ParseFloat, Fmt.Sprint_d.
  change (Zneg p <? 0) with true. cbv iota. change (- Zneg p) with (Zpos p).
  change (codes (String "-" (string_of_list_ascii (Fmt.digits 20 (Zpos p) []))))
    with (45 :: map code (list_ascii_of_string
                            (string_of_list_ascii (Fmt.digits 20 (Zpos p) [])))).
  rewrite list_ascii_of_string_of_list_ascii.
  destruct (Sprint_d_codes (Zpos p) ltac:(lia)) as [c [cs [-> [Hcodes Hfold]]]].
  rewrite special_minus_digit by (inversion Hcodes; assumption).
  rewrite (readFloat_minus_digits _ _ Hcodes), Hfold.
  cbn [andb]. unfold value.
  change (Zpos p =? 0) with false. cbv iota.
  cbn [Z.leb Z.compare Z.opp]. unfold of_scaled.
  change (10 ^ 0) with 1. rewrite Z.mul_1_r. cbn [Z.opp].
  unfold binary_normalize. rewrite (binary_round_exact true p Hp).
  reflexivity.
Qed.

Lemma Sprint_d_magnitude n : is_magnitude (Fmt.Sprint_d n) = true.
Proof.
  assert (D : forall x, 0 <= x ->
                forallb is_magnitude_char (Fmt.digits 20 x []) = true
                /\ Fmt.digits 20 x [] <> []).
  { intros x Hx. split; [| apply (Update.digits_not_empty 19)].
    pose proof (Update.digits_are_digits 20 x [] Hx eq_refl) as Hall.
    rewrite forallb_forall in *. intros c Hc. specialize (Hall c Hc).
    unfold Update.is_digit in Hall. unfold is_magnitude_char.
    rewrite Hall. reflexivity. }
  unfold is_magnitude, Fmt.Sprint_d, all_chars, chars.
  destruct (Z.ltb_spec n 0) as [Hneg | Hpos].
  - cbn [String.eqb negb andb list_ascii_of_string forallb].
    rewrite list_ascii_of_string_of_list_ascii.
    destruct (D (- n) ltac:(lia)) as [-> _]. reflexivity.
  - rewrite list_ascii_of_string_of_list_ascii.
    destruct (D n Hpos) as [-> Hne].
    destruct (Fmt.digits 20 n []); [contradiction | reflexivity].
Qed.

Lemma unit_multiplier u m :
  In (u, m) units -> In m [1; 1024; 1024 * 1024; 1024 * 1024 * 1024].
Proof.
  unfold units. cbn [In].
  intros [E | [E | [E | [E | [E | [E | [E | [E | []]]]]]]]];
    injection E as _ <-; cbn [In]; auto 6.
Qed.

(** A whole magnitude below 2^53 is scaled without any rounding; zero and
    the numbers below zero are refused. *)
Lemma ParseBandwidthLimit_whole n u m :
  In (u, m) units -> - 2 ^ 53 < n < 2 ^ 53 -> n * m < 2 ^ 63 ->
  if 0 <? n then ParseBandwidthLimit (Fmt.Sprint_d n ++ u) = Ok (n * m)
  else is_err (ParseBandwidthLimit (Fmt.Sprint_d n ++ u)) = true.
Proof.
  intros Hu Hn Hr.
  pose proof (ParseBandwidthLimit_unit (Fmt.Sprint_d n) u m
                (Sprint_d_magnitude n) Hu) as H.
  destruct n as [| p | p].
  - exact H.
  - change (0 <? Zpos p) with true. cbv iota.
    rewrite (ParseFloat_Sprint_d (Zpos p)) in H by lia.
    rewrite (of_int_exact p) in H by lia. cbn [le SFleb SFcompare] in H.
    rewrite <- (of_int_exact p) in H by lia.
    rewrite (scaled_whole (Zpos p) m ltac:(lia) (unit_multiplier u m Hu) Hr)
      in H.
    exact H.
  - change (0 <? Zneg p) with false. cbv iota.
    rewrite (ParseFloat_Sprint_d_minus p) in H by lia.
    exact H.
Qed.

End Whole.

(** * The specification's claims *)

Section CodecClaims.
Import Bytes GoInt Terminal.

(** A payload of exactly 2^32 bytes, the shortest whose length does not fit
    the frame's 4-byte length field. *)
Definition payload_4GiB : list byte := repeat x00 (Z.to_nat (2 ^ 32)).

Lemma payload_4GiB_length : Z.of_nat (length payload_4GiB) = 2 ^ 32.
Proof. unfold payload_4GiB. rewrite repeat_length. apply Z2Nat.id. lia. Qed.

(** C1, as stated, fails: the length field holds [uint32(len(payload))], so a
    payload of 2^32 bytes is framed with length 0 and parsed back empty. *)
Lemma C1_counterexample :
  field AgentMessage.Payload
    (ParseMessage (BuildMessage MessageTypeOutputStream PayloadTypeOutput
                     payload_4GiB 0 0 []))
  = Some []
  /\ field AgentMessage.PayloadLength
    (ParseMessage (BuildMessage MessageTypeOutputStream PayloadTypeOutput
                     payload_4GiB 0 0 []))
  = Some 0
  /\ payload_4GiB <> [].
Proof.
  rewrite ParseMessage_BuildMessage. cbn [field parsed AgentMessage.Payload
    AgentMessage.PayloadLength].
  rewrite be_decode_PutUint32, uint32_idem.
  rewrite (parsed_payload_of_built payload_4GiB).
  rewrite payload_4GiB_length.
  replace (uint32 (2 ^ 32)) with 0 by reflexivity.
  repeat split.
  intros E. pose proof payload_4GiB_length as L. rewrite E in L.
  cbn [length] in L. lia.
Qed.

(** C1 (amended): for every payload of fewer than 2^32 bytes and every int64
    sequence number, with a message type that fits the 32-byte field and has
    no null byte and a payload type in the uint32 range, [ParseMessage] of
    [BuildMessage]'s output succeeds and returns the message type, payload
    type, sequence number and payload bytes that were given, whatever the
    clock and the random source delivered. *)
Theorem C1_build_parse_roundtrip
    (messageType : string) (payloadType : Z) (payload : list byte)
    (sequenceNumber now : Z) (rnd : list byte) :
  (String.length messageType <= MessageTypeLength)%nat ->
  no_null (list_byte_of_string messageType) ->
  in_uint32 payloadType ->
  in_int64 sequenceNumber ->
  Z.of_nat (length payload) < 2 ^ 32 ->
  exists m,
    ParseMessage (BuildMessage messageType payloadType payload sequenceNumber
                    now rnd) = Ok m
    /\ AgentMessage.MessageType m = messageType
    /\ AgentMessage.PayloadType m = payloadType
    /\ AgentMessage.SequenceNumber m = sequenceNumber
    /\ AgentMessage.Payload m = payload.
Proof.
  intros Hlen Hnull Hpt Hseq Hpl.
  rewrite ParseMessage_BuildMessage. eexists. split; [reflexivity |].
  cbn [parsed AgentMessage.MessageType AgentMessage.PayloadType
       AgentMessage.SequenceNumber AgentMessage.Payload].
  repeat split.
  - apply trimNullBytes_padded_id. split; assumption.
  - rewrite be_decode_PutUint32, uint32_idem. apply uint32_small, Hpt.
  - rewrite be_decode_PutUint64, uint64_idem. apply int64_uint64, Hseq.
  - rewrite be_decode_PutUint32, uint32_idem.
    rewrite (parsed_payload_of_built payload).
    rewrite uint32_small by (unfold in_uint32; lia).
    rewrite Nat2Z.id. apply firstn_all.
Qed.

Lemma C1_witness :
  exists m,
    ParseMessage (BuildMessage MessageTypeOutputStream PayloadTypeOutput
                    (list_byte_of_string "ls -l") 42 1700000000000
                    (list_byte_of_string "0123456789abcdef")) = Ok m
    /\ AgentMessage.MessageType m = MessageTypeOutputStream
    /\ AgentMessage.PayloadType m = PayloadTypeOutput
    /\ AgentMessage.SequenceNumber m = 42
    /\ AgentMessage.Payload m = list_byte_of_string "ls -l".
Proof.
  apply C1_build_parse_roundtrip.
  - change (18 <= 32)%nat. lia.
  - unfold no_null, MessageTypeOutputStream. cbn. intuition discriminate.
  - unfold in_uint32, PayloadTypeOutput. lia.
  - unfold in_int64. lia.
  - vm_compute. reflexivity.
Defined.

(** A message type of exactly 32 bytes without a null byte. *)
Definition messageType32 : string := "abcdefghijklmnopqrstuvwxyz012345".

(** C10, as stated, fails: a 32-byte message type fills the field, is not
    truncated, and is recovered exactly although it is not shorter than 32
    bytes. *)
Lemma C10_counterexample :
  String.length messageType32 = 32%nat
  /\ field AgentMessage.MessageType
       (ParseMessage (BuildMessage messageType32 PayloadTypeOutput [] 0 0 []))
     = Some messageType32.
Proof. vm_compute. split; reflexivity. Qed.

(** C10 (amended): [BuildMessage] stores the message type in bytes 4..36 of
    the frame, cut to 32 bytes and null-padded; [ParseMessage] returns the
    bytes of that field before its first null byte; consequently the message
    type survives build-then-parse exactly if and only if it has at most 32
    bytes and contains no null byte. *)
Theorem C10_message_type_field
    (messageType : string) (payloadType : Z) (payload : list byte)
    (sequenceNumber now : Z) (rnd : list byte) :
  let frame := BuildMessage messageType payloadType payload sequenceNumber
                 now rnd in
  slice 4 36 frame = padded MessageTypeLength (list_byte_of_string messageType)
  /\ field AgentMessage.MessageType (ParseMessage frame)
     = Some (string_of_list_byte
               (until_null (firstn MessageTypeLength
                              (list_byte_of_string messageType))))
  /\ (field AgentMessage.MessageType (ParseMessage frame) = Some messageType
      <-> (String.length messageType <= 32)%nat
          /\ no_null (list_byte_of_string messageType)).
Proof.
  cbv zeta. split; [| split].
  - rewrite BuildMessage_layout. unfold header, slice.
    rewrite <- !app_assoc.
    rewrite skipn_app_exact by apply PutUint32_length.
    apply firstn_app_exact. apply padded_length.
  - rewrite ParseMessage_BuildMessage.
    cbn [field parsed AgentMessage.MessageType]. unfold trimNullBytes.
    rewrite until_null_padded. reflexivity.
  - rewrite ParseMessage_BuildMessage.
    cbn [field parsed AgentMessage.MessageType].
    rewrite <- (trimNullBytes_padded_id MessageTypeLength). split.
    + intros E. injection E as E. exact E.
    + intros E. rewrite E. reflexivity.
Qed.

(** C7: the bytes 80..112 of every frame [BuildMessage] produces, and the
    [PayloadDigest] parsed back from it, are the SHA-256 hash of the payload;
    [ParseMessage] fails only on inputs shorter than the header and returns
    bytes 80..112 as the digest without comparing them with anything: a
    frame whose digest field was overwritten with any other 32 bytes parses
    to the same message with that digest. *)
Theorem C7_digest_embedded_not_verified :
  (forall messageType payloadType payload sequenceNumber now rnd,
     let frame := BuildMessage messageType payloadType payload sequenceNumber
                    now rnd in
     slice 80 112 frame = Sha256.Sum256 payload
     /\ field AgentMessage.PayloadDigest (ParseMessage frame)
        = Some (Sha256.Sum256 payload))
  /\ (forall data,
        is_err (ParseMessage data) = (length data <? HeaderLength)%nat
        /\ ((HeaderLength <= length data)%nat ->
            field AgentMessage.PayloadDigest (ParseMessage data)
            = Some (slice 80 112 data)))
  /\ (forall messageType payloadType payload sequenceNumber now rnd digest,
        length digest = PayloadDigestLength ->
        let frame := BuildMessage messageType payloadType payload
                       sequenceNumber now rnd in
        let forged := copy_into 80 112 digest frame in
        field AgentMessage.PayloadDigest (ParseMessage forged) = Some digest
        /\ field AgentMessage.Payload (ParseMessage forged)
           = field AgentMessage.Payload (ParseMessage frame)
        /\ field AgentMessage.MessageType (ParseMessage forged)
           = field AgentMessage.MessageType (ParseMessage frame)
        /\ field AgentMessage.PayloadType (ParseMessage forged)
           = field AgentMessage.PayloadType (ParseMessage frame)
        /\ field AgentMessage.SequenceNumber (ParseMessage forged)
           = field AgentMessage.SequenceNumber (ParseMessage frame)).
Proof.
  split; [| split].
  - intros mt pt payload seq now rnd. cbv zeta. split.
    + rewrite BuildMessage_around_digest. unfold slice.
      rewrite skipn_app_exact by apply before_digest_length.
      rewrite firstn_app_exact by apply padded_length.
      apply padded_exact, Sha256.Sum256_length.
    + rewrite ParseMessage_BuildMessage.
      cbn [field parsed AgentMessage.PayloadDigest].
      rewrite padded_exact by apply Sha256.Sum256_length. reflexivity.
  - intros data. unfold ParseMessage.
    destruct (Nat.ltb_spec (length data) HeaderLength) as [Hlt | Hge].
    + split; [reflexivity | unfold HeaderLength in *; lia].
    + split; [reflexivity |]. intros _.
      cbn [field AgentMessage.PayloadDigest].
      f_equal. apply copy_into_fresh.
      unfold slice, HeaderLength, MessageTypeLength, MessageIDLength,
        PayloadDigestLength in *.
      cbn [Nat.add]. rewrite length_firstn, length_skipn. lia.
  - intros mt pt payload seq now rnd digest Ld. cbv zeta.
    rewrite ParseMessage_BuildMessage.
    rewrite BuildMessage_around_digest.
    rewrite copy_into_middle
      by (try apply before_digest_length; try apply padded_length; exact Ld).
    unfold before_digest. rewrite <- !app_assoc.
    rewrite ParseMessage_fields by (frame_len; try reflexivity; exact Ld).
    cbn [field parsed AgentMessage.PayloadDigest AgentMessage.Payload
         AgentMessage.MessageType AgentMessage.PayloadType
         AgentMessage.SequenceNumber].
    repeat split.
Qed.

Lemma C7_witness :
  let frame := BuildMessage MessageTypeOutputStream PayloadTypeOutput
                 (list_byte_of_string "abc") 1 0 [] in
  let forged := copy_into 80 112 (repeat xff 32) frame in
  Sha256.hex (slice 80 112 frame)
  = "ba7816bf8f01cfea414140de5dae2223b00361a396177a9cb410ff61f20015ad"%string
  /\ field AgentMessage.PayloadDigest (ParseMessage forged) = Some (repeat xff 32)
  /\ field AgentMessage.Payload (ParseMessage forged)
     = Some (list_byte_of_string "abc").
Proof.
  cbv zeta.
  destruct C7_digest_embedded_not_verified as [Hbuilt [_ Hforged]].
  destruct (Hbuilt MessageTypeOutputStream PayloadTypeOutput
              (list_byte_of_string "abc") 1 0 []) as [Hd _].
  destruct (Hforged MessageTypeOutputStream PayloadTypeOutput
              (list_byte_of_string "abc") 1 0 [] (repeat xff 32) eq_refl)
    as [Hf [Hp _]].
  split; [| split].
  - rewrite Hd. vm_compute. reflexivity.
  - exact Hf.
  - rewrite Hp. vm_compute. reflexivity.
Defined.

End CodecClaims.

Section CopyClaims.
Import IO Throttle.

(** A context cancelled between the second and the third turn of the loop. *)
Definition cancel_at_third_check : nat -> option done :=
  fun i => if (i =? 2)%nat then Some DoneCanceled else None.

(** C6, as stated, fails: a source of 40000 bytes is larger than one chunk;
    when the cancellation is first seen at the check that follows the second
    (last) chunk, the loop returns the cancellation error with all 40000
    bytes written, not strictly fewer. *)
Lemma C6_counterexample :
  (chunk < length (repeat x78 (40 * 1000)))%nat
  /\ CopyWithContext slice_read buffer_write cancel_at_third_check 10 []
       (repeat x78 (40 * 1000))
     = Returned 40000 (Some Canceled) [] (repeat x78 (40 * 1000))
  /\ Z.of_nat (length (repeat x78 (40 * 1000))) = 40000.
Proof.
  assert (L : length (repeat x78 (40 * 1000)) = (40 * 1000)%nat)
    by apply repeat_length.
  split; [| split].
  - rewrite L. unfold chunk. lia.
  - unfold CopyWithContext.
    rewrite (copy_loop_cancelled cancel_at_third_check DoneCanceled 2).
    + rewrite skipn_all2 by (rewrite L; unfold chunk; lia).
      rewrite firstn_all2 by (rewrite L; unfold chunk; lia).
      rewrite L. cbn [app ctx_Err].
      replace (0 + Z.of_nat (Nat.min (2 * chunk) (40 * 1000))) with 40000
        by (unfold chunk; lia).
      reflexivity.
    + lia.
    + intros j Hj. destruct j as [| [| j]]; [reflexivity | reflexivity | lia].
    + reflexivity.
    + rewrite L. unfold chunk. lia.
  - rewrite L. lia.
Qed.

(** C6 (amended): [CopyWithContext] checks the context before every chunked
    read: a turn whose check finds the context done returns at once, whatever
    the streams, without reading.  When the context is first found done at
    the check of turn [k] (the loop has not ended before), the call returns
    the context's error, which is of cancellation kind, after exactly [k]
    reads; the count it returns is the [min (32768 k) size] bytes copied by
    then, the destination keeps exactly those bytes, and the count is
    strictly less than the source size if and only if source bytes were still
    unread at that check. *)
Theorem C6_cancel_returns_partial_count
    (src dst : list byte) (ctx : nat -> option done) (k fuel : nat) (d : done) :
  (forall j, (j < k)%nat -> ctx j = None) ->
  ctx k = Some d ->
  (k * chunk < length src + chunk)%nat ->
  (k < fuel)%nat ->
  let written := Z.of_nat (Nat.min (k * chunk) (length src)) in
  (forall (R W : Type) (read : read_fn R) (write : write_fn W)
          (n : nat) (count : Z) (r : R) (w : W),
     copy_loop read write ctx (S n) k count r w
     = Returned count (Some (ctx_Err d)) r w)
  /\ CopyWithContext slice_read buffer_write ctx fuel dst src
     = Returned written (Some (ctx_Err d)) (skipn (k * chunk) src)
         (dst ++ firstn (k * chunk) src)
  /\ is_cancellation (ctx_Err d) = true
  /\ (written < Z.of_nat (length src) <-> (k * chunk < length src)%nat).
Proof.
  intros Hnone Hd Hreach Hfuel. cbv zeta. split; [| split; [| split]].
  - intros R W read write n count r w. cbn [copy_loop]. rewrite Hd.
    reflexivity.
  - unfold CopyWithContext.
    rewrite (copy_loop_cancelled ctx d k) by assumption.
    rewrite Z.add_0_l. reflexivity.
  - destruct d; reflexivity.
  - lia.
Qed.

Lemma C6_witness :
  CopyWithContext slice_read buffer_write
    (fun i => if (i =? 1)%nat then Some DoneCanceled else None) 5 []
    (repeat x78 (40 * 1000))
  = Returned 32768 (Some Canceled)
      (skipn (1 * chunk) (repeat x78 (40 * 1000)))
      ([] ++ firstn (1 * chunk) (repeat x78 (40 * 1000)))
  /\ 32768 < Z.of_nat (length (repeat x78 (40 * 1000))).
Proof.
  assert (L : length (repeat x78 (40 * 1000)) = (40 * 1000)%nat)
    by apply repeat_length.
  pose proof (C6_cancel_returns_partial_count (repeat x78 (40 * 1000)) []
                (fun i => if (i =? 1)%nat then Some DoneCanceled else None)
                1 5 DoneCanceled) as H.
  cbv zeta in H.
  destruct H as [_ [H [_ Hlt]]].
  - intros j Hj. assert (j = O) by lia. subst j. reflexivity.
  - reflexivity.
  - rewrite L. unfold chunk. lia.
  - lia.
  - rewrite H. split.
    + rewrite L. cbn [ctx_Err].
      replace (Z.of_nat (Nat.min (1 * chunk) (40 * 1000))) with 32768
        by (unfold chunk; lia).
      reflexivity.
    + rewrite L. lia.
Defined.

(** C5 fails at 50 bytes per second: with clock readings 10.1 ms apart and a
    source of 100 bytes, the copy through a [ThrottledReader] delivers the
    first 50 bytes and then turns for ever without a byte more, and
    [ThrottledWriter.Write] of the 100 bytes never returns. *)
Theorem C5_low_rate_stalls (fuel : nat) :
  (match NewThrottledReader (list byte) (repeat x78 100) 50 0 with
   | inr t =>
       exists t',
         CopyWithContext (Read (list byte) slice_read steady_clock)
           buffer_write Background (S fuel) [] t
         = Turning 50 t' (repeat x78 50)
   | inl _ => False
   end)
  /\ (match NewThrottledWriter (list byte) [] 50 0 with
      | inr t =>
          Write (list byte) buffer_write steady_clock fuel t (repeat x78 100)
          = None
      | inl _ => False
      end).
Proof.
  assert (L : length (repeat x78 100) = 100%nat) by apply repeat_length.
  split.
  - change (NewThrottledReader (list byte) (repeat x78 100) 50 0)
      with (@inr (list byte) _ (mkThrottledReader (repeat x78 100) 50 50 0 0)).
    cbv iota.
    destruct (stalled_reader_turns (skipn 50 (repeat x78 100))
                (firstn 50 (repeat x78 100)) fuel O) as [t' Ht].
    exists t'. unfold CopyWithContext.
    rewrite first_turn_reader by (rewrite L; lia).
    exact Ht.
  - change (NewThrottledWriter (list byte) [] 50 0)
      with (@inr (list byte) _ (mkThrottledWriter (@nil byte) 50 50 0 0)).
    cbv iota. unfold Write.
    destruct fuel as [| fuel].
    + cbn [Write_loop]. rewrite L. reflexivity.
    + rewrite first_turn_writer by (rewrite L; lia).
      apply stalled_writer_turns. rewrite L. lia.
Qed.

End CopyClaims.

Section BandwidthClaims.
Import GoStrings Float64 Throttle.

(** C4: [ParseBandwidthLimit] maps the empty string to 0, "1024" to 1024,
    "1K" to 1024, "500K" to 512000, "1M" to 1048576, "1.5M" to 1572864 and
    "1G" to 1073741824, and returns an error on "abc", "-100K" and "0K".  In
    general: two inputs that differ in the case of ASCII letters only are
    parsed alike.  A decimal magnitude (digits, points, a sign) followed by
    nothing, B, K, KB, M, MB, G or GB is read as a double by
    [strconv.ParseFloat]; when that fails, or the double is not above zero,
    the input is an error, and otherwise the result is the double multiplied
    by 1, 1024, 1024^2 or 1024^3 and truncated; whether the magnitude is
    accepted does not depend on the suffix, and the suffixes with the same
    multiplier (none and B, K and KB, M and MB, G and GB) give the same
    value.  For a whole magnitude [n] between -2^53 and 2^53 this is exact:
    the result is [n] times the multiplier when [n] is above zero (and the
    product fits [int64]), and an error when it is not.  An input written in
    ASCII whose numeric portion does not parse, or is not above zero, is an
    error. *)
Theorem C4_ParseBandwidthLimit :
  (ParseBandwidthLimit "" = Ok 0
   /\ ParseBandwidthLimit "1024" = Ok 1024
   /\ ParseBandwidthLimit "1K" = Ok 1024
   /\ ParseBandwidthLimit "500K" = Ok 512000
   /\ ParseBandwidthLimit "1M" = Ok 1048576
   /\ ParseBandwidthLimit "1.5M" = Ok 1572864
   /\ ParseBandwidthLimit "1G" = Ok 1073741824
   /\ is_err (ParseBandwidthLimit "abc") = true
   /\ is_err (ParseBandwidthLimit "-100K") = true
   /\ is_err (ParseBandwidthLimit "0K") = true)
  /\ (forall s1 s2,
        isASCII s1 = true -> isASCII s2 = true ->
        ToUpper s1 = ToUpper s2 ->
        ParseBandwidthLimit s1 = ParseBandwidthLimit s2)
  /\ (forall num u m,
        is_magnitude num = true ->
        In (u, m) units ->
        match Strconv.ParseFloat num with
        | Err _ => is_err (ParseBandwidthLimit (num ++ u)) = true
        | Ok v =>
            if le v (S754_zero false)
            then is_err (ParseBandwidthLimit (num ++ u)) = true
            else ParseBandwidthLimit (num ++ u)
                 = Ok (to_int64 (mul v (of_int m)))
        end)
  /\ (forall num u1 m1 u2 m2,
        is_magnitude num = true ->
        In (u1, m1) units ->
        In (u2, m2) units ->
        is_err (ParseBandwidthLimit (num ++ u1))
        = is_err (ParseBandwidthLimit (num ++ u2))
        /\ (m1 = m2 ->
            value_of (ParseBandwidthLimit (num ++ u1))
            = value_of (ParseBandwidthLimit (num ++ u2))))
  /\ (forall n u m,
        In (u, m) units ->
        - 2 ^ 53 < n < 2 ^ 53 ->
        n * m < 2 ^ 63 ->
        if 0 <? n
        then ParseBandwidthLimit (Fmt.Sprint_d n ++ u) = Ok (n * m)
        else is_err (ParseBandwidthLimit (Fmt.Sprint_d n ++ u)) = true)
  /\ (forall s,
        isASCII s = true ->
        s <> ""%string ->
        match Strconv.ParseFloat (snd (suffix_switch (TrimSpace (ToUpper s)))) with
        | Err _ => True
        | Ok num => le num (S754_zero false) = true
        end ->
        is_err (ParseBandwidthLimit s) = true).
Proof.
  split; [| split; [| split; [| split; [| split]]]].
  - vm_compute. repeat split.
  - intros s1 s2 _ _. apply ParseBandwidthLimit_case.
  - exact ParseBandwidthLimit_unit.
  - exact ParseBandwidthLimit_units.
  - exact Whole.ParseBandwidthLimit_whole.
  - intros s _. apply ParseBandwidthLimit_rejects.
Qed.

Lemma C4_witness :
  ParseBandwidthLimit "2.5kb" = ParseBandwidthLimit "2.5KB"
  /\ ParseBandwidthLimit ("2.5" ++ "KB") = Ok 2560
  /\ value_of (ParseBandwidthLimit ("0.75" ++ "G"))
     = value_of (ParseBandwidthLimit ("0.75" ++ "GB"))
  /\ ParseBandwidthLimit (Fmt.Sprint_d 4096 ++ "MB") = Ok 4294967296
  /\ is_err (ParseBandwidthLimit (Fmt.Sprint_d (-7) ++ "K")) = true
  /\ is_err (ParseBandwidthLimit "1.5X") = true
  /\ is_err (ParseBandwidthLimit "-0.5M") = true.
Proof.
  destruct C4_ParseBandwidthLimit
    as [_ [Hcase [Hunit [Hunits [Hwhole Hrej]]]]].
  split; [apply Hcase; reflexivity |].
  split; [exact (Hunit "2.5"%string "KB"%string 1024 eq_refl
                   ltac:(unfold units; cbn [In]; auto 8)) |].
  split; [exact (proj2 (Hunits "0.75"%string "G"%string (1024 * 1024 * 1024)
                          "GB"%string (1024 * 1024 * 1024) eq_refl
                          ltac:(unfold units; cbn [In]; auto 10)
                          ltac:(unfold units; cbn [In]; auto 10))
                   eq_refl) |].
  split; [exact (Hwhole 4096 "MB"%string (1024 * 1024)
                   ltac:(unfold units; cbn [In]; auto 8)
                   ltac:(lia) ltac:(lia)) |].
  split; [exact (Hwhole (-7) "K"%string 1024
                   ltac:(unfold units; cbn [In]; auto 8)
                   ltac:(lia) ltac:(lia)) |].
  split; apply Hrej; try reflexivity; try discriminate; vm_compute; reflexivity.
Defined.

End BandwidthClaims.

Section TransferClaims.
Import GoStrings Filepath Paths Transfer.


(** A world like [calm] in which the device refuses to deliver [/d/b]. *)
Definition flaky : World :=
  mkWorld unix
    (fun _ _ => None)
    (fun _ _ _ => Ok (RFile "f" 3))
    (fun _ _ path =>
       if String.eqb path "/d/b" then Err (ErrNew "file not found: /d/b")
       else Ok 3)
    (fun _ _ _ _ => None)
    (fun _ _ _ => None)
    (fun _ => local_disk)
    (fun _ _ => None)
    (fun _ _ => None)
    (fun _ _ => None)
    (fun _ _ => Ok (list_byte_of_string "abc"))
    (fun _ _ => (3, None))
    (fun _ => None)
    false.

(** A world like [calm] in which the device refuses the upload to [/r/b]. *)
Definition picky : World :=
  mkWorld unix
    (fun _ _ => None)
    (fun _ _ _ => Ok (RFile "f" 3))
    (fun _ _ _ => Ok 3)
    (fun _ _ path _ =>
       if String.eqb path "/r/b" then Some (ErrNew "upload refused: /r/b")
       else None)
    (fun _ _ _ => None)
    (fun _ => local_disk)
    (fun _ _ => None)
    (fun _ _ => None)
    (fun _ _ => None)
    (fun _ _ => Ok (list_byte_of_string "abc"))
    (fun _ _ => (3, None))
    (fun _ => None)
    false.

Definition forced : TransferOptions := mkOptions true 0 true true false false.
Definition unforced : TransferOptions := mkOptions true 0 true false false false.

(** Three files and a directory on the device, and on the local disk. *)
Definition remote_siblings : list RemoteEntry :=
  [RFile "a" 1; RFile "b" 1; RFile "c" 1; RDir "e" None [RFile "x" 1]].

Definition local_siblings : list LocalEntry :=
  [LFile "a" (Ok 3); LFile "b" (Ok 3); LFile "c" (Ok 3);
   LDir "e" None [LFile "x" (Ok 3)]].

Definition abc : list byte := list_byte_of_string "abc".

(** The states in which the entries [b] fail. *)
Definition download_failed (opts : TransferOptions) : State :=
  snd (downloadEntry flaky opts "dev" (RFile "b" 1) "/d/b" "out/b"
         (snd (download_children flaky opts "dev" "/d" "out" [RFile "a" 1]
                 (mkState [] empty_result)))).

Definition upload_failed (opts : TransferOptions) : State :=
  snd (uploadEntry picky opts "dev" (LFile "b" (Ok 3)) "in/b" "/r/b"
         (snd (upload_children picky opts "dev" "in" "/r" [LFile "a" (Ok 3)]
                 (mkState [] empty_result)))).


(** C8, as stated, fails: [Upload] itself does not look at the number of
    paths.  Called with two files and the destination [/tmp/x], it goes to the
    network and uploads both files to [/tmp/x], without any error. *)
Lemma C8_counterexample :
  length ["a.txt"; "b.txt"]%string = 2%nat
  /\ IsDirectory "/tmp/x" = false
  /\ Upload calm plain "dev" ["a.txt"; "b.txt"]%string "/tmp/x" []
     = (Some (mkResult 2 6 []), None,
        [CheckDeviceOnline "dev";
         OsStat "a.txt"; OsOpen "a.txt"; ReadAll "a.txt";
         UploadFile "dev" "/tmp/x" (list_byte_of_string "abc");
         OsStat "b.txt"; OsOpen "b.txt"; ReadAll "b.txt";
         UploadFile "dev" "/tmp/x" (list_byte_of_string "abc")]).
Proof. vm_compute. repeat split. Qed.

Lemma removelast_length {A} (l : list A) :
  length (removelast l) = (length l - 1)%nat.
Proof.
  rewrite removelast_firstn_len, length_firstn. lia.
Qed.

(** C8 (amended): when the [put] command is given more than one local path,
    each of which [os.Stat] finds, and a well-formed remote destination whose
    path does not end with a slash, [runPut] fails with the validation error;
    the only calls it has made are the [os.Stat] of the local paths: no
    network call, no change to the device or to the local disk. *)
Theorem C8_put_rejects_multiple_files_to_non_directory
    (w : World) (flags : PutFlags) (quiet : bool) (args : list string)
    (t : list Event) (remote : RemotePath) :
  (2 < length args)%nat ->
  IsRemotePath (last args ""%string) = true ->
  ParseRemotePath (last args ""%string) = Ok remote ->
  IsDirectory (Path remote) = false ->
  (forall t' p, In p (removelast args) -> is_err (w_Stat w t' p) = false) ->
  runPut w flags quiet args t
  = (Some multiple_files_error, t ++ map OsStat (removelast args))
  /\ forallb (fun e => negb (is_network e) && negb (is_mutation e))
       (map OsStat (removelast args)) = true.
Proof.
  intros Hlen Hremote Hparse Hdir Hstat. split.
  - unfold runPut. rewrite Hremote, Hparse. cbn [negb].
    rewrite (stat_all_ok w (removelast args) Hstat t).
    rewrite Hdir, removelast_length.
    replace (1 <? length args - 1)%nat with true
      by (symmetry; apply Nat.ltb_lt; lia).
    reflexivity.
  - apply forallb_forall. intros e He. apply in_map_iff in He.
    destruct He as [p [<- _]]. reflexivity.
Qed.

Lemma C8_witness :
  runPut calm (mkPutFlags false "" true false false) false
    ["a.txt"; "b.txt"; "dev:/tmp/x"]%string []
  = (Some multiple_files_error, [OsStat "a.txt"; OsStat "b.txt"]).
Proof.
  apply (C8_put_rejects_multiple_files_to_non_directory calm
           (mkPutFlags false "" true false false) false
           ["a.txt"; "b.txt"; "dev:/tmp/x"]%string []
           (mkRemotePath "dev" "/tmp/x")).
  - cbn [length]. lia.
  - vm_compute. reflexivity.
  - vm_compute. reflexivity.
  - vm_compute. reflexivity.
  - intros t' p [<- | [<- | []]]; reflexivity.
Defined.

(** C2 fails on the count: in a dry run [uploadFile] and [downloadFile]
    return before [result.FilesTransferred++], so the result counts 0 files
    where the same call without dry-run transfers one, and the [put] command
    reports "would transfer 0 file(s)".  The bytes are 0 and nothing is
    changed, as the claim says. *)
Theorem C2_dry_run_counts_no_files :
  Upload calm dry "dev" ["a.txt"]%string "/tmp/a.txt" []
  = (Some (mkResult 0 0 []), None,
     [CheckDeviceOnline "dev"; OsStat "a.txt";
      Print (WouldUpload "a.txt" "dev" "/tmp/a.txt" 3)])
  /\ Upload calm plain "dev" ["a.txt"]%string "/tmp/a.txt" []
     = (Some (mkResult 1 3 []), None,
        [CheckDeviceOnline "dev"; OsStat "a.txt"; OsOpen "a.txt";
         ReadAll "a.txt";
         UploadFile "dev" "/tmp/a.txt" (list_byte_of_string "abc")])
  /\ Download calm dry "dev" "/f" "out.txt" []
     = (Some (mkResult 0 0 []), None,
        [CheckDeviceOnline "dev"; StatFile "dev" "/f";
         Print (WouldDownload "/f" "out.txt" 3)])
  /\ Download calm plain "dev" "/f" "out.txt" []
     = (Some (mkResult 1 3 []), None,
        [CheckDeviceOnline "dev"; StatFile "dev" "/f"; OsStat "out.txt";
         OsMkdirAll "."; DownloadFile "dev" "/f"; OsCreate "out.txt";
         CopyTo "out.txt"])
  /\ runPut calm (mkPutFlags false "" true false true) false
       ["a.txt"; "dev:/tmp/a.txt"]%string []
     = (None,
        [OsStat "a.txt"; NewClient; CheckDeviceOnline "dev"; OsStat "a.txt";
         Print (WouldUpload "a.txt" "dev" "/tmp/a.txt" 3);
         Print (DryRunComplete 0)]).
Proof. vm_compute. repeat split. Qed.

End TransferClaims.

Section ProgressClaims.
Import Progress.

(** C9 fails for the upload side: on a terminal 120 columns wide the bar of
    [ProgressWriter] is 40 columns wide, and it is 30 columns wide at 80
    columns or when the size is unknown, but the bar of [ProgressReader] is
    30 columns wide whatever the terminal: its [printProgress] has no
    terminal-width test. *)
Theorem C9_reader_bar_is_30_on_wide_terminal :
  columns (ProgressWriter_printProgress (mkProgress 1000 500 false None) 0
             (Ok (120, 40))) = Some 40%nat
  /\ columns (ProgressWriter_printProgress (mkProgress 1000 500 false None) 0
                (Ok (80, 24))) = Some 30%nat
  /\ columns (ProgressWriter_printProgress (mkProgress 1000 500 false None) 0
                (Err (ErrNew "inappropriate ioctl for device"))) = Some 30%nat
  /\ columns (ProgressReader_printProgress (mkProgress 1000 500 false None) 0)
     = Some 30%nat.
Proof. vm_compute. repeat split. Qed.

End ProgressClaims.

(** * Further properties of the code *)

Section CodecProperties.
Import Bytes GoInt Terminal.

(** X1.  [ParseMessage] fails on exactly the inputs shorter than the
    120-byte header.  On any longer input it succeeds, whatever the bytes
    are: the payload length is the number in bytes 116..119, and the payload
    is that many bytes after the header when the input holds them (bytes
    after them are dropped) and is left nil, without an error, when the
    input is cut short. *)
Theorem X1_ParseMessage_accepts_every_long_input (data : list byte) :
  match ParseMessage data with
  | Err _ => (length data < HeaderLength)%nat
  | Ok m =>
      (HeaderLength <= length data)%nat
      /\ AgentMessage.PayloadLength m = Uint32 (skipn 116 data)
      /\ AgentMessage.Payload m
         = if AgentMessage.PayloadLength m
              <=? Z.of_nat (length data) - Z.of_nat HeaderLength
           then slice HeaderLength
                  (HeaderLength + Z.to_nat (AgentMessage.PayloadLength m)) data
           else []
  end.
Proof.
  unfold ParseMessage.
  destruct (Nat.ltb_spec (length data) HeaderLength) as [Hs | Hl];
    [exact Hs |].
  cbv zeta. rewrite !slice_add.
  unfold HeaderLength, MessageTypeLength, MessageIDLength,
    PayloadDigestLength in *.
  cbn [Nat.add AgentMessage.PayloadLength AgentMessage.Payload].
  split; [exact Hl |]. split; [reflexivity |].
  set (n := Uint32 (skipn 116 data)).
  assert (Hn : 0 <= n) by (unfold n, Uint32; apply be_decode_nonneg).
  destruct (Z.leb_spec (Z.of_nat 120 + n) (Z.of_nat (length data))) as [Hin | Hout].
  - destruct (Z.leb_spec n (Z.of_nat (length data) - Z.of_nat 120)); [| lia].
    apply copy_into_fresh. rewrite length_firstn, length_skipn. lia.
  - destruct (Z.leb_spec n (Z.of_nat (length data) - Z.of_nat 120)); [lia |].
    reflexivity.
Qed.

(** X2.  A built frame is exactly 120 bytes longer than its payload,
    whatever the length of the message type and the number of random bytes
    delivered; parsed back, its header says 120 for the header length, 1 for
    the schema version, 0 for the flags, the clock reading for the creation
    date, the first sixteen random bytes (zero-filled when fewer came) for
    the message id, and the payload length modulo 2^32. *)
Theorem X2_built_frame_header (messageType : string) (payloadType : Z)
    (payload : list byte) (sequenceNumber now : Z) (rnd : list byte) :
  in_int64 now ->
  length (BuildMessage messageType payloadType payload sequenceNumber now rnd)
  = (HeaderLength + length payload)%nat
  /\ exists m,
       ParseMessage (BuildMessage messageType payloadType payload
                       sequenceNumber now rnd) = Ok m
       /\ AgentMessage.HeaderLength m = 120
       /\ AgentMessage.SchemaVersion m = 1
       /\ AgentMessage.CreatedDate m = now
       /\ AgentMessage.Flags m = 0
       /\ AgentMessage.MessageID m = padded MessageIDLength rnd
       /\ length (AgentMessage.MessageID m) = MessageIDLength
       /\ AgentMessage.PayloadLength m = Z.of_nat (length payload) mod 2 ^ 32.
Proof.
  intros Hnow. split; [apply BuildMessage_length |].
  rewrite ParseMessage_BuildMessage. eexists. split; [reflexivity |].
  cbn [parsed AgentMessage.HeaderLength AgentMessage.SchemaVersion
       AgentMessage.CreatedDate AgentMessage.Flags AgentMessage.MessageID
       AgentMessage.PayloadLength].
  repeat split.
  - rewrite be_decode_PutUint64, uint64_idem. apply int64_uint64, Hnow.
  - apply padded_length.
  - rewrite be_decode_PutUint32, uint32_idem. reflexivity.
Qed.

Lemma X2_witness :
  length (BuildMessage "t" 1 (list_byte_of_string "abc") 5 1700000000000 [x01; x02])
  = 123%nat
  /\ exists m,
       ParseMessage (BuildMessage "t" 1 (list_byte_of_string "abc") 5
                       1700000000000 [x01; x02]) = Ok m
       /\ AgentMessage.HeaderLength m = 120
       /\ AgentMessage.SchemaVersion m = 1
       /\ AgentMessage.CreatedDate m = 1700000000000
       /\ AgentMessage.Flags m = 0
       /\ AgentMessage.MessageID m = padded MessageIDLength [x01; x02]
       /\ length (AgentMessage.MessageID m) = MessageIDLength
       /\ AgentMessage.PayloadLength m = 3 mod 2 ^ 32.
Proof.
  apply (X2_built_frame_header "t" 1 (list_byte_of_string "abc") 5
           1700000000000 [x01; x02]).
  unfold in_int64. lia.
Defined.

(** X3.  The frame [BuildResizeMessage] builds for a terminal of [cols]
    columns and [rows] rows (64-bit integers, the range in which
    [Fmt.Sprint_d] is the verb [%d]) parses back to a message of type
    [output_stream_data] and payload type 3 (size) whose payload is the JSON
    text with the two numbers in decimal; none of [IsOutput],
    [IsHandshakeComplete] and [IsExitCode] holds of it. *)
Theorem X3_resize_message_roundtrip (cols rows sequenceNumber now : Z)
    (rnd : list byte) :
  in_int64 cols -> in_int64 rows -> in_int64 sequenceNumber ->
  exists m,
    ParseMessage (BuildResizeMessage cols rows sequenceNumber now rnd) = Ok m
    /\ AgentMessage.MessageType m = MessageTypeOutputStream
    /\ AgentMessage.PayloadType m = PayloadTypeSize
    /\ AgentMessage.SequenceNumber m = sequenceNumber
    /\ string_of_list_byte (AgentMessage.Payload m)
       = ("{" ++ Fmt.dquote ++ "cols" ++ Fmt.dquote ++ ":" ++ Fmt.Sprint_d cols
          ++ "," ++ Fmt.dquote ++ "rows" ++ Fmt.dquote ++ ":"
          ++ Fmt.Sprint_d rows ++ "}")%string
    /\ IsOutput m = false
    /\ IsHandshakeComplete m = false
    /\ IsExitCode m = false.
Proof.
  intros _ _ Hseq. unfold BuildResizeMessage. cbv zeta.
  rewrite ParseMessage_BuildMessage. eexists. split; [reflexivity |].
  unfold IsOutput, IsHandshakeComplete, IsExitCode.
  cbn [parsed AgentMessage.MessageType AgentMessage.PayloadType
       AgentMessage.SequenceNumber AgentMessage.Payload].
  assert (Hpt : be_decode (PutUint32 (uint32 PayloadTypeSize)) = PayloadTypeSize)
    by (vm_compute; reflexivity).
  rewrite Hpt.
  split; [vm_compute; reflexivity |]. split; [reflexivity |].
  split; [| split; [| repeat split]].
  - rewrite be_decode_PutUint64, uint64_idem. apply int64_uint64, Hseq.
  - rewrite parsed_payload_whole.
    + rewrite string_of_list_byte_of_string. reflexivity.
    + rewrite list_byte_of_string_length.
      pose proof (resize_payload_length cols rows). lia.
Qed.

Lemma X3_witness :
  exists m,
    ParseMessage (BuildResizeMessage 132 43 9 1700000000000 []) = Ok m
    /\ AgentMessage.MessageType m = MessageTypeOutputStream
    /\ AgentMessage.PayloadType m = PayloadTypeSize
    /\ AgentMessage.SequenceNumber m = 9
    /\ string_of_list_byte (AgentMessage.Payload m)
       = ("{" ++ Fmt.dquote ++ "cols" ++ Fmt.dquote ++ ":" ++ Fmt.Sprint_d 132
          ++ "," ++ Fmt.dquote ++ "rows" ++ Fmt.dquote ++ ":"
          ++ Fmt.Sprint_d 43 ++ "}")%string
    /\ IsOutput m = false
    /\ IsHandshakeComplete m = false
    /\ IsExitCode m = false.
Proof.
  apply (X3_resize_message_roundtrip 132 43 9 1700000000000 []);
    unfold in_int64; lia.
Defined.

(** X4.  The frame [BuildInputMessage] builds for keyboard input carries the
    type and the payload type of terminal output: parsed back, it returns the
    input bytes and the sequence number, [IsOutput] holds of it, and
    [IsHandshakeComplete] and [IsExitCode] do not.  Of any message at most
    one of the three predicates holds. *)
Theorem X4_input_message_is_output (input : list byte)
    (sequenceNumber now : Z) (rnd : list byte) :
  Z.of_nat (length input) < 2 ^ 32 ->
  in_int64 sequenceNumber ->
  (exists m,
     ParseMessage (BuildInputMessage input sequenceNumber now rnd) = Ok m
     /\ AgentMessage.Payload m = input
     /\ AgentMessage.SequenceNumber m = sequenceNumber
     /\ IsOutput m = true
     /\ IsHandshakeComplete m = false
     /\ IsExitCode m = false)
  /\ (forall m : AgentMessage.t,
        (IsOutput m = true -> IsHandshakeComplete m = false /\ IsExitCode m = false)
        /\ (IsHandshakeComplete m = true -> IsExitCode m = false)).
Proof.
  intros Hlen Hseq. split.
  - unfold BuildInputMessage.
    rewrite ParseMessage_BuildMessage. eexists. split; [reflexivity |].
    unfold IsOutput, IsHandshakeComplete, IsExitCode.
    cbn [parsed AgentMessage.PayloadType AgentMessage.SequenceNumber
         AgentMessage.Payload].
    assert (Hpt : be_decode (PutUint32 (uint32 PayloadTypeOutput))
                  = PayloadTypeOutput) by (vm_compute; reflexivity).
    rewrite Hpt. repeat split.
    + apply parsed_payload_whole, Hlen.
    + rewrite be_decode_PutUint64, uint64_idem. apply int64_uint64, Hseq.
  - intros m. unfold IsOutput, IsHandshakeComplete, IsExitCode,
      PayloadTypeOutput, PayloadTypeHandshakeComplete, PayloadTypeExitCode.
    split.
    + intros H. apply Z.eqb_eq in H. rewrite H. split; reflexivity.
    + intros H. apply Z.eqb_eq in H. rewrite H. reflexivity.
Qed.

Lemma X4_witness :
  (exists m,
     ParseMessage (BuildInputMessage (list_byte_of_string "ls") 3 1700000000000 [])
     = Ok m
     /\ AgentMessage.Payload m = list_byte_of_string "ls"
     /\ AgentMessage.SequenceNumber m = 3
     /\ IsOutput m = true
     /\ IsHandshakeComplete m = false
     /\ IsExitCode m = false)
  /\ (forall m : AgentMessage.t,
        (IsOutput m = true -> IsHandshakeComplete m = false /\ IsExitCode m = false)
        /\ (IsHandshakeComplete m = true -> IsExitCode m = false)).
Proof.
  apply (X4_input_message_is_output (list_byte_of_string "ls") 3
           1700000000000 []).
  - cbn. lia.
  - unfold in_int64. lia.
Defined.

End CodecProperties.

Section ThrottleProperties.
Import IO Throttle.

(** X5.  One [Read] of a throttled reader over an in-memory source returns
    no more bytes than the caller's buffer holds and no more than
    [bytesPerSec], whatever the clock says; afterwards the bucket holds at
    most [bytesPerSec] tokens and the rate is unchanged. *)
Theorem X5_throttled_Read_is_capped (clock : nat -> Z)
    (t : ThrottledReader (list byte)) (n : nat) :
  0 <= r_bytesPerSec t ->
  let '(data, _, t') := Read (list byte) slice_read clock t n in
  (length data <= n)%nat
  /\ Z.of_nat (length data) <= r_bytesPerSec t
  /\ r_bucket t' <= r_bytesPerSec t
  /\ r_bytesPerSec t' = r_bytesPerSec t.
Proof.
  intros Hcap. pose proof (throttled_Read_bound clock t n Hcap) as H.
  destruct (Read (list byte) slice_read clock t n) as [[data err] t'].
  destruct H as [H1 [H2 [H3 [H4 _]]]]. repeat split; assumption.
Qed.

Lemma X5_witness :
  let '(data, _, t') :=
    Read (list byte) slice_read (fun _ => 5000000000)
      (mkThrottledReader (list_byte_of_string "hello world") 4 4 0 0) 8%nat in
  (length data <= 8)%nat
  /\ Z.of_nat (length data) <= 4
  /\ r_bucket t' <= 4
  /\ r_bytesPerSec t' = 4.
Proof.
  apply (X5_throttled_Read_is_capped (fun _ => 5000000000)
           (mkThrottledReader (list_byte_of_string "hello world") 4 4 0 0)
           8%nat).
  cbn. lia.
Defined.

(** X6.  A copy from an in-memory source through the reader
    [NewThrottledReader] returns (the source itself for a limit that is not
    positive, the throttling wrapper otherwise) loses, repeats and reorders
    nothing: at every moment the bytes written followed by the bytes still
    unread are the source, the count is the number of bytes written, and a
    copy that returns a nil error has written the whole source. *)
Theorem X6_throttled_copy_delivers_the_source (bytesPerSec now : Z)
    (clock : nat -> Z) (ctx : nat -> option done) (fuel : nat)
    (src : list byte) :
  match CopyWithContext (Read_of (list byte) slice_read clock) buffer_write
          ctx fuel [] (NewThrottledReader (list byte) src bytesPerSec now) with
  | Returned n err s' dst' =>
      dst' ++ unread s' = src
      /\ n = Z.of_nat (length dst')
      /\ (err = None -> dst' = src /\ n = Z.of_nat (length src))
  | Turning n s' dst' =>
      dst' ++ unread s' = src /\ n = Z.of_nat (length dst')
  end.
Proof.
  unfold CopyWithContext.
  pose proof (copy_front _ _ unread (Read_of_front clock) ctx fuel 0%nat 0
                (NewThrottledReader (list byte) src bytesPerSec now) []) as H.
  assert (Hsrc : unread (NewThrottledReader (list byte) src bytesPerSec now) = src).
  { unfold NewThrottledReader. destruct (bytesPerSec <=? 0); reflexivity. }
  rewrite Hsrc in H. cbn [app length Z.of_nat] in H.
  destruct (copy_loop _ _ ctx fuel 0%nat 0 _ []) as [n err s' dst' | n s' dst'].
  - destruct H as [Hcat [Hn Hnone]]. split; [exact Hcat |]. split; [lia |].
    intros He. specialize (Hnone He). rewrite Hnone, app_nil_r in Hcat.
    subst dst'. split; [reflexivity | lia].
  - destruct H as [Hcat Hn]. split; [exact Hcat | lia].
Qed.

(** X7.  Whenever [Write] of a throttled writer over a buffer returns, with
    or without an error, the count [n] it returns is between 0 and [len(p)]
    and the underlying writer has received exactly the first [n] bytes of
    [p], in order; with a nil error that is the whole of [p]. *)
Theorem X7_throttled_Write_hands_on_a_prefix (clock : nat -> Z) (fuel : nat)
    (t : ThrottledWriter (list byte)) (p : list byte) (n : Z)
    (err : option error) (t' : ThrottledWriter (list byte)) :
  Write (list byte) buffer_write clock fuel t p = Some (n, err, t') ->
  0 <= n <= Z.of_nat (length p)
  /\ writer t' = writer t ++ firstn (Z.to_nat n) p
  /\ (err = None -> n = Z.of_nat (length p) /\ writer t' = writer t ++ p).
Proof.
  intros Hrun. unfold Write in Hrun.
  apply throttled_Write_prefix in Hrun; [| lia].
  destruct Hrun as [Hn [Hw Hnone]]. rewrite Z.sub_0_r in Hw.
  cbn [Z.to_nat skipn] in Hw. split; [exact Hn |]. split; [exact Hw |].
  intros He. specialize (Hnone He). split; [exact Hnone |].
  rewrite Hw, Hnone, Nat2Z.id, firstn_all. reflexivity.
Qed.

Lemma X7_witness :
  0 <= 3 <= Z.of_nat (length (list_byte_of_string "abc"))
  /\ writer (mkThrottledWriter (list_byte_of_string "abc") 100 97 0 1)
     = [] ++ firstn (Z.to_nat 3) (list_byte_of_string "abc")
  /\ (@None error = None ->
      3 = Z.of_nat (length (list_byte_of_string "abc"))
      /\ writer (mkThrottledWriter (list_byte_of_string "abc") 100 97 0 1)
         = [] ++ list_byte_of_string "abc").
Proof.
  apply (X7_throttled_Write_hands_on_a_prefix (fun _ => 0) 1
           (mkThrottledWriter [] 100 100 0 0) (list_byte_of_string "abc")).
  vm_compute. reflexivity.
Defined.

(** X8.  With a context that is never cancelled, the copy of an in-memory
    source into a buffer returns once the source is exhausted: after one read
    per 32 KiB chunk and one more that finds the end, it returns the source's
    length with a nil error, the destination holding the source's bytes after
    what it held before.  An empty source gives (0, nil) at the first
    read. *)
Theorem X8_copy_runs_to_completion (fuel : nat) (src dst : list byte) :
  (length src + chunk <= fuel * chunk)%nat ->
  CopyWithContext slice_read buffer_write Background fuel dst src
  = Returned (Z.of_nat (length src)) None [] (dst ++ src).
Proof.
  intros Hf. unfold CopyWithContext.
  rewrite copy_loop_completes by exact Hf. reflexivity.
Qed.

Lemma X8_witness :
  CopyWithContext slice_read buffer_write Background 2
    (list_byte_of_string "ab") (list_byte_of_string "cde")
  = Returned (Z.of_nat (length (list_byte_of_string "cde"))) None []
      (list_byte_of_string "ab" ++ list_byte_of_string "cde").
Proof.
  apply (X8_copy_runs_to_completion 2 (list_byte_of_string "cde")
           (list_byte_of_string "ab")).
  change (3 + chunk <= 2 * chunk)%nat. unfold chunk. lia.
Defined.

(** X9.  Whatever the destination writer does, a copy of an in-memory
    source that returns a nil error has read the source to its end and
    returns its full length: a write that fails, or that accepts fewer bytes
    than it was given, never ends in a nil error. *)
Theorem X9_copy_success_means_everything_was_written (W : Type)
    (write : write_fn W) (ctx : nat -> option done) (fuel : nat)
    (src : list byte) (dst : W) (n : Z) (src' : list byte) (dst' : W) :
  CopyWithContext slice_read write ctx fuel dst src = Returned n None src' dst' ->
  n = Z.of_nat (length src) /\ src' = [].
Proof.
  intros H. unfold CopyWithContext in H.
  apply copy_loop_success in H. destruct H as [Hn Hs]. split; [lia | exact Hs].
Qed.

Lemma X9_witness :
  18 = Z.of_nat (length (list_byte_of_string "test data for copy"))
  /\ @nil byte = [].
Proof.
  apply (X9_copy_success_means_everything_was_written (list byte) buffer_write
           Background 3 (list_byte_of_string "test data for copy") [] 18 []
           (list_byte_of_string "test data for copy")).
  vm_compute. reflexivity.
Defined.

End ThrottleProperties.

Section ProgressProperties.
Import IO Throttle Progress.

(** X10.  Whenever [printProgress] prints a bar, the bar is exactly as wide
    as the width chosen: for [ProgressWriter] 40 columns when [term.GetSize]
    succeeds with a width above 80 and 30 columns otherwise, for
    [ProgressReader] always 30, whatever [current] and [total] are.  With
    [current] above [total] (a percentage above 100) the filled part is cut
    to the width: the bar is full, not longer. *)
Theorem X10_bar_is_as_wide_as_chosen (p : progress) (now : Z)
    (size : result (Z * Z)) :
  match columns (ProgressWriter_printProgress p now size) with
  | Some n =>
      n = match size with
          | Ok (w, _) => if 80 <? w then 40%nat else 30%nat
          | Err _ => 30%nat
          end
  | None => True
  end
  /\ match columns (ProgressReader_printProgress p now) with
     | Some n => n = 30%nat
     | None => True
     end
  /\ option_map bar (fst (ProgressWriter_printProgress
                            (mkProgress 1000 5000 false None) now (Ok (80, 24))))
     = Some (Ok (repeat Filled 30)).
Proof.
  split; [| split].
  - unfold columns, ProgressWriter_printProgress.
    destruct (negb (due p now)); cbn [fst bar]; [exact I |].
    destruct (render _ (percent_of p)) as [cells | e] eqn:E; [| exact I].
    apply render_width in E.
    destruct size as [[w h] | e]; [destruct (80 <? w) |]; lia.
  - unfold columns, ProgressReader_printProgress.
    destruct (negb (due p now)); cbn [fst bar]; [exact I |].
    destruct (render 30 (percent_of p)) as [cells | e] eqn:E; [| exact I].
    apply render_width in E. lia.
  - vm_compute. reflexivity.
Qed.

(** X11.  The bar is redrawn at most every 100 ms: a call of
    [printProgress] less than 100 ms after one that printed prints nothing
    and leaves the state as it is, for the writer and for the reader
    alike. *)
Theorem X11_redraw_at_most_every_100ms (p : progress) (now now' : Z)
    (size : result (Z * Z)) (l : line) (p1 : progress) :
  ProgressWriter_printProgress p now size = (Some l, p1) ->
  now' - now < 100 * 1000000 ->
  ProgressWriter_printProgress p1 now' size = (None, p1)
  /\ ProgressReader_printProgress p1 now' = (None, p1).
Proof.
  unfold ProgressWriter_printProgress at 1.
  destruct (negb (due p now)); [discriminate |].
  intros H Hsoon. injection H as _ <-.
  unfold ProgressWriter_printProgress, ProgressReader_printProgress, due.
  cbn [quiet lastPrint].
  destruct (Z.ltb_spec (now' - now) (100 * 1000000)) as [_ | ?]; [| lia].
  cbn [negb]. rewrite andb_false_r. split; reflexivity.
Qed.

Lemma X11_witness :
  ProgressWriter_printProgress (mkProgress 1000 500 false (Some 0)) 50000000
    (Ok (80, 24))
  = (None, mkProgress 1000 500 false (Some 0))
  /\ ProgressReader_printProgress (mkProgress 1000 500 false (Some 0)) 50000000
     = (None, mkProgress 1000 500 false (Some 0)).
Proof.
  apply (X11_redraw_at_most_every_100ms (mkProgress 1000 500 false None) 0
           50000000 (Ok (80, 24))
           (mkLine (percent_of (mkProgress 1000 500 false None))
              (render 30 (percent_of (mkProgress 1000 500 false None))))).
  - reflexivity.
  - lia.
Defined.

(** X12.  Wrapping the destination of a copy in a [ProgressWriter] changes
    nothing in the outcome unless the bar panics: with the same reader,
    context and underlying writer, either the wrapped copy ends with the panic
    of [strings.Repeat] that [printProgress] passes on, or it returns the same
    count and the same error as the plain copy, leaves the source in the same
    state and has handed the same data to the underlying writer.  The bar
    cannot panic when the writer is quiet or [total] is not above zero, and
    then the outcomes are the same.  Over an in-memory destination, unless
    the copy ends with that panic, the wrapper's counter [current] equals
    the count the copy returns and [total] is unchanged. *)
Theorem X12_progress_writer_is_transparent (R W : Type) (read : read_fn R)
    (inner : write_fn W) (clock : nat -> Z) (size : result (Z * Z))
    (ctx : nat -> option done) (fuel : nat) (src : R) (dst : W)
    (total : Z) (quiet : bool) :
  let plain := CopyWithContext read inner ctx fuel dst src in
  let wrapped := CopyWithContext read (Write W inner clock size) ctx fuel
                   (NewProgressWriter W dst total quiet) src in
  (stopped_by_bar wrapped \/ same_outcome plain wrapped)
  /\ (quiet = true \/ total <= 0 -> same_outcome plain wrapped)
  /\ forall buf : list byte,
       match CopyWithContext read (Write (list byte) buffer_write clock size)
               ctx fuel (NewProgressWriter (list byte) buf total quiet) src with
       | Returned n e _ p' =>
           e = Some negative_Repeat
           \/ (current (pw_state p') = n
               /\ Progress.total (pw_state p') = total)
       | Turning n _ p' =>
           current (pw_state p') = n /\ Progress.total (pw_state p') = total
       end.
Proof.
  cbv zeta. unfold CopyWithContext.
  pose proof (copy_through_progress R W read inner clock size ctx fuel 0%nat 0
                src (NewProgressWriter W dst total quiet)) as H.
  cbv zeta in H. destruct H as [H1 H2].
  split; [exact H1 |]. split; [exact H2 |]. clear H1 H2.
  intros buf.
  pose proof (copy_progress_counts R read clock size ctx fuel 0%nat 0 src
                (NewProgressWriter (list byte) buf total quiet)) as H.
  destruct (copy_loop read (Write (list byte) buffer_write clock size) ctx
              fuel 0%nat 0 src (NewProgressWriter (list byte) buf total quiet))
    as [n e s' p' | n s' p']; cbn [NewProgressWriter pw_state current
                                   Progress.total] in H;
    destruct H as [Hc Ht]; [right |]; (split; [lia | exact Ht]).
Qed.

(** Three bytes copied through a wrapper that does not know the size; and a
    writer that reports a count below zero, which makes the bar panic. *)
Lemma X12_witness :
  same_outcome
    (CopyWithContext slice_read buffer_write Background 3 []
       (list_byte_of_string "abc"))
    (CopyWithContext slice_read
       (Write (list byte) buffer_write (fun _ => 0) (Ok (80, 24)))
       Background 3 (NewProgressWriter (list byte) [] 0 false)
       (list_byte_of_string "abc"))
  /\ stopped_by_bar
       (CopyWithContext slice_read
          (Write (list byte) (fun w _ => (-1, None, w)) (fun _ => 0)
             (Ok (80, 24)))
          Background 3 (NewProgressWriter (list byte) [] 10 false)
          (list_byte_of_string "abc")).
Proof.
  split.
  - exact (proj1 (proj2 (X12_progress_writer_is_transparent (list byte)
                           (list byte) slice_read buffer_write (fun _ => 0)
                           (Ok (80, 24)) Background 3
                           (list_byte_of_string "abc") [] 0 false))
             (or_intror (Z.le_refl 0))).
  - vm_compute. reflexivity.
Defined.

End ProgressProperties.

Section PathProperties.
Import GoStrings Filepath Paths.

(** X13.  [ParseRemotePath] accepts exactly the strings [device:path] in
    which the device id is not empty and holds no colon and the path starts
    with a slash, and returns the two parts unchanged: the string is cut at
    its first colon, later colons belong to the path; a missing colon, an
    empty device id, an empty path and a relative path are errors. *)
Theorem X13_ParseRemotePath_accepts_device_colon_absolute_path
    (s deviceID path : string) :
  ParseRemotePath s = Ok (mkRemotePath deviceID path)
  <-> s = (deviceID ++ ":" ++ path)%string
      /\ deviceID <> ""%string
      /\ IndexByte deviceID ":" = None
      /\ HasPrefix path "/" = true.
Proof. apply ParseRemotePath_spec. Qed.

(** X14.  Every string [ParseRemotePath] accepts is a remote path for
    [IsRemotePath]: the test the get and put commands make first never
    rejects an argument the parser would accept (a drive-letter prefix such as
    [C:\] is never followed by the slash an accepted path starts with). *)
Theorem X14_parsed_paths_are_remote_paths (s : string) (r : RemotePath) :
  ParseRemotePath s = Ok r -> IsRemotePath s = true.
Proof. apply ParseRemotePath_IsRemotePath. Qed.

Lemma X14_witness : IsRemotePath "c:/etc/hosts" = true.
Proof.
  apply (X14_parsed_paths_are_remote_paths "c:/etc/hosts"
           (mkRemotePath "c" "/etc/hosts")).
  reflexivity.
Defined.

(** X15.  On a Unix-like system the base name of a path that ends with a
    file name (not empty, without a slash) is that name, whether the name
    stands alone or after a directory part, and whether or not a slash
    follows it. *)
Theorem X15_BaseName_is_the_last_name (pre n : string) :
  is_name n = true ->
  pre = ""%string \/ (exists x, pre = (x ++ "/")%string) ->
  BaseName unix (pre ++ n) = n /\ BaseName unix (pre ++ n ++ "/") = n.
Proof. apply BaseName_name. Qed.

Lemma X15_witness :
  BaseName unix ("/var/log/" ++ "app.log") = "app.log"%string
  /\ BaseName unix ("/var/log/" ++ "app.log" ++ "/") = "app.log"%string.
Proof.
  apply (X15_BaseName_is_the_last_name "/var/log/" "app.log").
  - reflexivity.
  - right. exists "/var/log"%string. reflexivity.
Defined.

(** X16.  Where a transfer of the file [x/n] goes: uploaded to a remote
    destination that ends with a slash it goes to that directory under its
    own name, and to any other remote destination it goes to the destination
    as given; downloaded without a local destination it goes to [./n], and
    with a local destination that is not empty and does not end with a slash
    to the destination as given.  For [JoinRemotePath] a slash at the end of
    the base makes no difference. *)
Theorem X16_destinations (x r n : string) :
  is_name n = true ->
  ResolveRemoteDestination unix (x ++ "/" ++ n) (r ++ "/")
  = (r ++ "/" ++ n)%string
  /\ (forall dest, IsDirectory dest = false ->
        ResolveRemoteDestination unix (x ++ "/" ++ n) dest = dest)
  /\ ResolveLocalDestination unix (x ++ "/" ++ n) "" = ("./" ++ n)%string
  /\ (forall dest, dest <> ""%string -> IsDirectory dest = false ->
        ResolveLocalDestination unix (x ++ "/" ++ n) dest = dest)
  /\ (IsDirectory r = false ->
        JoinRemotePath r n = JoinRemotePath (r ++ "/") n).
Proof.
  intros Hn.
  assert (B : BaseName unix (x ++ "/" ++ n) = n).
  { rewrite <- append_assoc.
    apply (BaseName_name (x ++ "/") n Hn). right. exists x. reflexivity. }
  unfold ResolveRemoteDestination, ResolveLocalDestination, JoinRemotePath,
    IsDirectory.
  rewrite B. split; [| split; [| split; [| split]]].
  - rewrite HasSuffix_app. apply append_assoc.
  - intros dest Hd. rewrite Hd. reflexivity.
  - reflexivity.
  - intros dest Hne Hd. destruct (String.eqb_spec dest "") as [? | _];
      [contradiction |].
    cbn [Separator unix]. rewrite Hd. reflexivity.
  - intros Hr. rewrite Hr, HasSuffix_app. symmetry. apply append_assoc.
Qed.

Lemma X16_witness :
  ResolveRemoteDestination unix ("." ++ "/" ++ "script.sh") ("/opt" ++ "/")
  = ("/opt" ++ "/" ++ "script.sh")%string
  /\ (forall dest, IsDirectory dest = false ->
        ResolveRemoteDestination unix ("." ++ "/" ++ "script.sh") dest = dest)
  /\ ResolveLocalDestination unix ("." ++ "/" ++ "script.sh") ""
     = ("./" ++ "script.sh")%string
  /\ (forall dest, dest <> ""%string -> IsDirectory dest = false ->
        ResolveLocalDestination unix ("." ++ "/" ++ "script.sh") dest = dest)
  /\ (IsDirectory "/opt" = false ->
        JoinRemotePath "/opt" "script.sh"
        = JoinRemotePath ("/opt" ++ "/") "script.sh").
Proof.
  apply (X16_destinations "." "/opt" "script.sh"). reflexivity.
Defined.

End PathProperties.

Section TransferProperties.
Import GoStrings Filepath Paths Transfer.

(** X17.  Without [Force] nothing is ever appended to [result.Errors]: the
    result [Upload] and [Download] return, when they return one, has an empty
    error list, so the commands print no warnings; an error is returned
    instead. *)
Theorem X17_no_recorded_errors_without_force (w : World)
    (opts : TransferOptions) (deviceID : string) :
  Force opts = false ->
  (forall localPaths remotePath t,
     match fst (fst (Upload w opts deviceID localPaths remotePath t)) with
     | Some r => Errors r = []
     | None => True
     end)
  /\ (forall remotePath localPath t,
        match fst (fst (Download w opts deviceID remotePath localPath t)) with
        | Some r => Errors r = []
        | None => True
        end).
Proof. apply no_force_no_errors. Qed.

Lemma X17_witness :
  (forall localPaths remotePath t,
     match fst (fst (Upload calm plain "dev" localPaths remotePath t)) with
     | Some r => Errors r = []
     | None => True
     end)
  /\ (forall remotePath localPath t,
        match fst (fst (Download calm plain "dev" remotePath localPath t)) with
        | Some r => Errors r = []
        | None => True
        end).
Proof. apply (X17_no_recorded_errors_without_force calm plain "dev"). reflexivity. Defined.

(** X18.  The number of files [Upload] reports is the number of
    [UploadFile] calls the device accepted during the run: a file is counted
    exactly when its upload returned no error, whatever the options, the
    directories walked and the errors met on the way. *)
Theorem X18_upload_counts_accepted_uploads (w : World) (opts : TransferOptions)
    (deviceID : string) (localPaths : list string) (remotePath : string)
    (t : list Event) :
  let '(r, _, t') := Upload w opts deviceID localPaths remotePath t in
  exists tr,
    t' = t ++ tr
    /\ match r with
       | Some r => FilesTransferred r = tally (upload_score w) t tr
       | None => True
       end.
Proof.
  apply (Upload_tracks w opts deviceID (upload_score w) FilesTransferred).
  - intros r err. reflexivity.
  - reflexivity.
  - apply upload_score_structural.
  - apply uploadFile_counts_uploads.
Qed.

(** X19.  The number of files [Download] reports is the number of copies
    into a local file that ended without an error, and the number of bytes
    it reports is the sum of the counts those copies returned. *)
Theorem X19_download_counts_completed_copies (w : World)
    (opts : TransferOptions) (deviceID remotePath localPath : string)
    (t : list Event) :
  let '(r, _, t') := Download w opts deviceID remotePath localPath t in
  exists tr,
    t' = t ++ tr
    /\ match r with
       | Some r =>
           FilesTransferred r = tally (copy_score (fun _ => 1) w) t tr
           /\ BytesTransferred r = tally (copy_score (fun n => n) w) t tr
       | None => True
       end.
Proof.
  pose proof (Download_tracks w opts deviceID (copy_score (fun _ => 1) w)
                FilesTransferred (fun r err => eq_refl) eq_refl
                (copy_score_structural (fun _ => 1) w)
                (fun rp lp size =>
                   downloadFile_counts_copies w opts deviceID FilesTransferred
                     (fun _ => 1) rp lp size (fun r n => eq_refl))
                remotePath localPath t) as F.
  pose proof (Download_tracks w opts deviceID (copy_score (fun n => n) w)
                BytesTransferred (fun r err => eq_refl) eq_refl
                (copy_score_structural (fun n => n) w)
                (fun rp lp size =>
                   downloadFile_counts_copies w opts deviceID BytesTransferred
                     (fun n => n) rp lp size (fun r n => eq_refl))
                remotePath localPath t) as B.
  destruct (Download w opts deviceID remotePath localPath t) as [[r err] t'].
  destruct F as [tr [Ht Hf]]. destruct B as [tr' [Ht' Hb]].
  assert (tr' = tr) as -> by (apply (app_inv_head t); congruence).
  exists tr. split; [exact Ht |].
  destruct r as [r |]; [split; assumption | exact I].
Qed.

(** X20.  Without [Force] a download never creates a local file where one
    was found: every [os.Create(p)] of the run is the fourth call of a
    sequence [os.Stat(p)], [os.MkdirAll], [DownloadFile], [os.Create(p)]
    whose [os.Stat] returned an error, in single-file and in recursive
    downloads alike. *)
Theorem X20_download_creates_only_where_stat_failed (w : World)
    (opts : TransferOptions) (deviceID : string) :
  Force opts = false ->
  forall remotePath localPath t,
    exists tr,
      snd (Download w opts deviceID remotePath localPath t) = t ++ tr
      /\ forall pre p post,
           tr = pre ++ OsCreate p :: post ->
           exists a dir d r,
             t ++ pre = a ++ [OsStat p; OsMkdirAll dir; DownloadFile d r]
             /\ is_err (w_Stat w a p) = true.
Proof.
  intros no_force remotePath localPath t.
  destruct (Download_obeys (create_ok w) w opts deviceID
              (create_ok_structural w)
              (downloadFile_creates_checked w opts deviceID no_force)
              remotePath localPath t) as [tr [Ht He]].
  exists tr. split; [exact Ht |].
  intros pre p post ->. apply each_at in He. exact He.
Qed.

Lemma X20_witness :
  exists tr,
    snd (Download calm plain "dev" "/f" "out.txt" []) = [] ++ tr
    /\ forall pre p post,
         tr = pre ++ OsCreate p :: post ->
         exists a dir d r,
           [] ++ pre = a ++ [OsStat p; OsMkdirAll dir; DownloadFile d r]
           /\ is_err (w_Stat calm a p) = true.
Proof.
  apply (X20_download_creates_only_where_stat_failed calm plain "dev"
           eq_refl "/f" "out.txt" []).
Defined.

(** X21.  What [Upload] sends is what it read: every [UploadFile] call of a
    run comes directly after the [io.ReadAll] of a local file, and the
    content it sends is the content that read returned. *)
Theorem X21_upload_sends_what_it_read (w : World) (opts : TransferOptions)
    (deviceID : string) (localPaths : list string) (remotePath : string)
    (t : list Event) :
  exists tr,
    snd (Upload w opts deviceID localPaths remotePath t) = t ++ tr
    /\ forall pre d p content post,
         tr = pre ++ UploadFile d p content :: post ->
         exists a localPath,
           t ++ pre = a ++ [ReadAll localPath]
           /\ w_ReadAll w a localPath = Ok content.
Proof.
  destruct (Upload_obeys (upload_ok w) w opts deviceID
              (upload_ok_structural w)
              (uploadFile_sends_what_it_read w opts deviceID)
              localPaths remotePath t) as [tr [Ht He]].
  exists tr. split; [exact Ht |].
  intros pre d p content post ->. apply each_at in He. exact He.
Qed.

(** X22.  [Download] and [Upload] never return a nil result together with a
    nil error, so their callers, which read the result only when the error is
    nil, never read a nil result.  [Download] returns a nil result only when
    it stops after the online check or after the remote stat (device offline,
    stat failed, or a directory without [Recursive]), [Upload] only when the
    device is offline; nothing else has been called by then. *)
Theorem X22_nil_result_comes_with_an_error (w : World) (opts : TransferOptions)
    (deviceID remotePath localPath : string) (localPaths : list string)
    (t : list Event) :
  match Download w opts deviceID remotePath localPath t with
  | (None, err, t') =>
      err <> None
      /\ (t' = t ++ [CheckDeviceOnline deviceID]
          \/ t' = t ++ [CheckDeviceOnline deviceID;
                        StatFile deviceID remotePath])
  | (Some _, _, _) => True
  end
  /\ match Upload w opts deviceID localPaths remotePath t with
     | (None, err, t') => err <> None /\ t' = t ++ [CheckDeviceOnline deviceID]
     | (Some _, _, _) => True
     end
  /\ Download offline plain "dev" "/f" "" []
     = (None, Some (ErrNew "device is offline"), [CheckDeviceOnline "dev"]).
Proof.
  split; [| split].
  - pose proof (Download_nil_result w opts deviceID remotePath localPath t) as N.
    destruct (Download w opts deviceID remotePath localPath t) as [[[r |] err] t'];
      [exact I | apply N; reflexivity].
  - pose proof (Upload_nil_result w opts deviceID localPaths remotePath t) as N.
    destruct (Upload w opts deviceID localPaths remotePath t) as [[[r |] err] t'];
      [exact I | apply N; reflexivity].
  - reflexivity.
Qed.

(** X23.  An error ends [Upload], with or without [Force]: when the upload
    of a list of paths returns an error, the upload of that list followed by
    further paths returns the same result, the same error and the same calls;
    nothing is done for the paths after the failing one.  ([Force] only
    makes the loops inside a directory go on.) *)
Theorem X23_upload_stops_at_the_first_failing_path (w : World)
    (opts : TransferOptions) (deviceID : string) (l1 l2 : list string)
    (remotePath : string) (t : list Event) (r : option TransferResult)
    (err : error) (t' : list Event) :
  Upload w opts deviceID l1 remotePath t = (r, Some err, t') ->
  Upload w opts deviceID (l1 ++ l2) remotePath t = (r, Some err, t').
Proof.
  unfold Upload.
  destruct (w_CheckDeviceOnline w t deviceID) as [e |]; [trivial |].
  rewrite upload_paths_app.
  destruct (upload_paths w opts deviceID l1 remotePath _) as [[e |] s1].
  - trivial.
  - intros H. discriminate H.
Qed.

Lemma X23_witness :
  Upload calm (mkOptions true 0 true true false false) "dev"
    (["a.txt"; "missing.txt"]%string ++ ["b.txt"]%string) "/tmp/" []
  = (Some (mkResult 1 3 []),
     Some (ErrWrap "failed to stat local path missing.txt"
             (ErrNew "no such file or directory")),
     [CheckDeviceOnline "dev"; OsStat "a.txt"; OsOpen "a.txt"; ReadAll "a.txt";
      UploadFile "dev" "/tmp/a.txt" (list_byte_of_string "abc");
      OsStat "missing.txt"]).
Proof.
  apply (X23_upload_stops_at_the_first_failing_path calm
           (mkOptions true 0 true true false false) "dev"
           ["a.txt"; "missing.txt"]%string ["b.txt"]%string "/tmp/" []).
  vm_compute. reflexivity.
Defined.

End TransferProperties.

Section CommandProperties.
Import GoStrings Filepath Paths Transfer.

(** X24.  In a dry run the summary line of both commands always says 0
    files: when [runPut] or [runGet], not quiet, returns without an error
    with the dry-run flag set, the line "Dry run complete. Would transfer %d
    file(s)" it prints shows 0, whatever was listed as to be transferred;
    it is the last line printed, but for the warnings. *)
Theorem X24_dry_run_summary_says_zero_files (w : World) (pflags : PutFlags)
    (gflags : GetFlags) (pargs gargs : list string) (t : list Event) :
  flag_dry_run pflags = true ->
  get_dry_run gflags = true ->
  match runPut w pflags false pargs t with
  | (None, t') =>
      exists t4,
        t' = t4 ++ [Print (DryRunComplete 0)]
        \/ exists errs,
             t' = t4 ++ [Print (DryRunComplete 0); Print (Warnings errs)]
  | (Some _, _) => True
  end
  /\ match runGet w gflags false gargs t with
     | (None, _, out) =>
         out = [GetDryRunComplete 0]
         \/ exists errs, out = [GetDryRunComplete 0; GetWarnings errs]
     | (Some _, _, _) => True
     end.
Proof.
  intros Hp Hg. split.
  - unfold runPut.
    destruct (negb (IsRemotePath (last pargs ""%string))); [exact I |].
    destruct (ParseRemotePath (last pargs ""%string)) as [remote | e];
      [| exact I].
    destruct (stat_all w (removelast pargs) t) as [[e |] t1]; [exact I |].
    destruct ((1 <? length (removelast pargs))%nat
              && negb (IsDirectory (Path remote))); [exact I |].
    destruct (Throttle.ParseBandwidthLimit (flag_limit pflags)) as [limit | e];
      [| exact I].
    destruct (w_NewClient w t1) as [e |]; [exact I |].
    rewrite Hp. cbn [negb andb].
    set (opts := mkOptions _ _ _ _ _ _).
    pose proof (proj1 (dry_run_is_inert w opts (DeviceID remote) eq_refl)
                  (removelast pargs) (Path remote) (t1 ++ [NewClient])) as H.
    pose proof (Upload_nil_result w opts (DeviceID remote) (removelast pargs)
                  (Path remote) (t1 ++ [NewClient])) as N.
    destruct (Upload w opts (DeviceID remote) (removelast pargs) (Path remote)
                (t1 ++ [NewClient])) as [[r e] t4].
    destruct r as [r |]; destruct e as [e |]; try exact I.
    + destruct H as [tr [_ [_ [Hf _]]]]. rewrite Hf.
      destruct (0 <? length (Errors r))%nat.
      * exists t4. right. exists (Errors r). rewrite <- app_assoc. reflexivity.
      * exists t4. left. reflexivity.
    + exfalso. destruct (N eq_refl) as [Hne _]. apply Hne. reflexivity.
  - unfold runGet.
    destruct (negb (IsRemotePath (hd ""%string gargs))); [exact I |].
    destruct (ParseRemotePath (hd ""%string gargs)) as [remote | e];
      [| exact I].
    destruct (Throttle.ParseBandwidthLimit (get_limit gflags)) as [limit | e];
      [| exact I].
    destruct (w_NewClient w t) as [e |]; [exact I |].
    rewrite Hg. cbn [negb andb].
    set (opts := mkOptions _ _ _ _ _ _).
    set (dest := match gargs with _ :: d :: _ => d | _ => ""%string end).
    pose proof (proj2 (dry_run_is_inert w opts (DeviceID remote) eq_refl)
                  (Path remote) dest (t ++ [NewClient])) as H.
    destruct (Download w opts (DeviceID remote) (Path remote) dest
                (t ++ [NewClient])) as [[r e] t4].
    destruct r as [r |]; destruct e as [e |]; try exact I.
    destruct H as [tr [_ [_ [Hf _]]]]. rewrite Hf. cbn [app].
    destruct (0 <? length (Errors r))%nat.
    + right. exists (Errors r). reflexivity.
    + left. reflexivity.
Qed.

Lemma X24_witness :
  match runPut calm (mkPutFlags false "" true false true) false
          ["a.txt"; "dev:/tmp/a.txt"]%string [] with
  | (None, t') =>
      exists t4,
        t' = t4 ++ [Print (DryRunComplete 0)]
        \/ exists errs,
             t' = t4 ++ [Print (DryRunComplete 0); Print (Warnings errs)]
  | (Some _, _) => True
  end
  /\ match runGet calm (mkGetFlags false "" true false true) false
             ["dev:/f"]%string [] with
     | (None, _, out) =>
         out = [GetDryRunComplete 0]
         \/ exists errs, out = [GetDryRunComplete 0; GetWarnings errs]
     | (Some _, _, _) => True
     end.
Proof.
  apply (X24_dry_run_summary_says_zero_files calm
           (mkPutFlags false "" true false true)
           (mkGetFlags false "" true false true)
           ["a.txt"; "dev:/tmp/a.txt"]%string ["dev:/f"]%string []);
    reflexivity.
Defined.

(** X25.  A dry run changes nothing: with [DryRun] set, [Upload] and
    [Download] make no call that changes the device or the local disk (no
    upload, no remote mkdir, no local mkdir, create or copy), in single-file
    and in recursive transfers, and the result they return counts no file and
    no byte. *)
Theorem X25_dry_run_changes_nothing (w : World) (opts : TransferOptions)
    (deviceID : string) :
  DryRun opts = true ->
  (forall localPaths remotePath t,
     let '(r, _, t') := Upload w opts deviceID localPaths remotePath t in
     exists tr,
       t' = t ++ tr
       /\ forallb (fun e => negb (is_mutation e)) tr = true
       /\ match r with
          | Some r => FilesTransferred r = 0 /\ BytesTransferred r = 0
          | None => True
          end)
  /\ (forall remotePath localPath t,
        let '(r, _, t') := Download w opts deviceID remotePath localPath t in
        exists tr,
          t' = t ++ tr
          /\ forallb (fun e => negb (is_mutation e)) tr = true
          /\ match r with
             | Some r => FilesTransferred r = 0 /\ BytesTransferred r = 0
             | None => True
             end).
Proof. apply dry_run_is_inert. Qed.

Lemma X25_witness :
  (forall localPaths remotePath t,
     let '(r, _, t') := Upload calm dry "dev" localPaths remotePath t in
     exists tr,
       t' = t ++ tr
       /\ forallb (fun e => negb (is_mutation e)) tr = true
       /\ match r with
          | Some r => FilesTransferred r = 0 /\ BytesTransferred r = 0
          | None => True
          end)
  /\ (forall remotePath localPath t,
        let '(r, _, t') := Download calm dry "dev" remotePath localPath t in
        exists tr,
          t' = t ++ tr
          /\ forallb (fun e => negb (is_mutation e)) tr = true
          /\ match r with
             | Some r => FilesTransferred r = 0 /\ BytesTransferred r = 0
             | None => True
             end).
Proof. apply (X25_dry_run_changes_nothing calm dry "dev"). reflexivity. Defined.

(** X26.  [runGet] checks its arguments before it does anything.  For a
    bandwidth limit written in ASCII: when the source is not a remote path
    [ParseRemotePath] accepts, or the limit does not parse, it returns an
    error having made no call and printed nothing; otherwise the first thing
    it does is to create the API client.  (The test with [IsRemotePath] that
    comes first only changes the text of the error.) *)
Theorem X26_runGet_validates_before_acting (w : World) (flags : GetFlags)
    (quiet : bool) (args : list string) (t : list Event) :
  isASCII (get_limit flags) = true ->
  match ParseRemotePath (hd ""%string args),
        Throttle.ParseBandwidthLimit (get_limit flags) with
  | Ok _, Ok _ =>
      exists tr, snd (fst (runGet w flags quiet args t)) = t ++ NewClient :: tr
  | _, _ => exists err, runGet w flags quiet args t = (Some err, t, [])
  end.
Proof.
  intros _. unfold runGet.
  destruct (ParseRemotePath (hd ""%string args)) as [remote | e] eqn:Ep.
  - rewrite (ParseRemotePath_IsRemotePath _ _ Ep). cbn [negb].
    destruct (Throttle.ParseBandwidthLimit (get_limit flags)) as [limit | e];
      [| eexists; reflexivity].
    destruct (w_NewClient w t) as [e |].
    + exists []. reflexivity.
    + set (opts := mkOptions _ _ _ _ _ _).
      set (dest := match args with _ :: d :: _ => d | _ => ""%string end).
      destruct (Download_extends w opts (DeviceID remote) (Path remote) dest
                  (t ++ [NewClient])) as [tr Ht].
      destruct (Download w opts (DeviceID remote) (Path remote) dest
                  (t ++ [NewClient])) as [[r e] t2].
      cbn [snd] in Ht. exists tr.
      destruct r as [r |]; destruct e as [e |]; cbn [fst snd];
        rewrite Ht, <- app_assoc; reflexivity.
  - destruct (negb (IsRemotePath (hd ""%string args))); eexists; reflexivity.
Qed.

Lemma X26_witness :
  (exists tr,
     snd (fst (runGet calm (mkGetFlags false "1M" true false false) false
                 ["dev:/f"; "out.txt"]%string []))
     = [] ++ NewClient :: tr)
  /\ (exists err,
        runGet calm (mkGetFlags false "fast" true false false) false
          ["dev:/f"; "out.txt"]%string []
        = (Some err, [], []))
  /\ (exists err,
        runGet calm (mkGetFlags false "1M" true false false) false
          ["out.txt"; "dev:/f"]%string [NewClient]
        = (Some err, [NewClient], [])).
Proof.
  split; [| split].
  - exact (X26_runGet_validates_before_acting calm
             (mkGetFlags false "1M" true false false) false
             ["dev:/f"; "out.txt"]%string [] eq_refl).
  - exact (X26_runGet_validates_before_acting calm
             (mkGetFlags false "fast" true false false) false
             ["dev:/f"; "out.txt"]%string [] eq_refl).
  - exact (X26_runGet_validates_before_acting calm
             (mkGetFlags false "1M" true false false) false
             ["out.txt"; "dev:/f"]%string [NewClient] eq_refl).
Defined.

End CommandProperties.

Section UpdateProperties.
Import GoStrings Update.

(** X27.  On versions other than [dev] (after the leading [v] is removed)
    [CompareVersions] is antisymmetric and reflexive, and its result is 1, 0
    or -1.  [dev] is the exception: [CompareVersions("dev", v)] is -1 for
    every [v], [dev] itself included, so that [dev] compared with [dev] is -1
    in both orders; every other version is newer than [dev]. *)
Theorem X27_CompareVersions_is_antisymmetric_but_for_dev (v1 v2 : string) :
  TrimPrefix v1 "v" <> "dev"%string ->
  TrimPrefix v2 "v" <> "dev"%string ->
  CompareVersions v2 v1 = - CompareVersions v1 v2
  /\ CompareVersions v1 v1 = 0
  /\ (CompareVersions v1 v2 = 1 \/ CompareVersions v1 v2 = 0
      \/ CompareVersions v1 v2 = -1)
  /\ (forall v, CompareVersions "dev" v = -1 /\ CompareVersions "vdev" v = -1)
  /\ CompareVersions v1 "dev" = 1.
Proof.
  intros H1 H2. split; [| split; [| split; [| split]]].
  - rewrite (CompareVersions_parts v1 v2 H1 H2),
      (CompareVersions_parts v2 v1 H2 H1), Nat.max_comm.
    apply compare_loop_antisym.
  - rewrite (CompareVersions_parts v1 v1 H1 H1). apply compare_loop_refl.
  - destruct (CompareVersions_first_difference v1 v2 H1 H2)
      as [[H0 _] | [k [_ [[_ H] | [_ H]]]]]; auto.
  - intros v. split; reflexivity.
  - unfold CompareVersions. cbv zeta.
    destruct (String.eqb_spec (TrimPrefix v1 "v") "dev") as [? | _];
      [contradiction | reflexivity].
Qed.

Lemma X27_witness :
  CompareVersions "v1.10" "1.2.0" = - CompareVersions "1.2.0" "v1.10"
  /\ CompareVersions "1.2.0" "1.2.0" = 0
  /\ (CompareVersions "1.2.0" "v1.10" = 1 \/ CompareVersions "1.2.0" "v1.10" = 0
      \/ CompareVersions "1.2.0" "v1.10" = -1)
  /\ (forall v, CompareVersions "dev" v = -1 /\ CompareVersions "vdev" v = -1)
  /\ CompareVersions "1.2.0" "dev" = 1.
Proof.
  apply (X27_CompareVersions_is_antisymmetric_but_for_dev "1.2.0" "v1.10");
    discriminate.
Defined.

(** X28.  The comparison of two versions other than [dev] is decided by the
    first part at which their numbers differ, the number of a part being the
    one [Sscanf] reads from it and 0 when the version has no such part or
    nothing is read: the result is 0 when all numbers agree, and otherwise 1
    or -1 as the first version's number at the first difference is the larger
    or the smaller. *)
Theorem X28_CompareVersions_first_difference (v1 v2 : string) :
  TrimPrefix v1 "v" <> "dev"%string ->
  TrimPrefix v2 "v" <> "dev"%string ->
  let a := part_number (Split_dot (TrimPrefix v1 "v")) in
  let b := part_number (Split_dot (TrimPrefix v2 "v")) in
  (CompareVersions v1 v2 = 0 /\ forall j, a j = b j)
  \/ exists k,
       (forall j, (j < k)%nat -> a j = b j)
       /\ ((b k < a k /\ CompareVersions v1 v2 = 1)
           \/ (a k < b k /\ CompareVersions v1 v2 = -1)).
Proof. apply CompareVersions_first_difference. Qed.

Lemma X28_witness :
  let a := part_number (Split_dot (TrimPrefix "1.10-rc1" "v")) in
  let b := part_number (Split_dot (TrimPrefix "v1.9.4" "v")) in
  (CompareVersions "1.10-rc1" "v1.9.4" = 0 /\ forall j, a j = b j)
  \/ exists k,
       (forall j, (j < k)%nat -> a j = b j)
       /\ ((b k < a k /\ CompareVersions "1.10-rc1" "v1.9.4" = 1)
           \/ (a k < b k /\ CompareVersions "1.10-rc1" "v1.9.4" = -1)).
Proof.
  apply (X28_CompareVersions_first_difference "1.10-rc1" "v1.9.4");
    discriminate.
Defined.

(** X29.  On versions written as numbers between points (each from 0 to
    2^63 - 1, in decimal, with or without a leading [v]) [CompareVersions]
    is the numeric order, part by part, a missing part counting as 0: the
    result is 0 exactly when the numbers agree, and otherwise 1 or -1 as the
    first version has the larger or the smaller number at the first
    difference.  So 1.10 is newer than 1.9, and 1.2 equals 1.2.0. *)
Theorem X29_CompareVersions_is_the_numeric_order (p1 p2 : string)
    (xs ys : list Z) :
  In p1 [""; "v"]%string -> In p2 [""; "v"]%string ->
  xs <> [] -> ys <> [] -> Forall component xs -> Forall component ys ->
  let r := CompareVersions (p1 ++ dotted xs) (p2 ++ dotted ys) in
  (r = 0 /\ forall j, nth j xs 0 = nth j ys 0)
  \/ exists k,
       (forall j, (j < k)%nat -> nth j xs 0 = nth j ys 0)
       /\ ((nth k ys 0 < nth k xs 0 /\ r = 1)
           \/ (nth k xs 0 < nth k ys 0 /\ r = -1)).
Proof.
  intros Hp1 Hp2 Hx Hy Cx Cy r.
  destruct (TrimPrefix_dotted xs Hx Cx) as [Tx [Tvx Dx]].
  destruct (TrimPrefix_dotted ys Hy Cy) as [Ty [Tvy Dy]].
  assert (T1 : TrimPrefix (p1 ++ dotted xs) "v" = dotted xs).
  { destruct Hp1 as [<- | [<- | []]]; [exact Tx | exact Tvx]. }
  assert (T2 : TrimPrefix (p2 ++ dotted ys) "v" = dotted ys).
  { destruct Hp2 as [<- | [<- | []]]; [exact Ty | exact Tvy]. }
  pose proof (CompareVersions_first_difference (p1 ++ dotted xs)
                (p2 ++ dotted ys)) as F.
  rewrite T1, T2 in F. specialize (F Dx Dy). cbv zeta in F. fold r in F.
  destruct F as [[H0 Hall] | [k [Hbefore Hat]]].
  - left. split; [exact H0 |]. intros j. specialize (Hall j).
    rewrite !part_number_dotted in Hall by assumption. exact Hall.
  - right. exists k. split.
    + intros j Hj. specialize (Hbefore j Hj).
      rewrite !part_number_dotted in Hbefore by assumption. exact Hbefore.
    + rewrite !part_number_dotted in Hat by assumption. exact Hat.
Qed.

Lemma X29_witness :
  let r := CompareVersions ("v" ++ dotted [1; 10; 0]) ("" ++ dotted [1; 9]) in
  (r = 0 /\ forall j, nth j [1; 10; 0] 0 = nth j [1; 9] 0)
  \/ exists k,
       (forall j, (j < k)%nat -> nth j [1; 10; 0] 0 = nth j [1; 9] 0)
       /\ ((nth k [1; 9] 0 < nth k [1; 10; 0] 0 /\ r = 1)
           \/ (nth k [1; 10; 0] 0 < nth k [1; 9] 0 /\ r = -1)).
Proof.
  apply (X29_CompareVersions_is_the_numeric_order "v" "" [1; 10; 0] [1; 9]).
  - right. left. reflexivity.
  - left. reflexivity.
  - discriminate.
  - discriminate.
  - repeat constructor; unfold component; lia.
  - repeat constructor; unfold component; lia.
Defined.

End UpdateProperties.

Section ContainmentProperties.
Import GoStrings Paths Transfer.

(** X30.  A download stays with what it was asked for: every request a run
    of [Download] makes to the device ([CheckDeviceOnline], [StatFile],
    [ListFiles], [DownloadFile]) names the given device, every remote path it
    asks for is the given remote path followed by further text (the names
    joined to it directory by directory), and it never uploads a file or
    creates a remote directory. *)
Theorem X30_download_asks_only_below_the_remote_path (w : World)
    (opts : TransferOptions) (deviceID remotePath localPath : string)
    (t : list Event) :
  exists tr,
    snd (Download w opts deviceID remotePath localPath t) = t ++ tr
    /\ (forall d p,
          In (StatFile d p) tr \/ In (ListFiles d p) tr
          \/ In (DownloadFile d p) tr ->
          d = deviceID /\ HasPrefix p remotePath = true)
    /\ (forall d, In (CheckDeviceOnline d) tr -> d = deviceID)
    /\ (forall d p c, ~ In (UploadFile d p c) tr)
    /\ (forall d p, ~ In (MkdirOnDevice d p) tr).
Proof.
  destruct (Download_under w opts deviceID remotePath localPath t)
    as [tr [Ht He]].
  exists tr. split; [exact Ht |].
  split; [| split; [| split]].
  - intros d p [H | [H | H]];
      destruct (each_In _ _ _ _ He H) as [t' Hok]; exact Hok.
  - intros d H. destruct (each_In _ _ _ _ He H) as [t' Hok]. exact Hok.
  - intros d p c H. destruct (each_In _ _ _ _ He H) as [t' Hok]. exact Hok.
  - intros d p H. destruct (each_In _ _ _ _ He H) as [t' Hok]. exact Hok.
Qed.

End ContainmentProperties.
